(** * nonlinear.pyx: Hermite-expansion Gaussian anamorphosis

    A shallow embedding of [src/cython_code/nonlinear.pyx] (PyGSLIB) and the
    properties of its control-point scans, transforms and solvers.

    Conventions.
    - A Python/Cython call either returns a value or raises: [result].
    - Python and C integers are [Z]; numpy 1-d arrays of doubles are lists,
      2-d arrays are [matrix] (row lists together with the column count).
    - The arithmetic of C doubles is an interface, [Arith].  Its instances
      are [ideal] (the real numbers of the specification's data model,
      section 3, exact), [rounded rnd] (the real numbers, with the values
      kept in [cdef float] locals rounded by [rnd]) and [binary64] (IEEE 754
      doubles, with the rounding to single precision that a [cdef float]
      local performs).  Whatever is proved for every [Arith] holds for all
      of them.  Statements about [stnormpdf], [f_var_Zv] and
      [f_covar_ZvZv], which keep values in C floats, are made over
      [rounded rnd] or [binary64]. *)

From Stdlib Require Import ZArith List Bool Lia.
From Stdlib Require Import Reals Lra.
From Stdlib Require Import Floats.
Import ListNotations.

Open Scope Z_scope.

(* ================================================================== *)
(** ** Outcomes of a call *)

Inductive exn : Type :=
| AssertionError   (* a failed [assert] *)
| IndexError       (* an index outside an array *)
| ValueError       (* raised by [min]/[max] of an empty sequence, by
                      [np.interp] and by [brentq] *)
| Uninitialized.   (* a [cdef int] local read before any assignment: the
                      loop that should have set it ran over an empty range *)

Inductive result (A : Type) : Type :=
| Ok (a : A)
| Raise (e : exn).

Arguments Ok {A} a.
Arguments Raise {A} e.

Definition bind {A B : Type} (m : result A) (k : A -> result B) : result B :=
  match m with
  | Ok a => k a
  | Raise e => Raise e
  end.

Notation "x <- m ;; k" := (bind m (fun x => k))
  (at level 61, m at next level, right associativity).
Notation "' p <- m ;; k" := (bind m (fun x => match x with p => k end))
  (at level 61, p pattern, m at next level, right associativity).

Definition assert (b : bool) : result unit :=
  if b then Ok tt else Raise AssertionError.

(** A C local that a [for] loop may or may not have assigned. *)
Definition read (v : option Z) : result Z :=
  match v with
  | Some k => Ok k
  | None => Raise Uninitialized
  end.

(* ================================================================== *)
(** ** Arithmetic of doubles *)

Class Arith (D : Type) : Type := {
  dof_Z : Z -> D;            (* an integer literal or an int converted to double *)
  dadd : D -> D -> D;
  dsub : D -> D -> D;
  dmul : D -> D -> D;
  ddiv : D -> D -> D;
  dopp : D -> D;
  dltb : D -> D -> bool;
  dleb : D -> D -> bool;
  deqb : D -> D -> bool;
  disnan : D -> bool;        (* np.isnan *)
  dsqrt : D -> D;            (* sqrt, np.sqrt, x ** .5 *)
  dpow : D -> Z -> D;        (* x ** p at an integral exponent p >= 0 *)
  dsingle : D -> D           (* the value kept by a [float] variable *)
}.

(** libm's [exp], used by [stnormpdf] only. *)
Class Exponential (D : Type) : Type := {
  dexp : D -> D
}.

Declare Scope dbl_scope.
Delimit Scope dbl_scope with D.
Infix "+" := dadd : dbl_scope.
Infix "-" := dsub : dbl_scope.
Infix "*" := dmul : dbl_scope.
Infix "/" := ddiv : dbl_scope.
Notation "- x" := (dopp x) : dbl_scope.
Infix "<?" := dltb : dbl_scope.
Infix "<=?" := dleb : dbl_scope.
Infix "=?" := deqb : dbl_scope.
Notation "x >? y" := (dltb y x) (only parsing) : dbl_scope.
Notation "x >=? y" := (dleb y x) (only parsing) : dbl_scope.
Infix "**" := dpow (at level 30, right associativity) : dbl_scope.
Notation "# z" := (dof_Z z) (at level 9, format "# z") : dbl_scope.

(** *** The real numbers *)

Definition Rltb (a b : R) : bool := if Rlt_dec a b then true else false.
Definition Rleb (a b : R) : bool := if Rle_dec a b then true else false.
Definition Reqb (a b : R) : bool := if Req_dec_T a b then true else false.

#[export] Instance ideal : Arith R := {|
  dof_Z := IZR;
  dadd := Rplus;
  dsub := Rminus;
  dmul := Rmult;
  ddiv := Rdiv;
  dopp := Ropp;
  dltb := Rltb;
  dleb := Rleb;
  deqb := Reqb;
  disnan := fun _ => false;
  dsqrt := R_sqrt.sqrt;
  dpow := fun x p => pow x (Z.to_nat p);
  dsingle := fun x => x
|}.

#[export] Instance ideal_exp : Exponential R := {|
  dexp := Rtrigo_def.exp
|}.

(** *** The real numbers with single-precision locals

    [ideal] is exact: its [dsingle] is the identity, so it describes the
    code that keeps no value in a C [float].  [rounded rnd] differs from
    [ideal] in [dsingle] only: a value stored in a [cdef float] local passes
    through [rnd], the rounding to single precision.  The functions with
    such locals ([stnormpdf], [f_var_Zv], [f_covar_ZvZv]) are stated over
    [rounded rnd], for every [rnd] with the laws a statement names. *)
Definition rounded (rnd : R -> R) : Arith R := {|
  dof_Z := IZR;
  dadd := Rplus;
  dsub := Rminus;
  dmul := Rmult;
  ddiv := Rdiv;
  dopp := Ropp;
  dltb := Rltb;
  dleb := Rleb;
  deqb := Reqb;
  disnan := fun _ => false;
  dsqrt := R_sqrt.sqrt;
  dpow := fun x p => pow x (Z.to_nat p);
  dsingle := rnd
|}.

(** *** IEEE 754 binary64 *)

Definition float_of_Z (z : Z) : float :=
  match z with
  | Z0 => PrimFloat.zero
  | Zpos _ => PrimFloat.of_uint63 (Uint63.of_Z z)
  | Zneg p => PrimFloat.opp (PrimFloat.of_uint63 (Uint63.of_Z (Zpos p)))
  end.

(** [x ** p] for an integral [p >= 0], by repeated multiplication. *)
Fixpoint float_pow_nat (x : float) (n : nat) : float :=
  match n with
  | O => PrimFloat.one
  | S n' => PrimFloat.mul x (float_pow_nat x n')
  end.

(** Conversion of a double to C [float] and back: round to nearest even on
    24 bits of precision (binary32), exponents up to 128. *)
Definition float_single (x : float) : float :=
  match Prim2SF x with
  | S754_finite s m e => SF2Prim (binary_round 24 128 s m e)
  | _ => x
  end.

#[export] Instance binary64 : Arith float := {|
  dof_Z := float_of_Z;
  dadd := PrimFloat.add;
  dsub := PrimFloat.sub;
  dmul := PrimFloat.mul;
  ddiv := PrimFloat.div;
  dopp := PrimFloat.opp;
  dltb := PrimFloat.ltb;
  dleb := PrimFloat.leb;
  deqb := PrimFloat.eqb;
  disnan := PrimFloat.is_nan;
  dsqrt := PrimFloat.sqrt;
  dpow := fun x p => float_pow_nat x (Z.to_nat p);
  dsingle := float_single
|}.

(* ================================================================== *)
(** ** Arrays *)

Section Arrays.
Context {D : Type} {A : Arith D}.

(** [a.shape[0]], [len(a)] *)
Definition len (a : list D) : Z := Z.of_nat (length a).

(** [a[i]] with numpy's bounds check and wrap-around of negative indices. *)
Definition getitem (a : list D) (i : Z) : result D :=
  let k := if i <? 0 then i + len a else i in
  if (0 <=? k) && (k <? len a) then
    match nth_error a (Z.to_nat k) with
    | Some v => Ok v
    | None => Raise IndexError
    end
  else Raise IndexError.

(** The element at an index known to be inside the array. *)
Definition item (a : list D) (i : Z) : D := nth (Z.to_nat i) a (#0)%D.

Fixpoint replace_nth {X : Type} (n : nat) (v : X) (l : list X) : list X :=
  match l, n with
  | [], _ => []
  | _ :: t, O => v :: t
  | x :: t, S n' => x :: replace_nth n' v t
  end.

(** [a[i] = v] *)
Definition setitem (a : list D) (i : Z) (v : D) : result (list D) :=
  let k := if i <? 0 then i + len a else i in
  if (0 <=? k) && (k <? len a) then Ok (replace_nth (Z.to_nat k) v a)
  else Raise IndexError.

(** A 2-d array of shape [(length rows, ncols)]. *)
Record matrix : Type := Matrix { ncols : Z; rows : list (list D) }.

Definition nrows (H : matrix) : Z := Z.of_nat (length (rows H)).

Definition wf_matrix (H : matrix) : Prop :=
  0 <= ncols H /\ Forall (fun r => len r = ncols H) (rows H).

(** [H[p,:]] *)
Definition getrow (H : matrix) (p : Z) : result (list D) :=
  let k := if p <? 0 then p + nrows H else p in
  if (0 <=? k) && (k <? nrows H) then
    match nth_error (rows H) (Z.to_nat k) with
    | Some r => Ok r
    | None => Raise IndexError
    end
  else Raise IndexError.

(** [H[p,:] = r] *)
Definition setrow (H : matrix) (p : Z) (r : list D) : result matrix :=
  let k := if p <? 0 then p + nrows H else p in
  if (0 <=? k) && (k <? nrows H) then
    Ok (Matrix (ncols H) (replace_nth (Z.to_nat k) r (rows H)))
  else Raise IndexError.

(** [H[p,i]] *)
Definition getitem2 (H : matrix) (p i : Z) : result D :=
  r <- getrow H p ;; getitem r i.

Definition item2 (H : matrix) (p i : Z) : D :=
  item (nth (Z.to_nat p) (rows H) []) i.

(** Elementwise operations of numpy on arrays of one length. *)
Fixpoint zip_with (f : D -> D -> D) (a b : list D) : list D :=
  match a, b with
  | x :: a', y :: b' => f x y :: zip_with f a' b'
  | _, _ => []
  end.

(** [np.ones(n)], [np.zeros(n)] and the like *)
Definition full (n : Z) (v : D) : list D := repeat v (Z.to_nat n).

End Arrays.

Arguments matrix D : clear implicits.

(* ================================================================== *)
(** ** Ranges and loops *)

(** [range(a, b)] *)
Definition range_up (a b : Z) : list Z :=
  map (fun k => a + Z.of_nat k) (seq 0 (Z.to_nat (b - a))).

(** [range(a, b, -1)] *)
Definition range_down (a b : Z) : list Z :=
  map (fun k => a - Z.of_nat k) (seq 0 (Z.to_nat (a - b))).

(** [for v in rng: if test(v): break].  The loop variable keeps the value of
    the last iteration entered; [v] is its value before the loop. *)
Fixpoint for_break (rng : list Z) (test : Z -> result bool) (v : option Z)
  : result (option Z) :=
  match rng with
  | [] => Ok v
  | k :: rest =>
      b <- test k ;;
      if (b : bool) then Ok (Some k) else for_break rest test (Some k)
  end.

(** [for v in rng: s = body(v, s)] *)
Fixpoint for_each {S : Type} (rng : list Z) (body : Z -> S -> result S) (s : S)
  : result S :=
  match rng with
  | [] => Ok s
  | k :: rest => s' <- body k s ;; for_each rest body s'
  end.

(* ================================================================== *)
(** ** Boundary / control-point locators *)

Section Locators.
Context {D : Type} {A : Arith D}.
Local Open Scope dbl_scope.

(** Python's builtin [min]: the first smallest item, [ValueError] when empty. *)
Definition py_min (a : list D) : result D :=
  match a with
  | [] => Raise ValueError
  | x :: t => Ok (fold_left (fun m v => if v <? m then v else m) t x)
  end.

(** Python's builtin [max]. *)
Definition py_max (a : list D) : result D :=
  match a with
  | [] => Raise ValueError
  | x :: t => Ok (fold_left (fun m v => if v >? m then v else m) t x)
  end.

(** A keyword argument whose default [None] is replaced on entry. *)
Definition or_default (arg : option D) (dflt : result D) : result D :=
  match arg with
  | Some v => Ok v
  | None => dflt
  end.

(** [zana[i-1] < lo or zana[i-1] > zana[i] or gauss[i-1] < glo], evaluated
    left to right as Python's [or] does. *)
Definition stop_lower (zana gauss : list D) (lo glo : result D) (i : Z)
  : result bool :=
  a <- getitem zana (i - 1)%Z ;;
  l <- lo ;;
  if a <? l then Ok true else
  c <- getitem zana i ;;
  if a >? c then Ok true else
  g <- getitem gauss (i - 1)%Z ;;
  gl <- glo ;;
  Ok (g <? gl).

(** [zana[j+1] > hi or zana[j+1] < zana[j] or gauss[j+1] > ghi] *)
Definition stop_upper (zana gauss : list D) (hi ghi : result D) (j : Z)
  : result bool :=
  a <- getitem zana (j + 1)%Z ;;
  h <- hi ;;
  if a >? h then Ok true else
  c <- getitem zana j ;;
  if a <? c then Ok true else
  g <- getitem gauss (j + 1)%Z ;;
  gh <- ghi ;;
  Ok (g >? gh).

Definition calautorized (zana zraw gauss : list D) (zpmin zpmax : option D)
  : result (Z * Z * Z * Z) :=
  zpmin <- or_default zpmin (py_min zraw) ;;
  zpmax <- or_default zpmax (py_max zraw) ;;
  (* get index for zpmax *)
  jj <- for_break (range_down (len zraw - 1) 0)
          (fun jj => v <- getitem zraw jj ;; Ok (v <? zpmax)) None ;;
  (* get index for zpmin *)
  ii <- for_break (range_up 0 (len zraw - 1))
          (fun ii => v <- getitem zraw ii ;; Ok (v >? zpmin)) None ;;
  (* get index for minimum authorized *)
  i <- for_break (range_down (len zana / 2) 1)
         (stop_lower zana gauss
            (k <- read ii ;; getitem zraw k) (k <- read ii ;; getitem gauss k))
         None ;;
  (* get index for maximum authorized *)
  j <- for_break (range_up (len zana / 2) (len zana - 1))
         (stop_upper zana gauss
            (k <- read jj ;; getitem zraw k) (k <- read jj ;; getitem gauss k))
         None ;;
  i <- read i ;; j <- read j ;; ii <- read ii ;; jj <- read jj ;;
  Ok (i, j, ii, jj).

Definition calautorized_blk (zana gauss : list D) (zpmin zpmax : D)
  : result (Z * Z * Z * Z) :=
  (* get index for zpmax *)
  let jj := (len zana - 1)%Z in
  (* get index for zpmin *)
  let ii := 0%Z in
  (* get index for minimum authorized *)
  i <- for_break (range_down (len zana / 2) 1)
         (stop_lower zana gauss (Ok zpmin) (getitem gauss ii)) None ;;
  (* get index for maximum authorized *)
  j <- for_break (range_up (len zana / 2) (len zana - 1))
         (stop_upper zana gauss (Ok zpmax) (getitem gauss jj)) None ;;
  i <- read i ;; j <- read j ;;
  Ok (i, j, ii, jj).

Definition findcontrolpoints (zana zraw gauss : list D)
    (zpmin zpmax zamin zamax : D) : result (Z * Z * Z * Z) :=
  _ <- assert (zamax <? zamin) ;;
  _ <- assert (zpmax <? zpmin) ;;
  _ <- assert (zamax <=? zpmax) ;;
  _ <- assert (zamin >=? zpmin) ;;
  (* get index for zpmax *)
  jj <- for_break (range_down (len zraw - 1) 0)
          (fun jj => v <- getitem zraw jj ;; Ok (v <=? zpmax)) None ;;
  (* get index for zpmin *)
  ii <- for_break (range_up 0 (len zraw - 1))
          (fun ii => v <- getitem zraw ii ;; Ok (v >=? zpmin)) None ;;
  (* get index for zamin *)
  i <- for_break (range_down (len zana / 2) 1)
         (fun i => v <- getitem zana (i - 1)%Z ;; Ok (v <=? zamin)) None ;;
  (* get index for zamax *)
  j <- for_break (range_up (len zana / 2) (len zana - 1))
         (fun j => v <- getitem zana (j + 1)%Z ;; Ok (v >=? zamax)) None ;;
  i <- read i ;; j <- read j ;; ii <- read ii ;; jj <- read jj ;;
  zj <- getitem zana j ;; rjj <- getitem zraw jj ;;
  _ <- assert (zj <=? rjj) ;;
  zi <- getitem zana i ;; rii <- getitem zraw ii ;;
  _ <- assert (zi >=? rii) ;;
  gj <- getitem gauss j ;; gjj <- getitem gauss jj ;;
  _ <- assert (gj <=? gjj) ;;
  gi <- getitem gauss i ;; gii <- getitem gauss ii ;;
  _ <- assert (gi >=? gii) ;;
  Ok (i, j, ii, jj).

End Locators.

(* ================================================================== *)
(** ** Hermite recurrence, coefficient fit and expansion *)

Section Anamorphosis.
Context {D : Type} {A : Arith D}.
Local Open Scope dbl_scope.

(** The recurrent formula for normalized polynomials. *)
Definition recurrentH (y : list D) (K : Z) : result (matrix D) :=
  _ <- assert (1 <=? K)%Z ;;
  (* H = np.ones((K+1, len(y))) *)
  let H := Matrix (len y) (repeat (full (len y) #1) (Z.to_nat (K + 1))) in
  (* H[1,:] = -y *)
  H <- setrow H 1 (map dopp y) ;;
  (* H[k+1,:] = -1/np.sqrt(k+1)*y*H[k,:] - np.sqrt(k/float(k+1))*H[k-1,:] *)
  for_each (range_up 1 K)
    (fun k H =>
       Hk <- getrow H k ;;
       Hk1 <- getrow H (k - 1)%Z ;;
       setrow H (k + 1)%Z
         (zip_with dsub
            (zip_with dmul
               (map (fun v => #(-1) / dsqrt #(k + 1) * v) y) Hk)
            (map (fun h => dsqrt (#k / #(k + 1)) * h) Hk1)))
    H.

(** [np.sum(a)] and [np.mean(a)] *)
Definition np_sum (a : list D) : D := fold_left dadd a #0.
Definition np_mean (a : list D) : D := np_sum a / #(len a).

(** The density of the standard normal law, computed in single precision
    with the constant [3.1415926]. *)
Definition stnormpdf {E : Exponential D} (x : D) : D :=
  let x := dsingle x in
  let denom := dsingle (dsqrt (#2 * (#31415926 / #10000000))) in
  let num := dsingle (dexp (dsingle (- dsingle (x ** 2) / #2))) in
  dsingle (num / denom).

(** Fit of the Hermite coefficients (PCI). *)
Definition fit_PCI {E : Exponential D} (z y : list D) (H : matrix D)
    (meanz : D) : result (list D * list D) :=
  _ <- assert ((len y =? len z)%Z && (len z =? ncols H)%Z) ;;
  let n := nrows H in
  let m := ncols H in
  (* if no mean provided *)
  let meanz := if disnan meanz then np_mean z else meanz in
  let PCI := full n #0 in
  let g := full m #0 in
  PCI <- setitem PCI 0 (np_mean z) ;;
  for_each (range_up 1 n)
    (fun p st =>
       for_each (range_up 1 m)
         (fun i '(PCI, g) =>
            yi <- getitem y i ;;
            g <- setitem g i (stnormpdf yi) ;;
            c <- getitem PCI p ;;
            zl <- getitem z (i - 1)%Z ;;
            zi <- getitem z i ;;
            h <- getitem2 H (p - 1)%Z i ;;
            gi <- getitem g i ;;
            PCI <- setitem PCI p (c + (zl - zi) * #1 / dsqrt #p * h * gi) ;;
            Ok (PCI, g))
         st)
    (PCI, g).

(** Variance from the coefficients: [np.sum(PCI[1:]**2)]. *)
Definition var_PCI (PCI : list D) : D :=
  np_sum (map (fun c => c ** 2) (tl PCI)).

(** Expansion of the anamorphosis: [Z = sum_p PCI[p] * r^p * H_p(y)]. *)
Definition expand_anamor (PCI : list D) (H : matrix D) (r : D)
  : result (list D) :=
  (* Z = np.zeros(H.shape[1]); Z[:] = PCI[0] *)
  let Z := full (ncols H) #0 in
  c0 <- getitem PCI 0 ;;
  let Z := map (fun _ => c0) Z in
  (* Z += PCI[p]*H[p,:]*r**p *)
  for_each (range_up 1 (len PCI))
    (fun p Z =>
       c <- getitem PCI p ;;
       Hp <- getrow H p ;;
       Ok (zip_with dadd Z (map (fun h => c * h * r ** p) Hp)))
    Z.

(* ---------------------------------------------------------------- *)
(** *** [np.interp] *)

(** [for (i = 1; i < len && key >= arr[i]; ++i); return i - 1] *)
Fixpoint interp_segment (x : D) (rest : list D) (i : Z) : Z :=
  match rest with
  | [] => (i - 1)%Z
  | a :: t => if x >=? a then interp_segment x t (i + 1)%Z else (i - 1)%Z
  end.

Definition interp_index (x : D) (xp : list D) : Z :=
  if x >? item xp (len xp - 1) then len xp
  else if x <? item xp 0 then (-1)%Z
  else interp_segment x (tl xp) 1.

(** Modelled from the spec: [np.interp] is numpy's and is not in this
    repository.  It is the spec's two-point linear interpolation between
    anchors and its linear interpolation against the tabulated curve
    (section 4.5).  The cases the spec leaves open follow numpy's compiled
    routine: an empty [xp] or an [fp] of another length is a [ValueError]; a
    NaN abscissa is returned as it is; [x] beyond the last sample point gives
    [fp[-1]] and [x] before the first gives [fp[0]]; otherwise the segment
    [j] with [xp[j] <= x < xp[j+1]] is located ([xp] is taken to be
    increasing, as numpy documents) and the result is
    [(fp[j+1]-fp[j])/(xp[j+1]-xp[j]) * (x - xp[j]) + fp[j]]. *)
Definition np_interp (x : D) (xp fp : list D) : result D :=
  if (len xp =? 0)%Z then Raise ValueError
  else if negb (len fp =? len xp)%Z then Raise ValueError
  else if disnan x then Ok x
  else
    let j := interp_index x xp in
    if (j =? -1)%Z then Ok (item fp 0)
    else if (j =? len xp)%Z then Ok (item fp (len xp - 1))
    else if (j =? len xp - 1)%Z then Ok (item fp j)
    else
      let slope :=
        (item fp (j + 1) - item fp j) / (item xp (j + 1) - item xp j) in
      Ok (slope * (x - item xp j) + item fp j).

(* ---------------------------------------------------------------- *)
(** *** Gaussian to raw, raw to Gaussian *)

Definition Y2Z (y PCI : list D)
    (zamin yamin zpmin ypmin zpmax ypmax zamax yamax r : D)
  : result (list D) :=
  let zapmin := [zamin; zpmin] in
  let yapmin := [yamin; ypmin] in
  let zapmax := [zpmax; zamax] in
  let yapmax := [ypmax; yamax] in
  let K := (len PCI - 1)%Z in
  H <- recurrentH y K ;;
  Z <- expand_anamor PCI H r ;;
  (* fix some values based on the control points *)
  for_each (range_up 0 (len y))
    (fun i Z =>
       yi <- getitem y i ;;
       if yi <=? ypmin then
         v <- np_interp yi yapmin zapmin ;; setitem Z i v
       else if yi >=? ypmax then
         v <- np_interp yi yapmax zapmax ;; setitem Z i v
       else Ok Z)
    Z.

Definition Z2Y_linear (z zm ym : list D)
    (zamin yamin zpmin ypmin zpmax ypmax zamax yamax : D)
  : result (list D) :=
  let Y := full (len z) #0 in
  let zapmin := [zamin; zpmin] in
  let yapmin := [yamin; ypmin] in
  let zapmax := [zpmax; zamax] in
  let yapmax := [ypmax; yamax] in
  (* fix some values based on the control points *)
  for_each (range_up 0 (len z))
    (fun i Y =>
       zi <- getitem z i ;;
       if zi <=? zamin then setitem Y i yamin
       else if zi >=? zamax then setitem Y i yamax
       else if zi <=? zpmin then
         v <- np_interp zi zapmin yapmin ;; setitem Y i v
       else if zi >=? zpmax then
         v <- np_interp zi zapmax yapmax ;; setitem Y i v
       else if (zi <? zpmax) && (zi >? zpmin) then
         v <- np_interp zi zm ym ;; setitem Y i v
       else Ok Y)
    Y.

(* ---------------------------------------------------------------- *)
(** *** Support effect *)

(** The residual [sum_i PCI[i]^2 * r^(2i) - Var_Zv].  The accumulator [a] is
    declared [cdef float]: every update is rounded to single precision. *)
Definition f_var_Zv (r : D) (PCI : list D) (Var_Zv : D) : D :=
  let a := dsingle #0 in
  let a :=
    fold_left (fun a i => dsingle (a + item PCI i ** 2 * r ** (2 * i)))
      (range_up 1 (len PCI)) a in
  a - Var_Zv.

(** Modelled from the spec: [brentq(f, a, b)] is scipy's and is not in this
    repository.  The spec (section 4.6) describes it as bracketed
    root-finding that requires a sign change of the residual across the
    bracket and fails otherwise.  As in scipy, the call stops with
    [ValueError] when [f(a)] and [f(b)] have one strict sign, and an end of
    the bracket at which [f] vanishes is returned as it is.  The iteration
    on a bracket with a sign change is the parameter [brent_iterate]. *)
Definition brentq (brent_iterate : (D -> D) -> D -> D -> D)
    (f : D -> D) (a b : D) : result D :=
  let fa := f a in
  let fb := f b in
  if fa * fb >? #0 then Raise ValueError
  else if fa =? #0 then Ok a
  else if fb =? #0 then Ok b
  else Ok (brent_iterate f a b).

(** Support effect coefficient [r]. *)
Definition get_r (brent_iterate : (D -> D) -> D -> D -> D)
    (Var_Zv : D) (PCI : list D) : result D :=
  brentq brent_iterate (fun r => f_var_Zv r PCI Var_Zv) #0 #1.

(** The residual [sum_i PCI[i]^2 * r^i * s^i * ro^i - Covar_ZvZv], with the
    same [cdef float] accumulator as [f_var_Zv]. *)
Definition f_covar_ZvZv (ro s r : D) (PCI : list D) (Covar_ZvZv : D) : D :=
  let a := dsingle #0 in
  let a :=
    fold_left
      (fun a i => dsingle (a + item PCI i ** 2 * r ** i * s ** i * ro ** i))
      (range_up 1 (len PCI)) a in
  a - Covar_ZvZv.

(** Information effect coefficient [ro]:
    [brentq(f=f_covar_ZvZv, a=0, b=1, args=(s,r,PCI,Covar_ZvZv))]. *)
Definition get_ro (brent_iterate : (D -> D) -> D -> D -> D)
    (Covar_ZvZv : D) (PCI : list D) (r s : D) : result D :=
  brentq brent_iterate (fun ro => f_covar_ZvZv ro s r PCI Covar_ZvZv) #0 #1.

End Anamorphosis.

(* ================================================================== *)
(** * Vocabulary of the statements *)

(* ================================================================== *)
(** ** First-match scans *)

(** [k] is the index a scan from [hi] down to [lo] stops at: the first one at
    which [P] holds, or [lo], the last one visited, when [P] holds nowhere. *)
Definition first_down (hi lo : Z) (P : Z -> bool) (k : Z) : Prop :=
  lo <= k <= hi /\
  (forall m, k < m <= hi -> P m = false) /\
  (P k = true \/ k = lo).

(** The same for a scan from [lo] up to [hi]. *)
Definition first_up (lo hi : Z) (P : Z -> bool) (k : Z) : Prop :=
  lo <= k <= hi /\
  (forall m, lo <= m < k -> P m = false) /\
  (P k = true \/ k = hi).

(** The loop of [for_break] when its test cannot raise. *)
Fixpoint scan (rng : list Z) (P : Z -> bool) (v : option Z) : option Z :=
  match rng with
  | [] => v
  | k :: rest => if P k then Some k else scan rest P (Some k)
  end.

(* ================================================================== *)
(** ** Views of the loop bodies *)

(** The five rules of [Z2Y_linear], by the test that selects them. *)
Inductive region : Type :=
| ClampMin      (* z <= zamin *)
| ClampMax      (* z >= zamax *)
| LowerTail     (* z <= zpmin *)
| UpperTail     (* z >= zpmax *)
| Table.        (* zpmin < z < zpmax *)

Section Views.
Context {D : Type} {A : Arith D}.
Local Open Scope dbl_scope.

(** The four post-condition assertions of [findcontrolpoints]. *)
Definition ordered_control_points (zana zraw gauss : list D) (i j ii jj : Z)
  : bool :=
  (item zana j <=? item zraw jj) && (item zana i >=? item zraw ii)
  && (item gauss j <=? item gauss jj) && (item gauss i >=? item gauss ii).

(** Rows of a matrix. *)
Definition row (H : matrix D) (p : Z) : list D :=
  nth (Z.to_nat p) (rows H) [].

(** [for i in range(len(src)): x = src[i]; if f(x) gives a value: out[i] = it] *)
Definition rewrite_each (src : list D) (f : D -> result (option D))
    (out : list D) : result (list D) :=
  for_each (range_up 0 (len src))
    (fun i out =>
       x <- getitem src i ;;
       o <- f x ;;
       match o with
       | Some v => setitem out i v
       | None => Ok out
       end)
    out.

(** The first of the five tests of the loop body that holds for [zi], in the
    order of the source; [None] when none of them holds. *)
Definition Z2Y_region (zi zamin zpmin zpmax zamax : D) : option region :=
  if zi <=? zamin then Some ClampMin
  else if zi >=? zamax then Some ClampMax
  else if zi <=? zpmin then Some LowerTail
  else if zi >=? zpmax then Some UpperTail
  else if (zi <? zpmax) && (zi >? zpmin) then Some Table
  else None.

(** What the loop body writes to [Y[i]] for [zi = z[i]]. *)
Definition Z2Y_point (zm ym : list D)
    (zamin yamin zpmin ypmin zpmax ypmax zamax yamax zi : D)
  : result (option D) :=
  match Z2Y_region zi zamin zpmin zpmax zamax with
  | Some ClampMin => Ok (Some yamin)
  | Some ClampMax => Ok (Some yamax)
  | Some LowerTail =>
      v <- np_interp zi [zamin; zpmin] [yamin; ypmin] ;; Ok (Some v)
  | Some UpperTail =>
      v <- np_interp zi [zpmax; zamax] [ypmax; yamax] ;; Ok (Some v)
  | Some Table => v <- np_interp zi zm ym ;; Ok (Some v)
  | None => Ok None
  end.

(** What the loop body of [Y2Z] writes to [Z[i]] for [yi = y[i]]: the lower
    interpolation when [yi <= ypmin]; else the upper one when [yi >= ypmax];
    else nothing. *)
Definition Y2Z_point (zamin yamin zpmin ypmin zpmax ypmax zamax yamax yi : D)
  : result (option D) :=
  if yi <=? ypmin then
    v <- np_interp yi [yamin; ypmin] [zamin; zpmin] ;; Ok (Some v)
  else if yi >=? ypmax then
    v <- np_interp yi [ypmax; yamax] [zpmax; zamax] ;; Ok (Some v)
  else Ok None.

(** The recurrence of [recurrentH] on one Gaussian value [y]: the entries
    [H[0], H[1], H[2], ...] of its column, with the operations in the order
    of the source. *)
Fixpoint hermite (y : D) (k : nat) : D :=
  match k with
  | O => #1
  | S k' =>
      match k' with
      | O => - y
      | S k'' =>
          let m := Z.of_nat k' in
          #(-1) / dsqrt #(m + 1) * y * hermite y k'
          - dsqrt (#m / #(m + 1)) * hermite y k''
      end
  end.

(** One term of the sum that [fit_PCI] accumulates in [PCI[p]]. *)
Definition fit_term {E : Exponential D} (z y : list D) (H : matrix D)
    (p i : Z) : D :=
  (item z (i - 1) - item z i) * #1 / dsqrt #p * item2 H (p - 1) i
  * stnormpdf (item y i).

(** The sum that [fit_PCI] leaves in [PCI[p]], accumulated from [0.0] in the
    order of the loop. *)
Definition fit_sum {E : Exponential D} (z y : list D) (H : matrix D)
    (p m : Z) : D :=
  fold_left (fun c i => c + fit_term z y H p i) (range_up 1 m) #0.

End Views.

(** [x] and the bound [b] are comparable: [x <= b] holds exactly when
    [b < x] does not, and likewise with the two exchanged.  Every pair of
    real numbers is; a pair of doubles is unless one of them is NaN. *)
Definition decided {D : Type} {A : Arith D} (x b : D) : Prop :=
  (x <=? b)%D = negb (b <? x)%D /\ (b <=? x)%D = negb (x <? b)%D.

(* ================================================================== *)
(** ** Real-valued expressions *)

(** [sum_1_to K f] is [f 1 + ... + f K]. *)
Fixpoint sum_1_to (K : nat) (f : nat -> R) : R :=
  match K with
  | O => 0%R
  | S k => (sum_1_to k f + f (S k))%R
  end.

(** The right-hand side of the recurrence at column [n], row [k+1]. *)
Definition hermite_step (y : list R) (H : matrix R) (k n : Z) : R :=
  (- (1 / R_sqrt.sqrt (IZR (k + 1))) * item y n * item2 H k n
   - R_sqrt.sqrt (IZR k / IZR (k + 1)) * item2 H (k - 1) n)%R.

(** The Hermite polynomials [He_0 = 1], [He_1 = y],
    [He_(k+1) = y * He_k - k * He_(k-1)]. *)
Fixpoint He (y : R) (k : nat) : R :=
  match k with
  | O => 1%R
  | S k' =>
      match k' with
      | O => y
      | S k'' => (y * He y k' - INR k' * He y k'')%R
      end
  end.

(** Laws of the rounding to single precision: it keeps the order, and it is
    symmetric about zero.  Rounding to nearest has both. *)
Definition monotone_rounding (rnd : R -> R) : Prop :=
  forall x y : R, (x <= y)%R -> (rnd x <= rnd y)%R.


(** A rounding that is not the identity, for the examples: magnitudes below
    [1/2] underflow to zero, the other numbers are kept. *)
Definition flush (x : R) : R :=
  if Rltb (Rabs x) (1 / 2) then 0%R else x.

(** The value that the loops of [f_var_Zv] and [f_covar_ZvZv] leave in the
    [float] accumulator [a], for the terms [t 1, ..., t (n-1)]. *)
Definition accumulate (rnd : R -> R) (t : Z -> R) (n : Z) : R :=
  fold_left (fun a i => rnd (a + t i)%R) (range_up 1 n) (rnd 0%R).

(** The line through [(x0, y0)] and [(x1, y1)], evaluated at [x]. *)
Definition line (x0 y0 x1 y1 x : R) : R :=
  ((y1 - y0) / (x1 - x0) * (x - x0) + y0)%R.

(* ================================================================== *)
(** ** Sample tables *)

(** IEEE doubles. *)
Definition sample_zraw : list float := [1; 2; 3; 4; 5; 6; 7; 8]%float.
Definition sample_zana : list float := [0.5; 2.5; 2.75; 4; 5; 6.5; 7; 9]%float.
Definition sample_gauss : list float :=
  [-2; -1.5; -1; -0.5; 0.5; 1; 1.5; 2]%float.
Definition short_table : list float := [1; 2; 3]%float.
Definition flat_table : list float := [0; 0; 0; 0]%float.
Definition sample_z : list float := [0; 1.5; 3; 7.5; 9]%float.

(** Coefficients [[0, 1 + 2^-13]]: [PCI[1]^2 = 1 + 2^-12 + 2^-26] is a double
    and is not a single-precision number. *)
Definition block_PCI : list float := [0; 1.0001220703125]%float.

(** Real numbers. *)
Definition series_PCI : list R := [1; 2]%R.
Definition series_H : matrix R := Matrix 1 [[1]; [3]]%R.
Definition fit_z : list R := [1; 3]%R.
Definition fit_y : list R := [0; 0]%R.
Definition fit_H : matrix R := Matrix 2 [[1; 1]; [0; 0]]%R.
Definition flat_real : list R := [0; 0; 0; 0]%R.

(* ================================================================== *)
(** * Lemmas and theorems *)

(* ================================================================== *)
(** ** Ranges and scans *)

Lemma range_down_nil a b : a <= b -> range_down a b = [].
Proof.
  intros H. unfold range_down.
  replace (Z.to_nat (a - b)) with O by lia. reflexivity.
Qed.

Lemma range_up_nil a b : b <= a -> range_up a b = [].
Proof.
  intros H. unfold range_up.
  replace (Z.to_nat (b - a)) with O by lia. reflexivity.
Qed.

Lemma range_down_cons a b : b < a -> range_down a b = a :: range_down (a - 1) b.
Proof.
  intros H. unfold range_down.
  replace (Z.to_nat (a - b)) with (S (Z.to_nat (a - 1 - b))) by lia.
  cbn [seq map]. f_equal; [lia|].
  rewrite <- seq_shift, map_map. apply map_ext. intros k. lia.
Qed.

Lemma range_up_cons a b : a < b -> range_up a b = a :: range_up (a + 1) b.
Proof.
  intros H. unfold range_up.
  replace (Z.to_nat (b - a)) with (S (Z.to_nat (b - (a + 1)))) by lia.
  cbn [seq map]. f_equal; [lia|].
  rewrite <- seq_shift, map_map. apply map_ext. intros k. lia.
Qed.

Lemma in_range_down a b k : In k (range_down a b) <-> b < k <= a.
Proof.
  unfold range_down. rewrite in_map_iff. split.
  - intros (n & <- & Hn). apply in_seq in Hn. lia.
  - intros Hk. exists (Z.to_nat (a - k)). split; [lia|]. apply in_seq. lia.
Qed.

Lemma in_range_up a b k : In k (range_up a b) <-> a <= k < b.
Proof.
  unfold range_up. rewrite in_map_iff. split.
  - intros (n & <- & Hn). apply in_seq in Hn. lia.
  - intros Hk. exists (Z.to_nat (k - a)). split; [lia|]. apply in_seq. lia.
Qed.

Lemma for_break_scan rng test P v :
  (forall k, In k rng -> test k = Ok (P k)) ->
  for_break rng test v = Ok (scan rng P v).
Proof.
  revert v. induction rng as [|k rest IH]; intros v Ht; cbn [for_break scan].
  - reflexivity.
  - rewrite (Ht k (or_introl eq_refl)). cbn [bind].
    destruct (P k); [reflexivity|].
    apply IH. intros m Hm. apply Ht. now right.
Qed.

Lemma scan_down_first n : forall hi lo P v,
  Z.to_nat (hi - lo) = n -> lo <= hi ->
  exists k, scan (range_down hi (lo - 1)) P v = Some k /\ first_down hi lo P k.
Proof.
  induction n as [|n IH]; intros hi lo P v Hn Hle;
    rewrite range_down_cons by lia; cbn [scan];
    destruct (P hi) eqn:Ehi.
  - exists hi. split; [reflexivity|]. repeat split; lia.
  - assert (hi = lo) by lia. subst hi.
    rewrite range_down_nil by lia. exists lo. split; [reflexivity|].
    repeat split; lia.
  - exists hi. split; [reflexivity|]. repeat split; try lia. now left.
  - destruct (IH (hi - 1) lo P (Some hi)) as (k & Hk & Hr & Hb & Hs); try lia.
    exists k. split; [exact Hk|]. repeat split; try lia; [|exact Hs].
    intros m Hm. destruct (Z.eq_dec m hi) as [->|]; [exact Ehi|].
    apply Hb. lia.
Qed.

Lemma scan_up_first n : forall lo hi P v,
  Z.to_nat (hi - lo) = n -> lo <= hi ->
  exists k, scan (range_up lo (hi + 1)) P v = Some k /\ first_up lo hi P k.
Proof.
  induction n as [|n IH]; intros lo hi P v Hn Hle;
    rewrite range_up_cons by lia; cbn [scan];
    destruct (P lo) eqn:Elo.
  - exists lo. split; [reflexivity|]. repeat split; lia.
  - assert (hi = lo) by lia. subst hi.
    rewrite range_up_nil by lia. exists lo. split; [reflexivity|].
    repeat split; lia.
  - exists lo. split; [reflexivity|]. repeat split; try lia. now left.
  - destruct (IH (lo + 1) hi P (Some lo)) as (k & Hk & Hr & Hb & Hs); try lia.
    exists k. split; [exact Hk|]. repeat split; try lia; [|exact Hs].
    intros m Hm. destruct (Z.eq_dec m lo) as [->|]; [exact Elo|].
    apply Hb. lia.
Qed.

(** A [for ... break] loop over [hi, hi-1, ..., lo] whose test does not raise
    on these indices leaves its variable at the first match. *)
Lemma for_break_down hi lo test P v :
  lo <= hi ->
  (forall k, lo <= k <= hi -> test k = Ok (P k)) ->
  exists k, for_break (range_down hi (lo - 1)) test v = Ok (Some k) /\
            first_down hi lo P k.
Proof.
  intros Hle Ht.
  destruct (@scan_down_first (Z.to_nat (hi - lo)) hi lo P v eq_refl Hle)
    as (k & Hk & Hf).
  exists k. split; [|exact Hf].
  rewrite (@for_break_scan _ test P), Hk; [reflexivity|].
  intros m Hm. apply in_range_down in Hm. apply Ht. lia.
Qed.

Lemma for_break_up lo hi test P v :
  lo <= hi ->
  (forall k, lo <= k <= hi -> test k = Ok (P k)) ->
  exists k, for_break (range_up lo (hi + 1)) test v = Ok (Some k) /\
            first_up lo hi P k.
Proof.
  intros Hle Ht.
  destruct (@scan_up_first (Z.to_nat (hi - lo)) lo hi P v eq_refl Hle)
    as (k & Hk & Hf).
  exists k. split; [|exact Hf].
  rewrite (@for_break_scan _ test P), Hk; [reflexivity|].
  intros m Hm. apply in_range_up in Hm. apply Ht. lia.
Qed.

(** Over an empty range the loop variable is left as it was. *)
Lemma for_break_empty test v : for_break [] test v = Ok v.
Proof. reflexivity. Qed.

(* ================================================================== *)
(** ** Array accesses inside the bounds *)

Section ArrayFacts.
Context {D : Type} {A : Arith D}.

Lemma len_nonneg (a : list D) : 0 <= len a.
Proof. unfold len. lia. Qed.

Lemma getitem_item (a : list D) i :
  0 <= i < len a -> getitem a i = Ok (item a i).
Proof.
  intros Hi. unfold getitem, item.
  replace (i <? 0) with false by lia.
  replace ((0 <=? i) && (i <? len a)) with true
    by (symmetry; apply andb_true_intro; split; lia).
  unfold len in Hi.
  rewrite (nth_error_nth' a (#0)%D) by lia. reflexivity.
Qed.

Lemma getitem_Ok (a : list D) i v :
  getitem a i = Ok v -> - len a <= i < len a.
Proof.
  unfold getitem. destruct (i <? 0) eqn:Ei;
    destruct ((0 <=? _) && (_ <? len a)) eqn:Eb; try discriminate;
    apply andb_prop in Eb; lia.
Qed.

Lemma length_replace_nth (X : Type) n (v : X) l :
  length (replace_nth n v l) = length l.
Proof.
  revert n. induction l as [|x t IH]; intros [|n]; cbn; auto.
Qed.

Lemma nth_replace_nth_eq (X : Type) n (v d : X) l :
  (n < length l)%nat -> nth n (replace_nth n v l) d = v.
Proof.
  revert n. induction l as [|x t IH]; intros [|n] Hn; cbn in *; try lia; auto.
  apply IH. lia.
Qed.

Lemma nth_replace_nth_neq (X : Type) n m (v d : X) l :
  n <> m -> nth m (replace_nth n v l) d = nth m l d.
Proof.
  revert n m. induction l as [|x t IH]; intros [|n] [|m] Hn; cbn;
    try reflexivity; try congruence.
  apply IH. congruence.
Qed.

Lemma setitem_Ok (a : list D) i v :
  0 <= i < len a ->
  setitem a i v = Ok (replace_nth (Z.to_nat i) v a).
Proof.
  intros Hi. unfold setitem.
  replace (i <? 0) with false by lia.
  replace ((0 <=? i) && (i <? len a)) with true
    by (symmetry; apply andb_true_intro; split; lia).
  reflexivity.
Qed.

Lemma len_replace_nth (a : list D) n v : len (replace_nth n v a) = len a.
Proof. unfold len. now rewrite length_replace_nth. Qed.

Lemma item_replace_same (a : list D) i v :
  0 <= i < len a -> item (replace_nth (Z.to_nat i) v a) i = v.
Proof.
  intros Hi. unfold item. apply nth_replace_nth_eq. unfold len in Hi. lia.
Qed.

Lemma item_replace_other (a : list D) i k v :
  0 <= i -> 0 <= k -> i <> k ->
  item (replace_nth (Z.to_nat i) v a) k = item a k.
Proof.
  intros Hi Hk Hne. unfold item. apply nth_replace_nth_neq. lia.
Qed.

Local Open Scope dbl_scope.

Lemma stop_lower_ok (zana gauss : list D) l gl k :
  (1 <= k < len zana)%Z -> (k <= len gauss)%Z ->
  stop_lower zana gauss (Ok l) (Ok gl) k =
  Ok ((item zana (k - 1) <? l) || (item zana (k - 1) >? item zana k)
      || (item gauss (k - 1) <? gl)).
Proof.
  intros Hz Hg. unfold stop_lower.
  rewrite !getitem_item by lia. cbn [bind].
  destruct (item zana (k - 1) <? l); [reflexivity|].
  destruct (item zana k <? item zana (k - 1)); reflexivity.
Qed.

Lemma stop_upper_ok (zana gauss : list D) h gh k :
  (0 <= k < len zana - 1)%Z -> (k < len gauss - 1)%Z ->
  stop_upper zana gauss (Ok h) (Ok gh) k =
  Ok ((item zana (k + 1) >? h) || (item zana (k + 1) <? item zana k)
      || (item gauss (k + 1) >? gh)).
Proof.
  intros Hz Hg. unfold stop_upper.
  rewrite !getitem_item by lia. cbn [bind].
  destruct (h <? item zana (k + 1)); [reflexivity|].
  destruct (item zana (k + 1) <? item zana k); reflexivity.
Qed.

Lemma py_min_nonempty (a : list D) : (0 < len a)%Z -> exists v, py_min a = Ok v.
Proof. destruct a; cbn; [lia|]. eauto. Qed.

Lemma py_max_nonempty (a : list D) : (0 < len a)%Z -> exists v, py_max a = Ok v.
Proof. destruct a; cbn; [lia|]. eauto. Qed.

Lemma or_default_nonempty (arg : option D) (a : list D) f :
  (forall l : list D, (0 < len l)%Z -> exists v, f l = Ok v) ->
  (0 < len a)%Z -> exists v, or_default arg (f a) = Ok v.
Proof. intros Hf Ha. destruct arg; cbn; eauto. Qed.

End ArrayFacts.

(* ================================================================== *)
(** ** The scans of [calautorized] and [calautorized_blk] *)

Section LocatorFacts.
Context {D : Type} {A : Arith D}.
Local Open Scope dbl_scope.

(** With at least four points per array every loop of [calautorized] runs at
    least once, no access leaves its array, and the four indices are the
    first matches of the four scans. *)
Lemma calautorized_run (zana zraw gauss : list D) zpmin zpmax N :
  len zana = N -> len zraw = N -> len gauss = N -> (4 <= N)%Z ->
  exists lo hi i j ii jj,
    or_default zpmin (py_min zraw) = Ok lo /\
    or_default zpmax (py_max zraw) = Ok hi /\
    calautorized zana zraw gauss zpmin zpmax = Ok (i, j, ii, jj) /\
    first_down (N - 1) 1 (fun k => item zraw k <? hi) jj /\
    first_up 0 (N - 2) (fun k => item zraw k >? lo) ii /\
    first_down (N / 2) 2
      (fun k => (item zana (k - 1) <? item zraw ii)
                || (item zana (k - 1) >? item zana k)
                || (item gauss (k - 1) <? item gauss ii)) i /\
    first_up (N / 2) (N - 2)
      (fun k => (item zana (k + 1) >? item zraw jj)
                || (item zana (k + 1) <? item zana k)
                || (item gauss (k + 1) >? item gauss jj)) j.
Proof.
  intros Ha Hr Hg HN.
  assert (Hhalf : (2 <= N / 2 <= N - 2)%Z).
  { split; [apply Z.div_le_lower_bound; lia|].
    apply Z.lt_succ_r. apply Z.div_lt_upper_bound; lia. }
  destruct (@or_default_nonempty D zpmin zraw py_min py_min_nonempty)
    as [lo Hlo]; [lia|].
  destruct (@or_default_nonempty D zpmax zraw py_max py_max_nonempty)
    as [hi Hhi]; [lia|].
  destruct (@for_break_down (N - 1) 1
              (fun jj => v <- getitem zraw jj ;; Ok (v <? hi))
              (fun k => item zraw k <? hi) None) as (jj & Hjj & Fjj); [lia| |].
  { intros k Hk. now rewrite getitem_item by lia. }
  destruct (@for_break_up 0 (N - 2)
              (fun ii => v <- getitem zraw ii ;; Ok (v >? lo))
              (fun k => item zraw k >? lo) None) as (ii & Hii & Fii); [lia| |].
  { intros k Hk. now rewrite getitem_item by lia. }
  destruct (@for_break_down (N / 2) 2
              (stop_lower zana gauss (Ok (item zraw ii)) (Ok (item gauss ii)))
              (fun k => (item zana (k - 1) <? item zraw ii)
                        || (item zana (k - 1) >? item zana k)
                        || (item gauss (k - 1) <? item gauss ii)) None)
    as (i & Hi & Fi); [lia| |].
  { intros k Hk. apply stop_lower_ok; lia. }
  destruct (@for_break_up (N / 2) (N - 2)
              (stop_upper zana gauss (Ok (item zraw jj)) (Ok (item gauss jj)))
              (fun k => (item zana (k + 1) >? item zraw jj)
                        || (item zana (k + 1) <? item zana k)
                        || (item gauss (k + 1) >? item gauss jj)) None)
    as (j & Hj & Fj); [lia| |].
  { intros k Hk. apply stop_upper_ok; lia. }
  exists lo, hi, i, j, ii, jj.
  repeat (split; [assumption|]). split; [|auto].
  unfold calautorized. rewrite Hlo, Hhi, Ha, Hr. cbn [bind].
  change (1 - 1)%Z with 0%Z in Hjj. rewrite Hjj. cbn [bind].
  replace (N - 2 + 1)%Z with (N - 1)%Z in Hii, Hj by lia.
  rewrite Hii. cbn [bind read].
  destruct Fii as (Bii & _), Fjj as (Bjj & _).
  rewrite (getitem_item zraw ii), (getitem_item gauss ii) by lia.
  change (2 - 1)%Z with 1%Z in Hi. rewrite Hi. cbn [bind].
  rewrite (getitem_item zraw jj), (getitem_item gauss jj) by lia.
  rewrite Hj. reflexivity.
Qed.

(** With fewer than four points the scan for [i] visits no index, and the
    C variable is returned without ever having been assigned. *)
Lemma calautorized_short (zana zraw gauss : list D) zpmin zpmax r :
  (len zana < 4)%Z -> calautorized zana zraw gauss zpmin zpmax <> Ok r.
Proof.
  intros HN. unfold calautorized.
  rewrite (@range_down_nil (len zana / 2) 1)
    by (apply Z.lt_succ_r; apply Z.div_lt_upper_bound; lia).
  cbn [for_break bind].
  destruct (or_default zpmin _); cbn [bind]; [|discriminate].
  destruct (or_default zpmax _); cbn [bind]; [|discriminate].
  destruct (for_break (range_down _ _) _ _); cbn [bind]; [|discriminate].
  destruct (for_break (range_up 0 _) _ _); cbn [bind]; [|discriminate].
  destruct (for_break (range_up _ _) _ _); cbn [bind read]; discriminate.
Qed.

Lemma calautorized_blk_run (zana gauss : list D) zpmin zpmax N :
  len zana = N -> len gauss = N -> (4 <= N)%Z ->
  exists i j,
    calautorized_blk zana gauss zpmin zpmax = Ok (i, j, 0%Z, (N - 1)%Z) /\
    first_down (N / 2) 2
      (fun k => (item zana (k - 1) <? zpmin)
                || (item zana (k - 1) >? item zana k)
                || (item gauss (k - 1) <? item gauss 0)) i /\
    first_up (N / 2) (N - 2)
      (fun k => (item zana (k + 1) >? zpmax)
                || (item zana (k + 1) <? item zana k)
                || (item gauss (k + 1) >? item gauss (N - 1))) j.
Proof.
  intros Ha Hg HN.
  assert (Hhalf : (2 <= N / 2 <= N - 2)%Z).
  { split; [apply Z.div_le_lower_bound; lia|].
    apply Z.lt_succ_r. apply Z.div_lt_upper_bound; lia. }
  destruct (@for_break_down (N / 2) 2
              (stop_lower zana gauss (Ok zpmin) (Ok (item gauss 0)))
              (fun k => (item zana (k - 1) <? zpmin)
                        || (item zana (k - 1) >? item zana k)
                        || (item gauss (k - 1) <? item gauss 0)) None)
    as (i & Hi & Fi); [lia| |].
  { intros k Hk. apply stop_lower_ok; lia. }
  destruct (@for_break_up (N / 2) (N - 2)
              (stop_upper zana gauss (Ok zpmax) (Ok (item gauss (N - 1))))
              (fun k => (item zana (k + 1) >? zpmax)
                        || (item zana (k + 1) <? item zana k)
                        || (item gauss (k + 1) >? item gauss (N - 1))) None)
    as (j & Hj & Fj); [lia| |].
  { intros k Hk. apply stop_upper_ok; lia. }
  exists i, j. split; [|auto].
  unfold calautorized_blk. rewrite Ha.
  rewrite (getitem_item gauss 0), (getitem_item gauss (N - 1)) by lia.
  change (2 - 1)%Z with 1%Z in Hi. rewrite Hi. cbn [bind].
  replace (N - 2 + 1)%Z with (N - 1)%Z in Hj by lia.
  rewrite Hj. reflexivity.
Qed.

End LocatorFacts.

(* ================================================================== *)
(** ** Theorems on [calautorized] and [calautorized_blk] *)

(** C1, as amended.  For arrays of one length [N >= 4], [calautorized]
    returns, and the indices it returns are the results of four first-match
    linear scans, with [zpmin]/[zpmax] replaced by [min(zraw)]/[max(zraw)]
    when omitted: [jj] scans [N-1 .. 1] for [zraw[jj] < zpmax]; [ii] scans
    [0 .. N-2] for [zraw[ii] > zpmin]; [i] scans [N/2 .. 2] for
    [zana[i-1] < zraw[ii] or zana[i-1] > zana[i] or gauss[i-1] < gauss[ii]];
    [j] scans [N/2 .. N-2] for
    [zana[j+1] > zraw[jj] or zana[j+1] < zana[j] or gauss[j+1] > gauss[jj]].
    Each scan stops at its first match and otherwise ends on the last index
    it visits.  This holds in every arithmetic of doubles. *)
Theorem calautorized_first_match_scans :
  forall (D : Type) (A : Arith D) (zana zraw gauss : list D)
         (zpmin zpmax : option D) (N : Z),
    len zana = N -> len zraw = N -> len gauss = N -> 4 <= N ->
    exists lo hi i j ii jj,
      or_default zpmin (py_min zraw) = Ok lo /\
      or_default zpmax (py_max zraw) = Ok hi /\
      calautorized zana zraw gauss zpmin zpmax = Ok (i, j, ii, jj) /\
      first_down (N - 1) 1 (fun k => item zraw k <? hi)%D jj /\
      first_up 0 (N - 2) (fun k => item zraw k >? lo)%D ii /\
      first_down (N / 2) 2
        (fun k => (item zana (k - 1) <? item zraw ii)
                  || (item zana (k - 1) >? item zana k)
                  || (item gauss (k - 1) <? item gauss ii))%D i /\
      first_up (N / 2) (N - 2)
        (fun k => (item zana (k + 1) >? item zraw jj)
                  || (item zana (k + 1) <? item zana k)
                  || (item gauss (k + 1) >? item gauss jj))%D j.
Proof.
  intros D A zana zraw gauss zpmin zpmax N Ha Hr Hg HN.
  now apply calautorized_run.
Qed.

Lemma calautorized_first_match_scans_witness :
  len sample_zana = 8 /\ len sample_zraw = 8 /\ len sample_gauss = 8 /\
  exists r, calautorized sample_zana sample_zraw sample_gauss None None = Ok r.
Proof.
  repeat split.
  destruct (calautorized_first_match_scans float binary64
              sample_zana sample_zraw sample_gauss None None 8
              eq_refl eq_refl eq_refl ltac:(discriminate))
    as (lo & hi & i & j & ii & jj & _ & _ & Hrun & _).
  now exists (i, j, ii, jj).
Defined.

(** C1 as stated fails on tables of fewer than four points.  With [N = 3]
    the scan for [i] runs over [range(1, 1, -1)]: it visits no index, so no
    index is [the first match or the last one visited], and the function
    reaches its [return] with the C variable [i] never assigned. *)
Lemma calautorized_short_table_counterexample :
  len short_table = 3 /\
  range_down (len short_table / 2) 1 = [] /\
  (forall (P : Z -> bool) (i : Z), ~ first_down (3 / 2) 2 P i) /\
  calautorized short_table short_table short_table None None
  = Raise Uninitialized.
Proof.
  split; [reflexivity|]. split; [reflexivity|]. split.
  - intros P i (Hi & _). cbn in Hi. lia.
  - vm_compute. reflexivity.
Qed.

(** C10.  With [N >= 4] points per array, [calautorized] and
    [calautorized_blk] return indices with [2 <= i <= N/2 <= j <= N-2]; for
    [calautorized] moreover [0 <= ii <= N-2] and [1 <= jj <= N-1], whatever
    the arrays hold. *)
Theorem calautorized_index_bounds :
  forall (D : Type) (A : Arith D) (zana zraw gauss : list D)
         (zpmin zpmax : option D) (bmin bmax : D) (N : Z),
    len zana = N -> len zraw = N -> len gauss = N -> 4 <= N ->
    (exists i j ii jj,
        calautorized zana zraw gauss zpmin zpmax = Ok (i, j, ii, jj) /\
        2 <= i <= N / 2 /\ N / 2 <= j <= N - 2 /\
        0 <= ii <= N - 2 /\ 1 <= jj <= N - 1) /\
    (exists i j ii jj,
        calautorized_blk zana gauss bmin bmax = Ok (i, j, ii, jj) /\
        2 <= i <= N / 2 /\ N / 2 <= j <= N - 2).
Proof.
  intros D A zana zraw gauss zpmin zpmax bmin bmax N Ha Hr Hg HN. split.
  - destruct (calautorized_run zana zraw gauss zpmin zpmax N Ha Hr Hg HN)
      as (lo & hi & i & j & ii & jj & _ & _ & Hrun
          & (Bjj & _) & (Bii & _) & (Bi & _) & (Bj & _)).
    exists i, j, ii, jj. repeat split; solve [assumption | lia].
  - destruct (calautorized_blk_run zana gauss bmin bmax N Ha Hg HN)
      as (i & j & Hrun & (Bi & _) & (Bj & _)).
    exists i, j, 0, (N - 1). repeat split; solve [assumption | lia].
Qed.

Lemma calautorized_index_bounds_witness :
  (exists i j ii jj,
      calautorized sample_zana sample_zraw sample_gauss None None
      = Ok (i, j, ii, jj) /\
      2 <= i <= 8 / 2 /\ 8 / 2 <= j <= 8 - 2 /\
      0 <= ii <= 8 - 2 /\ 1 <= jj <= 8 - 1) /\
  (exists i j ii jj,
      calautorized_blk sample_zana sample_gauss 2.5%float 6.5%float
      = Ok (i, j, ii, jj) /\
      2 <= i <= 8 / 2 /\ 8 / 2 <= j <= 8 - 2).
Proof.
  apply (calautorized_index_bounds float binary64 sample_zana sample_zraw
           sample_gauss None None 2.5%float 6.5%float 8
           eq_refl eq_refl eq_refl).
  discriminate.
Defined.

(** The sample tables, evaluated. *)
Example calautorized_sample :
  calautorized sample_zana sample_zraw sample_gauss None None
  = Ok (2, 6, 1, 6) /\
  calautorized sample_zana sample_zraw sample_gauss
    (Some 2.5%float) (Some 6.5%float) = Ok (3, 4, 2, 5) /\
  calautorized_blk sample_zana sample_gauss 2.5%float 6.5%float
  = Ok (2, 5, 0, 7).
Proof. repeat split; vm_compute; reflexivity. Qed.

(* ================================================================== *)
(** ** Reading a successful run backwards *)

Lemma bind_Ok_inv {X Y : Type} (m : result X) (k : X -> result Y) (r : Y) :
  bind m k = Ok r -> exists a, m = Ok a /\ k a = Ok r.
Proof. destruct m as [a|e]; cbn; [eauto | discriminate]. Qed.

Lemma assert_Ok_inv (b : bool) (u : unit) : assert b = Ok u -> b = true.
Proof. destruct b; [reflexivity | discriminate]. Qed.

Lemma read_Ok_inv (v : option Z) (k : Z) : read v = Ok k -> v = Some k.
Proof. destruct v; cbn; congruence. Qed.

Ltac inv_bind H :=
  let a := fresh "a" in
  let E := fresh "E" in
  apply bind_Ok_inv in H; destruct H as (a & E & H).

Lemma for_break_in rng test v k :
  for_break rng test v = Ok (Some k) -> v = Some k \/ In k rng.
Proof.
  revert v. induction rng as [|m rest IH]; intros v H; cbn in H.
  - left. congruence.
  - right. inv_bind H. destruct a.
    + left. congruence.
    + destruct (IH _ H) as [Hv|Hin]; [left; congruence | now right].
Qed.

Lemma for_break_None_in rng test k :
  for_break rng test None = Ok (Some k) -> In k rng.
Proof.
  intros H. destruct (for_break_in _ _ _ _ H) as [Hv|Hin];
    [discriminate | assumption].
Qed.

Section FindControlPoints.
Context {D : Type} {A : Arith D}.
Local Open Scope dbl_scope.

Lemma getitem_Ok_item (a : list D) i v :
  (0 <= i)%Z -> getitem a i = Ok v -> v = item a i.
Proof.
  intros Hi H. pose proof (getitem_Ok _ _ _ H) as Hb.
  rewrite getitem_item in H by lia. congruence.
Qed.

Lemma findcontrolpoints_rejects (zana zraw gauss : list D)
    zpmin zpmax zamin zamax :
  (zamax <? zamin) = false \/ (zpmax <? zpmin) = false \/
  (zamax <=? zpmax) = false \/ (zamin >=? zpmin) = false ->
  findcontrolpoints zana zraw gauss zpmin zpmax zamin zamax
  = Raise AssertionError.
Proof.
  intros H. unfold findcontrolpoints.
  destruct (zamax <? zamin); cbn [assert bind]; [|reflexivity].
  destruct (zpmax <? zpmin); cbn [assert bind]; [|reflexivity].
  destruct (zamax <=? zpmax); cbn [assert bind]; [|reflexivity].
  destruct (zpmin <=? zamin); cbn [assert bind]; [|reflexivity].
  intuition discriminate.
Qed.

Lemma findcontrolpoints_returns (zana zraw gauss : list D)
    zpmin zpmax zamin zamax i j ii jj :
  findcontrolpoints zana zraw gauss zpmin zpmax zamin zamax
  = Ok (i, j, ii, jj) ->
  ((zamax <? zamin) = true /\ (zpmax <? zpmin) = true /\
   (zamax <=? zpmax) = true /\ (zamin >=? zpmin) = true) /\
  ((item zana j <=? item zraw jj) = true /\
   (item zana i >=? item zraw ii) = true /\
   (item gauss j <=? item gauss jj) = true /\
   (item gauss i >=? item gauss ii) = true).
Proof.
  intros H. unfold findcontrolpoints in H.
  inv_bind H. apply assert_Ok_inv in E.
  inv_bind H. apply assert_Ok_inv in E0.
  inv_bind H. apply assert_Ok_inv in E1.
  inv_bind H. apply assert_Ok_inv in E2.
  inv_bind H. rename a3 into vjj, E3 into Ljj.
  inv_bind H. rename a3 into vii, E3 into Lii.
  inv_bind H. rename a3 into vi, E3 into Li.
  inv_bind H. rename a3 into vj, E3 into Lj.
  inv_bind H. apply read_Ok_inv in E3. subst vi.
  inv_bind H. apply read_Ok_inv in E3. subst vj.
  inv_bind H. apply read_Ok_inv in E3. subst vii.
  inv_bind H. apply read_Ok_inv in E3. subst vjj.
  apply for_break_None_in, in_range_down in Ljj.
  apply for_break_None_in, in_range_up in Lii.
  apply for_break_None_in, in_range_down in Li.
  apply for_break_None_in, in_range_up in Lj.
  inv_bind H. apply getitem_Ok_item in E3; [|lia].
  inv_bind H. apply getitem_Ok_item in E4; [|lia].
  inv_bind H. apply assert_Ok_inv in E5.
  inv_bind H. apply getitem_Ok_item in E6; [|lia].
  inv_bind H. apply getitem_Ok_item in E7; [|lia].
  inv_bind H. apply assert_Ok_inv in E8.
  inv_bind H. apply getitem_Ok_item in E9; [|lia].
  inv_bind H. apply getitem_Ok_item in E10; [|lia].
  inv_bind H. apply assert_Ok_inv in E11.
  inv_bind H. apply getitem_Ok_item in E12; [|lia].
  inv_bind H. apply getitem_Ok_item in E13; [|lia].
  inv_bind H. apply assert_Ok_inv in E14.
  injection H as -> -> -> ->. subst.
  repeat split; assumption.
Qed.

Lemma findcontrolpoints_run (zana zraw gauss : list D)
    zpmin zpmax zamin zamax N :
  len zana = N -> len zraw = N -> len gauss = N -> (4 <= N)%Z ->
  (zamax <? zamin) = true -> (zpmax <? zpmin) = true ->
  (zamax <=? zpmax) = true -> (zamin >=? zpmin) = true ->
  exists i j ii jj,
    first_down (N - 1) 1 (fun k => item zraw k <=? zpmax) jj /\
    first_up 0 (N - 2) (fun k => item zraw k >=? zpmin) ii /\
    first_down (N / 2) 2 (fun k => item zana (k - 1) <=? zamin) i /\
    first_up (N / 2) (N - 2) (fun k => item zana (k + 1) >=? zamax) j /\
    findcontrolpoints zana zraw gauss zpmin zpmax zamin zamax
    = if ordered_control_points zana zraw gauss i j ii jj
      then Ok (i, j, ii, jj) else Raise AssertionError.
Proof.
  intros Ha Hr Hg HN P1 P2 P3 P4.
  assert (Hhalf : (2 <= N / 2 <= N - 2)%Z).
  { split; [apply Z.div_le_lower_bound; lia|].
    apply Z.lt_succ_r. apply Z.div_lt_upper_bound; lia. }
  destruct (@for_break_down (N - 1) 1
              (fun jj => v <- getitem zraw jj ;; Ok (v <=? zpmax))
              (fun k => item zraw k <=? zpmax) None) as (jj & Hjj & Fjj);
    [lia| |].
  { intros k Hk. now rewrite getitem_item by lia. }
  destruct (@for_break_up 0 (N - 2)
              (fun ii => v <- getitem zraw ii ;; Ok (v >=? zpmin))
              (fun k => item zraw k >=? zpmin) None) as (ii & Hii & Fii);
    [lia| |].
  { intros k Hk. now rewrite getitem_item by lia. }
  destruct (@for_break_down (N / 2) 2
              (fun i => v <- getitem zana (i - 1)%Z ;; Ok (v <=? zamin))
              (fun k => item zana (k - 1) <=? zamin) None)
    as (i & Hi & Fi); [lia| |].
  { intros k Hk. now rewrite getitem_item by lia. }
  destruct (@for_break_up (N / 2) (N - 2)
              (fun j => v <- getitem zana (j + 1)%Z ;; Ok (v >=? zamax))
              (fun k => item zana (k + 1) >=? zamax) None)
    as (j & Hj & Fj); [lia| |].
  { intros k Hk. now rewrite getitem_item by lia. }
  exists i, j, ii, jj. repeat (split; [assumption|]).
  unfold findcontrolpoints. rewrite P1, P2, P3, P4, Ha, Hr.
  cbn [assert bind].
  change (1 - 1)%Z with 0%Z in Hjj. rewrite Hjj. cbn [bind].
  replace (N - 2 + 1)%Z with (N - 1)%Z in Hii, Hj by lia.
  rewrite Hii. cbn [bind].
  change (2 - 1)%Z with 1%Z in Hi. rewrite Hi. cbn [bind].
  rewrite Hj. cbn [bind read].
  destruct Fii as (Bii & _), Fjj as (Bjj & _), Fi as (Bi & _), Fj as (Bj & _).
  rewrite !getitem_item by lia. cbn [bind].
  unfold ordered_control_points.
  destruct (item zana j <=? item zraw jj); cbn [assert bind andb];
    [|reflexivity].
  destruct (item zraw ii <=? item zana i); cbn [assert bind andb];
    [|reflexivity].
  destruct (item gauss j <=? item gauss jj); cbn [assert bind andb];
    [|reflexivity].
  destruct (item gauss ii <=? item gauss i); reflexivity.
Qed.

End FindControlPoints.

(* ================================================================== *)
(** ** Theorem on [findcontrolpoints] *)

(** C3.  [findcontrolpoints] stops with an assertion failure on every call
    that violates [zamax < zamin], [zamin >= zpmin] or [zamax <= zpmax];
    every call that returns [(i, j, ii, jj)] satisfies
    [zana[j] <= zraw[jj]], [zana[i] >= zraw[ii]], [gauss[j] <= gauss[jj]]
    and [gauss[i] >= gauss[ii]]; and on tables of four or more points that
    pass the entry assertions the call returns the indices found by its four
    scans when these orderings hold and stops with an assertion failure
    when one of them fails. *)
Theorem findcontrolpoints_contract :
  forall (D : Type) (A : Arith D) (zana zraw gauss : list D)
         (zpmin zpmax zamin zamax : D),
    ((zamax <? zamin)%D = false \/ (zamin >=? zpmin)%D = false \/
     (zamax <=? zpmax)%D = false ->
     findcontrolpoints zana zraw gauss zpmin zpmax zamin zamax
     = Raise AssertionError) /\
    (forall i j ii jj,
        findcontrolpoints zana zraw gauss zpmin zpmax zamin zamax
        = Ok (i, j, ii, jj) ->
        (item zana j <=? item zraw jj)%D = true /\
        (item zana i >=? item zraw ii)%D = true /\
        (item gauss j <=? item gauss jj)%D = true /\
        (item gauss i >=? item gauss ii)%D = true) /\
    (forall N,
        len zana = N -> len zraw = N -> len gauss = N -> 4 <= N ->
        (zamax <? zamin)%D = true -> (zpmax <? zpmin)%D = true ->
        (zamax <=? zpmax)%D = true -> (zamin >=? zpmin)%D = true ->
        exists i j ii jj,
          first_down (N - 1) 1 (fun k => item zraw k <=? zpmax)%D jj /\
          first_up 0 (N - 2) (fun k => item zraw k >=? zpmin)%D ii /\
          first_down (N / 2) 2 (fun k => item zana (k - 1) <=? zamin)%D i /\
          first_up (N / 2) (N - 2) (fun k => item zana (k + 1) >=? zamax)%D j /\
          findcontrolpoints zana zraw gauss zpmin zpmax zamin zamax
          = if ordered_control_points zana zraw gauss i j ii jj
            then Ok (i, j, ii, jj) else Raise AssertionError).
Proof.
  intros D A zana zraw gauss zpmin zpmax zamin zamax. split; [|split].
  - intros H. apply findcontrolpoints_rejects. tauto.
  - intros i j ii jj H.
    exact (proj2 (findcontrolpoints_returns _ _ _ _ _ _ _ _ _ _ _ H)).
  - intros N. apply findcontrolpoints_run.
Qed.

Lemma findcontrolpoints_contract_witness :
  findcontrolpoints flat_table flat_table flat_table
    1%float (-1)%float 2%float (-2)%float = Ok (2, 2, 2, 1) /\
  (item flat_table 2 <=? item flat_table 1)%D = true /\
  (item flat_table 2 >=? item flat_table 2)%D = true /\
  (item flat_table 2 <=? item flat_table 1)%D = true /\
  (item flat_table 2 >=? item flat_table 2)%D = true.
Proof.
  split; [vm_compute; reflexivity|].
  apply (proj1 (proj2 (findcontrolpoints_contract float binary64
                         flat_table flat_table flat_table
                         1%float (-1)%float 2%float (-2)%float))).
  vm_compute. reflexivity.
Defined.

(** An analytic curve that lies above the empirical one at the upper control
    point: the post-condition [zana[j] <= zraw[jj]] fails and the call stops. *)
Example findcontrolpoints_inconsistent :
  findcontrolpoints sample_zana sample_zraw sample_gauss
    6%float 3%float 6.5%float 2.5%float = Raise AssertionError.
Proof. vm_compute. reflexivity. Qed.

(* ================================================================== *)
(** ** Loops with an invariant *)

(** Total correctness: every iteration returns and re-establishes [I]. *)
Lemma for_each_invariant {S : Type} (I : Z -> S -> Prop)
    (body : Z -> S -> result S) (n : nat) :
  forall a b s,
    Z.to_nat (b - a) = n -> a <= b -> I a s ->
    (forall k t, a <= k < b -> I k t ->
                 exists t', body k t = Ok t' /\ I (k + 1) t') ->
    exists s', for_each (range_up a b) body s = Ok s' /\ I b s'.
Proof.
  induction n as [|n IH]; intros a b s Hn Hab Ha Hstep.
  - assert (b = a) by lia. subst b. rewrite range_up_nil by lia.
    exists s. split; [reflexivity | assumption].
  - rewrite range_up_cons by lia. cbn [for_each].
    destruct (Hstep a s) as (t & Hb & Ht); [lia | assumption |].
    rewrite Hb. cbn [bind].
    apply IH; [lia | lia | assumption |].
    intros k u Hk Hu. apply Hstep; [lia | assumption].
Qed.

(** Partial correctness: a loop that returns has kept [I]. *)
Lemma for_each_returned {S : Type} (I : Z -> S -> Prop)
    (body : Z -> S -> result S) (n : nat) :
  forall a b s s',
    Z.to_nat (b - a) = n -> a <= b -> I a s ->
    (forall k t t', a <= k < b -> I k t -> body k t = Ok t' -> I (k + 1) t') ->
    for_each (range_up a b) body s = Ok s' -> I b s'.
Proof.
  induction n as [|n IH]; intros a b s s' Hn Hab Ha Hstep Hrun.
  - assert (b = a) by lia. subst b. rewrite range_up_nil in Hrun by lia.
    cbn in Hrun. congruence.
  - rewrite range_up_cons in Hrun by lia. cbn [for_each] in Hrun.
    inv_bind Hrun.
    apply (IH (a + 1) b a0 s'); [lia | lia | | | assumption].
    + apply (Hstep a s); [lia | assumption | assumption].
    + intros k t t' Hk Ht. apply Hstep; [lia | assumption].
Qed.

(* ================================================================== *)
(** ** Elementwise array operations *)

Section VectorFacts.
Context {D : Type} {A : Arith D}.

Lemma len_map (f : D -> D) (a : list D) : len (map f a) = len a.
Proof. unfold len. now rewrite length_map. Qed.

Lemma item_map (f : D -> D) (a : list D) n :
  0 <= n < len a -> item (map f a) n = f (item a n).
Proof.
  intros Hn. unfold item, len in *.
  rewrite (nth_indep _ _ (f (#0)%D)) by (rewrite length_map; lia).
  apply map_nth.
Qed.

Lemma length_zip_with (f : D -> D -> D) (a b : list D) :
  length a = length b -> length (zip_with f a b) = length a.
Proof.
  revert b. induction a as [|x a IH]; intros [|y b] H; cbn in *;
    try discriminate; auto.
Qed.

Lemma len_zip_with (f : D -> D -> D) (a b : list D) :
  len a = len b -> len (zip_with f a b) = len a.
Proof. unfold len. intros H. rewrite length_zip_with; lia. Qed.

Lemma nth_zip_with (f : D -> D -> D) (a b : list D) n d :
  length a = length b -> (n < length a)%nat ->
  nth n (zip_with f a b) d = f (nth n a d) (nth n b d).
Proof.
  revert b n. induction a as [|x a IH]; intros [|y b] [|n] H Hn; cbn in *;
    try discriminate; try lia; auto.
  apply IH; lia.
Qed.

Lemma item_zip_with (f : D -> D -> D) (a b : list D) n :
  len a = len b -> 0 <= n < len a ->
  item (zip_with f a b) n = f (item a n) (item b n).
Proof.
  unfold len, item. intros H Hn. apply nth_zip_with; lia.
Qed.

Lemma len_full n (v : D) : 0 <= n -> len (full n v) = n.
Proof. intros Hn. unfold len, full. rewrite repeat_length. lia. Qed.

Lemma item_full n (v : D) k : 0 <= k < n -> item (full n v) k = v.
Proof.
  intros Hk. unfold item, full.
  apply nth_repeat_lt. lia.
Qed.

Lemma item2_row (H : matrix D) p n : item2 H p n = item (row H p) n.
Proof. reflexivity. Qed.

Lemma getrow_row (H : matrix D) p :
  0 <= p < nrows H -> getrow H p = Ok (row H p).
Proof.
  intros Hp. unfold getrow, row.
  replace (p <? 0) with false by lia.
  replace ((0 <=? p) && (p <? nrows H)) with true
    by (symmetry; apply andb_true_intro; split; lia).
  unfold nrows in Hp.
  rewrite (nth_error_nth' (rows H) []) by lia. reflexivity.
Qed.

Lemma setrow_Ok (H : matrix D) p r :
  0 <= p < nrows H ->
  setrow H p r = Ok (Matrix (ncols H) (replace_nth (Z.to_nat p) r (rows H))).
Proof.
  intros Hp. unfold setrow.
  replace (p <? 0) with false by lia.
  replace ((0 <=? p) && (p <? nrows H)) with true
    by (symmetry; apply andb_true_intro; split; lia).
  reflexivity.
Qed.

Lemma len_row_wf (H : matrix D) p :
  wf_matrix H -> 0 <= p < nrows H -> len (row H p) = ncols H.
Proof.
  intros [_ Hwf] Hp. unfold row.
  rewrite Forall_forall in Hwf. apply Hwf. apply nth_In.
  unfold nrows in Hp. lia.
Qed.

End VectorFacts.

(* ================================================================== *)
(** ** Real arithmetic: comparisons *)

Lemma Rltb_true a b : Rltb a b = true <-> (a < b)%R.
Proof. unfold Rltb. destruct (Rlt_dec a b); split; intros; try easy. Qed.

Lemma Rltb_false a b : Rltb a b = false <-> (b <= a)%R.
Proof.
  unfold Rltb. destruct (Rlt_dec a b); split; intros; try easy; lra.
Qed.

Lemma Rleb_true a b : Rleb a b = true <-> (a <= b)%R.
Proof. unfold Rleb. destruct (Rle_dec a b); split; intros; try easy. Qed.

Lemma Rleb_false a b : Rleb a b = false <-> (b < a)%R.
Proof.
  unfold Rleb. destruct (Rle_dec a b); split; intros; try easy; lra.
Qed.

Lemma Reqb_true a b : Reqb a b = true <-> a = b.
Proof. unfold Reqb. destruct (Req_dec_T a b); split; intros; try easy. Qed.

Lemma Reqb_false a b : Reqb a b = false <-> a <> b.
Proof. unfold Reqb. destruct (Req_dec_T a b); split; intros; try easy. Qed.

(** Decide the comparisons of reals that occur in the goal. *)
Ltac real_tests :=
  repeat match goal with
         | |- context [Rltb ?a ?b] =>
             let E := fresh "E" in
             destruct (Rltb a b) eqn:E;
             [apply Rltb_true in E | apply Rltb_false in E]; try lra
         | |- context [Rleb ?a ?b] =>
             let E := fresh "E" in
             destruct (Rleb a b) eqn:E;
             [apply Rleb_true in E | apply Rleb_false in E]; try lra
         | |- context [Reqb ?a ?b] =>
             let E := fresh "E" in
             destruct (Reqb a b) eqn:E;
             [apply Reqb_true in E | apply Reqb_false in E]; try lra
         end.

(* ================================================================== *)
(** ** The expansion in real arithmetic *)

Lemma sum_1_to_zero K f :
  (forall p, (1 <= p <= K)%nat -> f p = 0%R) -> sum_1_to K f = 0%R.
Proof.
  induction K as [|K IH]; intros Hf; cbn; [reflexivity|].
  rewrite IH by (intros p Hp; apply Hf; lia).
  rewrite Hf by lia. lra.
Qed.

Lemma expand_anamor_run (PCI : list R) (H : matrix R) (r : R) K :
  wf_matrix H -> len PCI = K + 1 -> nrows H = K + 1 -> 0 <= K ->
  exists Zh,
    expand_anamor PCI H r = Ok Zh /\ len Zh = ncols H /\
    forall n, 0 <= n < ncols H ->
      item Zh n =
      (item PCI 0
       + sum_1_to (Z.to_nat K)
           (fun p => item PCI (Z.of_nat p) * r ^ p
                     * item2 H (Z.of_nat p) n))%R.
Proof.
  intros Hwf HP HH HK. unfold expand_anamor.
  rewrite getitem_item by lia. cbn [bind].
  destruct (@for_each_invariant (list R)
              (fun p acc => len acc = ncols H /\
                 forall n, 0 <= n < ncols H ->
                   item acc n
                   = (item PCI 0
                      + sum_1_to (Z.to_nat (p - 1))
                          (fun q => item PCI (Z.of_nat q) * r ^ q
                                    * item2 H (Z.of_nat q) n))%R)
              (fun p acc =>
                 c <- getitem PCI p ;;
                 Hp <- getrow H p ;;
                 Ok (zip_with dadd acc
                       (map (fun h => (c * h * r ** p)%D) Hp)))
              (Z.to_nat (len PCI - 1)) 1 (len PCI)
              (map (fun _ : R => item PCI 0) (full (ncols H) (#0)%D)) eq_refl)
    as (Zh & Hrun & HlenZ & HZ).
  - lia.
  - cbn beta. destruct Hwf as [Hc _]. split.
    + now rewrite len_map, len_full.
    + intros n Hn. rewrite item_map by (rewrite len_full; lia).
      cbn. lra.
  - cbn beta. intros p acc Hp (Hlen & Hacc).
    rewrite getitem_item by lia. rewrite getrow_row by lia. cbn [bind].
    assert (Hrow : len (row H p) = ncols H)
      by (apply len_row_wf; [assumption | lia]).
    eexists. split; [reflexivity|]. split.
    + rewrite len_zip_with; [assumption|]. rewrite len_map. congruence.
    + intros n Hn.
      rewrite item_zip_with by (rewrite ?len_map; lia || congruence).
      rewrite item_map by lia. rewrite Hacc by assumption.
      replace (Z.to_nat (p + 1 - 1)) with (S (Z.to_nat (p - 1))) by lia.
      cbn [sum_1_to].
      replace (Z.of_nat (S (Z.to_nat (p - 1)))) with p by lia.
      replace (S (Z.to_nat (p - 1))) with (Z.to_nat p) by lia.
      change (item2 H p n) with (item (row H p) n).
      cbn [dadd dmul dpow ideal]. ring.
  - exists Zh. split; [assumption|]. split; [assumption|].
    intros n Hn. rewrite HZ by assumption.
    now replace (len PCI - 1) with K by lia.
Qed.



(** The same call on IEEE doubles. *)
Example expand_anamor_sample :
  expand_anamor [1; 2]%float (Matrix 1 [[1]; [3]]%float) 5%float
  = Ok [31%float] /\
  expand_anamor [1; 2]%float (Matrix 1 [[1]; [3]]%float) 0%float
  = Ok [1%float].
Proof. split; vm_compute; reflexivity. Qed.

(* ================================================================== *)
(** ** The Hermite recurrence in real arithmetic *)

Section MatrixFacts.
Context {D : Type} {A : Arith D}.

Lemma row_replace_same c (rs : list (list D)) p r :
  0 <= p < Z.of_nat (length rs) ->
  row (Matrix c (replace_nth (Z.to_nat p) r rs)) p = r.
Proof. intros Hp. unfold row. cbn. apply nth_replace_nth_eq. lia. Qed.

Lemma row_replace_other c (rs : list (list D)) p q r :
  0 <= p -> 0 <= q -> p <> q ->
  row (Matrix c (replace_nth (Z.to_nat p) r rs)) q = row (Matrix c rs) q.
Proof. intros Hp Hq Hne. unfold row. cbn. apply nth_replace_nth_neq. lia. Qed.

Lemma nrows_replace c (rs : list (list D)) n r :
  nrows (Matrix c (replace_nth n r rs)) = nrows (Matrix c rs).
Proof. unfold nrows. cbn. now rewrite length_replace_nth. Qed.

Lemma row_ones (N K p : Z) (v : D) :
  0 <= p < K ->
  row (Matrix N (repeat (full N v) (Z.to_nat K))) p = full N v.
Proof. intros Hp. unfold row. cbn. apply nth_repeat_lt. lia. Qed.

Lemma wf_matrix_rows (H : matrix D) :
  0 <= ncols H ->
  (forall p, 0 <= p < nrows H -> len (row H p) = ncols H) ->
  wf_matrix H.
Proof.
  intros Hc Hr. split; [assumption|]. apply Forall_forall. intros r Hin.
  destruct (In_nth _ _ [] Hin) as (k & Hk & <-).
  specialize (Hr (Z.of_nat k)). unfold row, nrows in Hr.
  rewrite Nat2Z.id in Hr. apply Hr. lia.
Qed.

End MatrixFacts.

Lemma recurrentH_run (y : list R) (K : Z) :
  1 <= K ->
  exists H,
    recurrentH y K = Ok H /\ nrows H = K + 1 /\ ncols H = len y /\
    wf_matrix H /\
    forall n, 0 <= n < len y ->
      item2 H 0 n = 1%R /\
      item2 H 1 n = (- item y n)%R /\
      forall k, 1 <= k <= K - 1 -> item2 H (k + 1) n = hermite_step y H k n.
Proof.
  intros HK. unfold recurrentH.
  replace (1 <=? K) with true by lia. cbn [assert bind].
  pose proof (len_nonneg y) as HN.
  set (ones := repeat (full (len y) (#1)%D) (Z.to_nat (K + 1))).
  assert (Hn0 : nrows (Matrix (len y) ones) = K + 1).
  { unfold nrows, ones. cbn. rewrite repeat_length. lia. }
  rewrite setrow_Ok by lia. cbn [bind ncols rows].
  destruct (@for_each_invariant (matrix R)
              (fun k H =>
                 ncols H = len y /\ nrows H = K + 1 /\
                 (forall p, 0 <= p < K + 1 -> len (row H p) = len y) /\
                 forall n, 0 <= n < len y ->
                   item2 H 0 n = 1%R /\
                   item2 H 1 n = (- item y n)%R /\
                   forall m, 1 <= m < k ->
                     item2 H (m + 1) n = hermite_step y H m n)
              (fun k H =>
                 Hk <- getrow H k ;;
                 Hk1 <- getrow H (k - 1) ;;
                 setrow H (k + 1)
                   (zip_with dsub
                      (zip_with dmul
                         (map (fun v => (#(-1) / dsqrt #(k + 1) * v)%D) y) Hk)
                      (map (fun h => (dsqrt (#k / #(k + 1)) * h)%D) Hk1)))
              (Z.to_nat (K - 1)) 1 K
              (Matrix (len y) (replace_nth (Z.to_nat 1) (map dopp y) ones))
              eq_refl)
    as (H & Hrun & Hc & Hr & Hrows & Hrec).
  - lia.
  - cbn beta. split; [reflexivity|]. split.
    { rewrite nrows_replace. exact Hn0. }
    split.
    { intros p Hp. destruct (Z.eq_dec p 1) as [->|Hne].
      - rewrite row_replace_same by (unfold nrows in Hn0; cbn in Hn0; lia).
        apply len_map.
      - rewrite row_replace_other by lia. unfold ones.
        rewrite row_ones by lia. apply len_full. lia. }
    intros n Hn. rewrite !item2_row.
    rewrite row_replace_other by lia.
    rewrite row_replace_same by (unfold nrows in Hn0; cbn in Hn0; lia).
    unfold ones. rewrite row_ones by lia.
    rewrite item_full by lia. rewrite item_map by lia.
    repeat split; try reflexivity. intros m Hm. lia.
  - cbn beta. intros k H Hk (Hc & Hr & Hrows & Hrec).
    rewrite !getrow_row by lia. cbn [bind].
    rewrite setrow_Ok by lia.
    eexists. split; [reflexivity|].
    destruct H as [c rs]. cbn [ncols rows] in *.
    assert (Hlen : 0 <= k + 1 < Z.of_nat (length rs))
      by (unfold nrows in Hr; cbn in Hr; lia).
    assert (Hnew : forall n, 0 <= n < len y ->
      item (zip_with dsub
              (zip_with dmul
                 (map (fun v => (#(-1) / dsqrt #(k + 1) * v)%D) y)
                 (row (Matrix c rs) k))
              (map (fun h => (dsqrt (#k / #(k + 1)) * h)%D)
                 (row (Matrix c rs) (k - 1)))) n
      = hermite_step y (Matrix c rs) k n).
    { intros n Hn.
      assert (Lk : len (row (Matrix c rs) k) = len y) by (apply Hrows; lia).
      assert (Lk1 : len (row (Matrix c rs) (k - 1)) = len y)
        by (apply Hrows; lia).
      assert (Lm : len (zip_with dmul
                          (map (fun v => (#(-1) / dsqrt #(k + 1) * v)%D) y)
                          (row (Matrix c rs) k)) = len y).
      { rewrite len_zip_with; rewrite len_map; congruence. }
      rewrite item_zip_with by (rewrite ?len_map; lia).
      rewrite item_zip_with by (rewrite len_map; lia).
      rewrite !item_map by lia.
      unfold hermite_step. rewrite !item2_row.
      cbn [dsub dmul ddiv dsqrt dof_Z ideal]. unfold Rdiv. ring. }
    split; [assumption|]. split; [now rewrite nrows_replace|]. split.
    { intros p Hp. destruct (Z.eq_dec p (k + 1)) as [->|Hne].
      - rewrite row_replace_same by lia.
        assert (Lk : len (row (Matrix c rs) k) = len y) by (apply Hrows; lia).
        assert (Lk1 : len (row (Matrix c rs) (k - 1)) = len y)
          by (apply Hrows; lia).
        rewrite len_zip_with; rewrite ?len_map; try lia;
          rewrite len_zip_with; rewrite len_map; congruence.
      - rewrite row_replace_other by lia. now apply Hrows. }
    intros n Hn. destruct (Hrec n Hn) as (H0 & H1 & Hm).
    rewrite !item2_row in *.
    rewrite !(row_replace_other c rs (k + 1)) by lia.
    repeat split; try assumption.
    intros m Hm'. unfold hermite_step. rewrite !item2_row.
    destruct (Z.eq_dec m k) as [->|Hne].
    + rewrite row_replace_same by lia.
      rewrite !(row_replace_other c rs (k + 1)) by lia.
      rewrite Hnew by assumption. reflexivity.
    + rewrite !(row_replace_other c rs (k + 1)) by lia.
      rewrite <- !item2_row. apply Hm. lia.
  - exists H. split; [assumption|]. split; [assumption|].
    split; [assumption|]. split.
    + apply wf_matrix_rows; [lia|]. intros p Hp. rewrite Hc. apply Hrows. lia.
    + intros n Hn. destruct (Hrec n Hn) as (H0 & H1 & Hm).
      repeat split; try assumption. intros k Hk. apply Hm. lia.
Qed.



(** The same calls on IEEE doubles: [-sqrt(0.5)] is the double next to
    [-1/sqrt(2)]. *)
Example recurrentH_sample :
  recurrentH [0]%float 2
  = Ok (Matrix 1 [[1]; [-0]; [-0x1.6a09e667f3bcdp-1]]%float) /\
  recurrentH [0]%float 0 = Raise AssertionError.
Proof. split; vm_compute; reflexivity. Qed.

(* ================================================================== *)
(** ** Loops that rewrite an array element by element *)

Lemma for_each_ext {S : Type} (rng : list Z) (body body' : Z -> S -> result S) :
  (forall k s, In k rng -> body k s = body' k s) ->
  forall s, for_each rng body s = for_each rng body' s.
Proof.
  induction rng as [|k rest IH]; intros Hext s; cbn [for_each].
  - reflexivity.
  - rewrite (Hext k s (or_introl eq_refl)).
    destruct (body' k s); cbn [bind]; [|reflexivity].
    apply IH. intros m t Hm. apply Hext. now right.
Qed.

Section Pointwise.
Context {D : Type} {A : Arith D}.

Lemma rewrite_each_returned (src : list D) f out0 out :
  len out0 = len src ->
  rewrite_each src f out0 = Ok out ->
  len out = len src /\
  forall i, 0 <= i < len src ->
    exists o, f (item src i) = Ok o /\
              item out i = match o with Some v => v | None => item out0 i end.
Proof.
  intros Hlen Hrun. unfold rewrite_each in Hrun.
  pose proof (len_nonneg src) as Hn.
  assert (H : len out = len src /\
              (forall i, 0 <= i < len src ->
                 exists o, f (item src i) = Ok o /\
                   item out i = match o with
                                | Some v => v
                                | None => item out0 i
                                end) /\
              (forall i, len src <= i < len src -> item out i = item out0 i)).
  { match type of Hrun with
    | for_each _ ?body _ = _ =>
    apply (@for_each_returned (list D)
             (fun k t =>
                len t = len src /\
                (forall i, 0 <= i < k ->
                   exists o, f (item src i) = Ok o /\
                     item t i = match o with
                                | Some v => v
                                | None => item out0 i
                                end) /\
                (forall i, k <= i < len src -> item t i = item out0 i))
             body (Z.to_nat (len src - 0)) 0 (len src) out0 out eq_refl Hn);
      try exact Hrun
    end.
    - cbn beta. split; [assumption|].
      split; [intros i Hi; lia | intros i Hi; reflexivity].
    - cbn beta. intros k t t' Hk (Ht & Hdone & Htodo) Hbody.
      rewrite getitem_item in Hbody by lia. cbn [bind] in Hbody.
      inv_bind Hbody. destruct a as [v|].
      + rewrite setitem_Ok in Hbody by lia. injection Hbody as <-.
        split; [now rewrite len_replace_nth|]. split.
        * intros i Hi. destruct (Z.eq_dec i k) as [->|Hne].
          -- exists (Some v). split; [assumption|].
             apply item_replace_same. lia.
          -- rewrite item_replace_other by lia. apply Hdone. lia.
        * intros i Hi. rewrite item_replace_other by lia. apply Htodo. lia.
      + injection Hbody as <-. split; [assumption|]. split.
        * intros i Hi. destruct (Z.eq_dec i k) as [->|Hne].
          -- exists None. split; [assumption|]. apply Htodo. lia.
          -- apply Hdone. lia.
        * intros i Hi. apply Htodo. lia. }
  destruct H as (H1 & H2 & _). split; assumption.
Qed.

Lemma rewrite_each_total (src : list D) f out0 :
  len out0 = len src ->
  (forall i, 0 <= i < len src -> exists o, f (item src i) = Ok o) ->
  exists out, rewrite_each src f out0 = Ok out.
Proof.
  intros Hlen Hf. unfold rewrite_each.
  pose proof (len_nonneg src) as Hn.
  destruct (@for_each_invariant (list D)
              (fun k t => len t = len src)
              (fun i out =>
                 x <- getitem src i ;;
                 o <- f x ;;
                 match o with
                 | Some v => setitem out i v
                 | None => Ok out
                 end)
              (Z.to_nat (len src - 0)) 0 (len src) out0 eq_refl Hn Hlen)
    as (out & Hrun & _).
  - intros k t Hk Ht. rewrite getitem_item by lia. cbn [bind].
    destruct (Hf k Hk) as (o & ->). cbn [bind]. destruct o as [v|].
    + rewrite setitem_Ok by lia. eexists. split; [reflexivity|].
      now rewrite len_replace_nth.
    + eexists. split; [reflexivity | assumption].
  - now exists out.
Qed.

End Pointwise.

(* ================================================================== *)
(** ** The five regions of [Z2Y_linear] *)

Section Regions.
Context {D : Type} {A : Arith D}.
Local Open Scope dbl_scope.

Lemma Z2Y_linear_pointwise (z zm ym : list D)
    zamin yamin zpmin ypmin zpmax ypmax zamax yamax :
  Z2Y_linear z zm ym zamin yamin zpmin ypmin zpmax ypmax zamax yamax
  = rewrite_each z
      (Z2Y_point zm ym zamin yamin zpmin ypmin zpmax ypmax zamax yamax)
      (full (len z) #0).
Proof.
  unfold Z2Y_linear, rewrite_each. apply for_each_ext. intros k s _.
  destruct (getitem z k) as [zi|e]; cbn [bind]; [|reflexivity].
  unfold Z2Y_point, Z2Y_region.
  destruct (zi <=? zamin); cbn [bind]; [reflexivity|].
  destruct (zamax <=? zi); cbn [bind]; [reflexivity|].
  destruct (zi <=? zpmin); cbn [bind].
  { destruct (np_interp zi _ _); reflexivity. }
  destruct (zpmax <=? zi); cbn [bind].
  { destruct (np_interp zi _ _); reflexivity. }
  destruct ((zi <? zpmax) && (zpmin <? zi)); cbn [bind]; [|reflexivity].
  destruct (np_interp zi _ _); reflexivity.
Qed.

(** [np.interp] on a table returns whenever the table is not empty and its
    two columns have one length. *)
Lemma np_interp_total (x : D) (xp fp : list D) :
  (0 < len xp)%Z -> len fp = len xp -> exists v, np_interp x xp fp = Ok v.
Proof.
  intros Hx Hf. unfold np_interp.
  replace (len xp =? 0)%Z with false by lia.
  replace (len fp =? len xp)%Z with true by lia. cbn [negb].
  destruct (disnan x); [eauto|].
  destruct (_ =? -1)%Z; [eauto|].
  destruct (_ =? len xp)%Z; [eauto|].
  destruct (_ =? len xp - 1)%Z; eauto.
Qed.

End Regions.

(* ================================================================== *)
(** ** Two-point interpolation in real arithmetic *)

Ltac eval_interp :=
  unfold np_interp, interp_index;
  cbv -[Rplus Rminus Rmult Rdiv Rinv Ropp Rltb Rleb Reqb IZR line].

Lemma np_interp_segment (x0 x1 f0 f1 x : R) :
  (x0 <= x <= x1)%R -> (x0 < x1)%R ->
  np_interp x [x0; x1] [f0; f1] = Ok (line x0 f0 x1 f1 x).
Proof.
  intros Hx Hlt. eval_interp. real_tests.
  - f_equal. unfold line. assert (x = x1) by lra. subst x. field. lra.
  - reflexivity.
Qed.

Lemma np_interp_left (x0 x1 f0 f1 x : R) :
  (x < x0)%R -> (x <= x1)%R -> np_interp x [x0; x1] [f0; f1] = Ok f0.
Proof. intros H0 H1. eval_interp. real_tests. reflexivity. Qed.

Lemma np_interp_right (x0 x1 f0 f1 x : R) :
  (x1 < x)%R -> np_interp x [x0; x1] [f0; f1] = Ok f1.
Proof. intros H1. eval_interp. real_tests. reflexivity. Qed.

(** Over the reals the five tests leave no value out, and each region is
    the set its name says. *)
Lemma Z2Y_region_real (zi zamin zpmin zpmax zamax : R) :
  match Z2Y_region zi zamin zpmin zpmax zamax with
  | Some ClampMin => (zi <= zamin)%R
  | Some ClampMax => (zamin < zi)%R /\ (zamax <= zi)%R
  | Some LowerTail => (zamin < zi < zamax)%R /\ (zi <= zpmin)%R
  | Some UpperTail =>
      (zamin < zi < zamax)%R /\ (zpmin < zi)%R /\ (zpmax <= zi)%R
  | Some Table => (zamin < zi < zamax)%R /\ (zpmin < zi < zpmax)%R
  | None => False
  end.
Proof.
  unfold Z2Y_region. cbn [dleb dltb ideal].
  destruct (Rleb zi zamin) eqn:E1; lazy beta iota;
    [apply Rleb_true in E1; assumption | apply Rleb_false in E1].
  destruct (Rleb zamax zi) eqn:E2; lazy beta iota;
    [apply Rleb_true in E2; split; assumption | apply Rleb_false in E2].
  destruct (Rleb zi zpmin) eqn:E3; lazy beta iota;
    [apply Rleb_true in E3; repeat split; assumption
    | apply Rleb_false in E3].
  destruct (Rleb zpmax zi) eqn:E4; lazy beta iota;
    [apply Rleb_true in E4; repeat split; assumption
    | apply Rleb_false in E4].
  replace (Rltb zi zpmax) with true by (symmetry; now apply Rltb_true).
  replace (Rltb zpmin zi) with true by (symmetry; now apply Rltb_true).
  cbn [andb]. repeat split; assumption.
Qed.

(** The five rules over the reals, where no value escapes the five tests:
    each region is the set its name says, and the two tails lie on the
    lines through their anchors. *)
Lemma Z2Y_linear_regions_real :
  forall (z zm ym : list R)
         (zamin yamin zpmin ypmin zpmax ypmax zamax yamax : R),
    (0 < len zm -> len ym = len zm ->
     exists Y,
       Z2Y_linear z zm ym zamin yamin zpmin ypmin zpmax ypmax zamax yamax
       = Ok Y) /\
    (forall Y,
        Z2Y_linear z zm ym zamin yamin zpmin ypmin zpmax ypmax zamax yamax
        = Ok Y ->
        len Y = len z /\
        forall i, 0 <= i < len z ->
          exists reg,
            Z2Y_region (item z i) zamin zpmin zpmax zamax = Some reg /\
            match reg with
            | ClampMin => (item z i <= zamin)%R /\ item Y i = yamin
            | ClampMax =>
                (zamin < item z i)%R /\ (zamax <= item z i)%R /\
                item Y i = yamax
            | LowerTail =>
                (zamin < item z i < zamax)%R /\ (item z i <= zpmin)%R /\
                np_interp (item z i) [zamin; zpmin] [yamin; ypmin]
                = Ok (item Y i) /\
                item Y i = line zamin yamin zpmin ypmin (item z i)
            | UpperTail =>
                (zamin < item z i < zamax)%R /\ (zpmin < item z i)%R /\
                (zpmax <= item z i)%R /\
                np_interp (item z i) [zpmax; zamax] [ypmax; yamax]
                = Ok (item Y i) /\
                item Y i = line zpmax ypmax zamax yamax (item z i)
            | Table =>
                (zamin < item z i < zamax)%R /\
                (zpmin < item z i < zpmax)%R /\
                np_interp (item z i) zm ym = Ok (item Y i)
            end).
Proof.
  intros z zm ym zamin yamin zpmin ypmin zpmax ypmax zamax yamax.
  rewrite Z2Y_linear_pointwise.
  assert (Hfull : len (full (len z) (#0 : R)%D) = len z)
    by (apply len_full, len_nonneg).
  split.
  - intros Hzm Hym. apply rewrite_each_total; [assumption|].
    intros i Hi. unfold Z2Y_point.
    destruct (Z2Y_region _ _ _ _ _) as [[| | | |]|]; eauto.
    + destruct (np_interp_total (item z i) [zamin; zpmin] [yamin; ypmin])
        as (v & ->); cbn; try lia; eauto.
    + destruct (np_interp_total (item z i) [zpmax; zamax] [ypmax; yamax])
        as (v & ->); cbn; try lia; eauto.
    + destruct (np_interp_total (item z i) zm ym Hzm Hym) as (v & ->).
      cbn. eauto.
  - intros Y Hrun.
    destruct (rewrite_each_returned _ _ _ _ Hfull Hrun) as (HlenY & Hel).
    split; [assumption|]. intros i Hi.
    destruct (Hel i Hi) as (o & Ho & Hv). unfold Z2Y_point in Ho.
    pose proof (Z2Y_region_real (item z i) zamin zpmin zpmax zamax) as Hreg.
    destruct (Z2Y_region _ _ _ _ _) as [reg|]; [|contradiction].
    exists reg. split; [reflexivity|].
    destruct reg.
    + injection Ho as <-. split; assumption.
    + injection Ho as <-. destruct Hreg. repeat split; assumption.
    + inv_bind Ho. injection Ho as <-. destruct Hreg as (Ha & Hp).
      subst. repeat split; try assumption; try apply Ha.
      rewrite np_interp_segment in E by lra. congruence.
    + inv_bind Ho. injection Ho as <-. destruct Hreg as (Ha & Hp & Hq).
      subst. repeat split; try assumption; try apply Ha.
      rewrite np_interp_segment in E by lra. congruence.
    + inv_bind Ho. injection Ho as <-. destruct Hreg as (Ha & Hp).
      subst. repeat split; try assumption; try apply Ha; try apply Hp.
Qed.

Lemma decided_real (x b : R) : decided x b.
Proof.
  unfold decided. cbn [dleb dltb ideal]. split; real_tests; reflexivity.
Qed.

Lemma Z2Y_region_decided (D : Type) (A : Arith D)
    (zi zamin zpmin zpmax zamax : D) :
  decided zi zpmin -> decided zi zpmax ->
  match Z2Y_region zi zamin zpmin zpmax zamax with
  | Some ClampMin => (zi <=? zamin)%D = true
  | Some ClampMax => (zi <=? zamin)%D = false /\ (zi >=? zamax)%D = true
  | Some LowerTail =>
      (zi <=? zamin)%D = false /\ (zi >=? zamax)%D = false /\
      (zi <=? zpmin)%D = true
  | Some UpperTail =>
      (zi <=? zamin)%D = false /\ (zi >=? zamax)%D = false /\
      (zi <=? zpmin)%D = false /\ (zi >=? zpmax)%D = true
  | Some Table =>
      (zi <=? zamin)%D = false /\ (zi >=? zamax)%D = false /\
      (zi <? zpmax)%D = true /\ (zi >? zpmin)%D = true
  | None => False
  end.
Proof.
  intros (Hmin & _) (_ & Hmax). unfold Z2Y_region.
  destruct (zi <=? zamin)%D; lazy beta iota; [reflexivity|].
  destruct (zamax <=? zi)%D; lazy beta iota; [split; reflexivity|].
  destruct (zi <=? zpmin)%D; lazy beta iota; [repeat split; reflexivity|].
  destruct (zpmax <=? zi)%D; lazy beta iota; [repeat split; reflexivity|].
  destruct (zpmin <? zi)%D; [|discriminate].
  destruct (zi <? zpmax)%D; [|discriminate].
  cbn [andb]. repeat split; reflexivity.
Qed.

(** C4, as amended.  For every element [z[i]] that is comparable with
    [zpmin] and [zpmax] (every number; on doubles, no NaN among the three),
    whatever the other elements of [z] are, [Z2Y_linear] sets [Y[i]] by the
    first rule that applies, in this order: [z[i] <= zamin] gives [yamin];
    else [z[i] >= zamax] gives [yamax]; else [z[i] <= zpmin] gives the
    interpolation through [(zamin, yamin)] and [(zpmin, ypmin)]; else
    [z[i] >= zpmax] gives the interpolation through [(zpmax, ypmax)] and
    [(zamax, yamax)]; else ([zpmin < z[i] < zpmax]) gives the interpolation
    in the table [(zm, ym)]; exactly one of the five rules fires for such an
    element.  The call returns whenever the table is not empty and its
    columns have one length.  This holds in every arithmetic of doubles. *)
Theorem Z2Y_linear_regions :
  forall (D : Type) (A : Arith D) (z zm ym : list D)
         (zamin yamin zpmin ypmin zpmax ypmax zamax yamax : D),
    (0 < len zm -> len ym = len zm ->
     exists Y,
       Z2Y_linear z zm ym zamin yamin zpmin ypmin zpmax ypmax zamax yamax
       = Ok Y) /\
    (forall Y,
        Z2Y_linear z zm ym zamin yamin zpmin ypmin zpmax ypmax zamax yamax
        = Ok Y ->
        len Y = len z /\
        forall i, 0 <= i < len z ->
          decided (item z i) zpmin -> decided (item z i) zpmax ->
          exists reg,
            Z2Y_region (item z i) zamin zpmin zpmax zamax = Some reg /\
            match reg with
            | ClampMin =>
                (item z i <=? zamin)%D = true /\ item Y i = yamin
            | ClampMax =>
                (item z i <=? zamin)%D = false /\
                (item z i >=? zamax)%D = true /\ item Y i = yamax
            | LowerTail =>
                (item z i <=? zamin)%D = false /\
                (item z i >=? zamax)%D = false /\
                (item z i <=? zpmin)%D = true /\
                np_interp (item z i) [zamin; zpmin] [yamin; ypmin]
                = Ok (item Y i)
            | UpperTail =>
                (item z i <=? zamin)%D = false /\
                (item z i >=? zamax)%D = false /\
                (item z i <=? zpmin)%D = false /\
                (item z i >=? zpmax)%D = true /\
                np_interp (item z i) [zpmax; zamax] [ypmax; yamax]
                = Ok (item Y i)
            | Table =>
                (item z i <=? zamin)%D = false /\
                (item z i >=? zamax)%D = false /\
                (item z i <? zpmax)%D = true /\
                (item z i >? zpmin)%D = true /\
                np_interp (item z i) zm ym = Ok (item Y i)
            end).
Proof.
  intros D A z zm ym zamin yamin zpmin ypmin zpmax ypmax zamax yamax.
  rewrite Z2Y_linear_pointwise.
  assert (Hfull : len (full (len z) (#0 : D)%D) = len z)
    by (apply len_full, len_nonneg).
  split.
  - intros Hzm Hym. apply rewrite_each_total; [assumption|].
    intros i Hi. unfold Z2Y_point.
    destruct (Z2Y_region _ _ _ _ _) as [[| | | |]|]; eauto.
    + destruct (np_interp_total (item z i) [zamin; zpmin] [yamin; ypmin])
        as (v & ->); cbn; try lia; eauto.
    + destruct (np_interp_total (item z i) [zpmax; zamax] [ypmax; yamax])
        as (v & ->); cbn; try lia; eauto.
    + destruct (np_interp_total (item z i) zm ym Hzm Hym) as (v & ->).
      cbn. eauto.
  - intros Y Hrun.
    destruct (rewrite_each_returned _ _ _ _ Hfull Hrun) as (HlenY & Hel).
    split; [assumption|]. intros i Hi Hmin Hmax.
    destruct (Hel i Hi) as (o & Ho & Hv). unfold Z2Y_point in Ho.
    pose proof (Z2Y_region_decided D A (item z i) zamin zpmin zpmax zamax
                  Hmin Hmax) as Hreg.
    destruct (Z2Y_region _ _ _ _ _) as [reg|]; [|contradiction].
    exists reg. split; [reflexivity|].
    destruct reg.
    + injection Ho as <-. split; assumption.
    + injection Ho as <-. destruct Hreg. repeat split; assumption.
    + inv_bind Ho. injection Ho as <-. destruct Hreg as (H1 & H2 & H3).
      subst. repeat split; assumption.
    + inv_bind Ho. injection Ho as <-. destruct Hreg as (H1 & H2 & H3 & H4).
      subst. repeat split; assumption.
    + inv_bind Ho. injection Ho as <-. destruct Hreg as (H1 & H2 & H3 & H4).
      subst. repeat split; assumption.
Qed.

(** On an array with a NaN the comparable element still gets its rule: in
    [[nan, 3.0]] the second element lies strictly inside the practical
    interval and is interpolated in the table. *)
Lemma Z2Y_linear_regions_witness :
  decided 3%float 2%float /\ decided 3%float 7%float /\
  exists Y,
    Z2Y_linear [PrimFloat.nan; 3%float] sample_zraw sample_gauss
      1%float (-3)%float 2%float (-1.5)%float 7%float 1.5%float 8%float 3%float
    = Ok Y /\
    len Y = 2 /\
    Z2Y_region 3%float 1%float 2%float 7%float 8%float = Some Table /\
    np_interp 3%float sample_zraw sample_gauss = Ok (item Y 1).
Proof.
  assert (Hmin : decided 3%float 2%float) by (vm_compute; split; reflexivity).
  assert (Hmax : decided 3%float 7%float) by (vm_compute; split; reflexivity).
  split; [exact Hmin|]. split; [exact Hmax|].
  destruct (Z2Y_linear_regions float binary64 [PrimFloat.nan; 3%float]
              sample_zraw sample_gauss
              1%float (-3)%float 2%float (-1.5)%float
              7%float 1.5%float 8%float 3%float) as (Htotal & Hret).
  destruct (Htotal ltac:(vm_compute; reflexivity) eq_refl) as (Y & Hrun).
  destruct (Hret Y Hrun) as (Hlen & Hel).
  exists Y. split; [exact Hrun|]. split; [exact Hlen|].
  destruct (Hel 1 ltac:(cbn; lia) Hmin Hmax) as (reg & Hreg & Hrule).
  change (item [PrimFloat.nan; 3%float] 1) with 3%float in Hreg, Hrule.
  assert (Ereg : Z2Y_region 3%float 1%float 2%float 7%float 8%float
                 = Some Table) by (vm_compute; reflexivity).
  split; [exact Ereg|].
  rewrite Ereg in Hreg. injection Hreg as <-.
  exact (proj2 (proj2 (proj2 (proj2 Hrule)))).
Defined.

(** The sample call, evaluated. *)
Example Z2Y_linear_sample :
  Z2Y_linear sample_z sample_zraw sample_gauss
    1%float (-3)%float 2%float (-1.5)%float 7%float 1.5%float 8%float 3%float
  = Ok [-3; -2.25; -1; 2.25; 3]%float.
Proof. vm_compute. reflexivity. Qed.

(** C4 as stated fails on a NaN element: every comparison with NaN is
    false, none of the five rules fires, and [Y[i]] keeps the [0.0] that
    [np.zeros] put there. *)
Lemma Z2Y_linear_nan_counterexample :
  Z2Y_region PrimFloat.nan 1%float 2%float 7%float 8%float = None /\
  Z2Y_linear [PrimFloat.nan; 3%float] sample_zraw sample_gauss
    1%float (-3)%float 2%float (-1.5)%float 7%float 1.5%float 8%float 3%float
  = Ok [0%float; (-1)%float].
Proof. split; vm_compute; reflexivity. Qed.

(* ================================================================== *)
(** ** The two overwrites of [Y2Z] *)

Section Y2ZPoint.
Context {D : Type} {A : Arith D}.
Local Open Scope dbl_scope.

Lemma Y2Z_pointwise (y PCI : list D)
    zamin yamin zpmin ypmin zpmax ypmax zamax yamax r :
  Y2Z y PCI zamin yamin zpmin ypmin zpmax ypmax zamax yamax r
  = (H <- recurrentH y (len PCI - 1) ;;
     Zh <- expand_anamor PCI H r ;;
     rewrite_each y
       (Y2Z_point zamin yamin zpmin ypmin zpmax ypmax zamax yamax) Zh).
Proof.
  unfold Y2Z. destruct (recurrentH y _) as [H|e]; cbn [bind]; [|reflexivity].
  destruct (expand_anamor PCI H r) as [Zh|e]; cbn [bind]; [|reflexivity].
  unfold rewrite_each. apply for_each_ext. intros k s _.
  destruct (getitem y k) as [yi|e]; cbn [bind]; [|reflexivity].
  unfold Y2Z_point.
  destruct (yi <=? ypmin); cbn [bind].
  { destruct (np_interp yi _ _); reflexivity. }
  destruct (ypmax <=? yi); cbn [bind]; [|reflexivity].
  destruct (np_interp yi _ _); reflexivity.
Qed.

Lemma Y2Z_point_total zamin yamin zpmin ypmin zpmax ypmax zamax yamax yi :
  exists o,
    Y2Z_point zamin yamin zpmin ypmin zpmax ypmax zamax yamax yi = Ok o.
Proof.
  unfold Y2Z_point.
  destruct (yi <=? ypmin).
  { destruct (np_interp_total yi [yamin; ypmin] [zamin; zpmin])
      as (v & ->); cbn; try lia; eauto. }
  destruct (ypmax <=? yi); [|eauto].
  destruct (np_interp_total yi [ypmax; yamax] [zpmax; zamax])
    as (v & ->); cbn; try lia; eauto.
Qed.

End Y2ZPoint.

(** In real arithmetic: the run of [Y2Z] and its elements, rule by rule in
    the order of the source. *)
Lemma Y2Z_run (y PCI : list R)
    (zamin yamin zpmin ypmin zpmax ypmax zamax yamax r : R) :
  2 <= len PCI ->
  exists H Zraw Zh,
    recurrentH y (len PCI - 1) = Ok H /\
    expand_anamor PCI H r = Ok Zraw /\
    Y2Z y PCI zamin yamin zpmin ypmin zpmax ypmax zamax yamax r = Ok Zh /\
    len Zh = len y /\
    forall i, 0 <= i < len y ->
      ((item y i <= ypmin)%R ->
       np_interp (item y i) [yamin; ypmin] [zamin; zpmin] = Ok (item Zh i)) /\
      ((ypmin < item y i)%R -> (ypmax <= item y i)%R ->
       np_interp (item y i) [ypmax; yamax] [zpmax; zamax] = Ok (item Zh i)) /\
      ((ypmin < item y i < ypmax)%R -> item Zh i = item Zraw i).
Proof.
  intros HP.
  destruct (recurrentH_run y (len PCI - 1)) as (H & HH & Hr & Hc & Hwf & _);
    [lia|].
  destruct (expand_anamor_run PCI H r (len PCI - 1) Hwf)
    as (Zraw & HZ & Hlen & _); [lia | lia | lia |].
  rewrite Hc in Hlen.
  destruct (rewrite_each_total y
              (Y2Z_point zamin yamin zpmin ypmin zpmax ypmax zamax yamax)
              Zraw Hlen) as (Zh & Hrun).
  { intros i Hi. apply Y2Z_point_total. }
  destruct (rewrite_each_returned _ _ _ _ Hlen Hrun) as (HlenZ & Hel).
  exists H, Zraw, Zh. split; [assumption|]. split; [assumption|]. split.
  { rewrite Y2Z_pointwise, HH. cbn [bind]. rewrite HZ. exact Hrun. }
  split; [assumption|].
  intros i Hi. destruct (Hel i Hi) as (o & Ho & Hv).
  unfold Y2Z_point in Ho. cbn [dleb ideal] in Ho.
  destruct (Rleb (item y i) ypmin) eqn:E1;
    [apply Rleb_true in E1 | apply Rleb_false in E1].
  - inv_bind Ho. injection Ho as <-. subst.
    split; [intros _; assumption|]. split; intros; lra.
  - destruct (Rleb ypmax (item y i)) eqn:E2;
      [apply Rleb_true in E2 | apply Rleb_false in E2].
    + inv_bind Ho. injection Ho as <-. subst.
      split; [intros; lra|]. split; [intros _ _; assumption | intros; lra].
    + injection Ho as <-.
      split; [intros; lra|]. split; [intros; lra | intros _; assumption].
Qed.

(* ================================================================== *)
(** ** Theorems on [Y2Z] *)

(** C5, as amended.  [Y2Z] computes
    [Z = expand_anamor(PCI, recurrentH(y, K), r)] with [K = len(PCI) - 1];
    every element with [y[i] <= ypmin] is overwritten with the interpolation
    through [(yamin, zamin)] and [(ypmin, zpmin)]; every element with
    [y[i] >= ypmax] that is not already taken by the first rule
    ([y[i] > ypmin]) is overwritten with the interpolation through
    [(ypmax, zpmax)] and [(yamax, zamax)]; every element with
    [ypmin < y[i] < ypmax] keeps the value of the expansion.  (Real
    arithmetic; the call returns whenever [PCI] has two entries or more.) *)
Theorem Y2Z_overwrites :
  forall (y PCI : list R)
         (zamin yamin zpmin ypmin zpmax ypmax zamax yamax r : R),
    2 <= len PCI ->
    exists H Zraw Zh,
      recurrentH y (len PCI - 1) = Ok H /\
      expand_anamor PCI H r = Ok Zraw /\
      Y2Z y PCI zamin yamin zpmin ypmin zpmax ypmax zamax yamax r = Ok Zh /\
      len Zh = len y /\
      forall i, 0 <= i < len y ->
        ((item y i <= ypmin)%R ->
         np_interp (item y i) [yamin; ypmin] [zamin; zpmin]
         = Ok (item Zh i)) /\
        ((ypmin < item y i)%R -> (ypmax <= item y i)%R ->
         np_interp (item y i) [ypmax; yamax] [zpmax; zamax]
         = Ok (item Zh i)) /\
        ((ypmin < item y i < ypmax)%R -> item Zh i = item Zraw i).
Proof. intros. now apply Y2Z_run. Qed.

Lemma Y2Z_overwrites_witness :
  2 <= len [1; 2]%R /\
  exists Zh,
    Y2Z [0; 1]%R [1; 2]%R 0%R (-2)%R 1%R (-1)%R 3%R 1%R 4%R 2%R 1%R = Ok Zh /\
    len Zh = 2.
Proof.
  split; [cbn; lia|].
  destruct (Y2Z_overwrites [0; 1]%R [1; 2]%R
              0%R (-2)%R 1%R (-1)%R 3%R 1%R 4%R 2%R 1%R ltac:(cbn; lia))
    as (H & Zraw & Zh & _ & _ & Hrun & Hlen & _).
  exists Zh. split; assumption.
Defined.

(** C5 as stated fails when the practical bounds overlap: with
    [ypmax <= y[i] <= ypmin] the element satisfies [y[i] >= ypmax], but the
    first rule has taken it and it gets the lower interpolation.  Here
    [y = [0]], [ypmin = 1], [ypmax = -1]: the upper interpolation is [20],
    the call returns [1]. *)
Lemma Y2Z_overlap_counterexample :
  exists Zh,
    Y2Z [0]%R [0; 0]%R 0%R (-1)%R 2%R 1%R 10%R (-1)%R 30%R 1%R 1%R = Ok Zh /\
    (-1 <= item [0]%R 0)%R /\
    np_interp (item [0]%R 0) [-1; 1]%R [10; 30]%R = Ok 20%R /\
    item Zh 0 = 1%R /\ item Zh 0 <> 20%R.
Proof.
  destruct (Y2Z_run [0]%R [0; 0]%R 0%R (-1)%R 2%R 1%R 10%R (-1)%R 30%R 1%R 1%R)
    as (H & Zraw & Zh & _ & _ & Hrun & _ & Hel); [cbn; lia|].
  destruct (Hel 0 ltac:(cbn; lia)) as (Hlo & _).
  change (item [0%R] 0) with 0%R in *.
  rewrite np_interp_segment in Hlo by lra.
  assert (Hv : item Zh 0 = 1%R).
  { specialize (Hlo ltac:(lra)). injection Hlo as <-. unfold line. field. }
  exists Zh. split; [exact Hrun|]. split; [lra|]. split.
  - rewrite np_interp_segment by lra. f_equal. unfold line. field.
  - split; [exact Hv | rewrite Hv; lra].
Qed.

(** The same call on IEEE doubles. *)
Example Y2Z_overlap_sample :
  Y2Z [0]%float [0; 0]%float 0%float (-1)%float 2%float 1%float
    10%float (-1)%float 30%float 1%float 1%float = Ok [1%float].
Proof. vm_compute. reflexivity. Qed.

(** C9, as amended.  With anchors ordered [yamin < ypmin], [ypmax < yamax]
    and [ypmin <= yamax], every element with [y[i] < yamin] comes back as
    [zamin] and every element with [y[i] > yamax] comes back as [zamax]:
    outside the authorized bounds the interpolation clamps to the anchor.
    (Real arithmetic; the call returns whenever [PCI] has two entries or
    more.) *)
Theorem Y2Z_clamps_outside :
  forall (y PCI : list R)
         (zamin yamin zpmin ypmin zpmax ypmax zamax yamax r : R),
    2 <= len PCI ->
    (yamin < ypmin)%R -> (ypmax < yamax)%R -> (ypmin <= yamax)%R ->
    exists Zh,
      Y2Z y PCI zamin yamin zpmin ypmin zpmax ypmax zamax yamax r = Ok Zh /\
      len Zh = len y /\
      forall i, 0 <= i < len y ->
        ((item y i < yamin)%R -> item Zh i = zamin) /\
        ((yamax < item y i)%R -> item Zh i = zamax).
Proof.
  intros y PCI zamin yamin zpmin ypmin zpmax ypmax zamax yamax r HP Hlo Hhi Hx.
  destruct (Y2Z_run y PCI zamin yamin zpmin ypmin zpmax ypmax zamax yamax r HP)
    as (H & Zraw & Zh & _ & _ & Hrun & Hlen & Hel).
  exists Zh. split; [assumption|]. split; [assumption|].
  intros i Hi. destruct (Hel i Hi) as (Hl & Hu & _). split.
  - intros Hy. specialize (Hl ltac:(lra)).
    rewrite np_interp_left in Hl by lra. congruence.
  - intros Hy. specialize (Hu ltac:(lra) ltac:(lra)).
    rewrite np_interp_right in Hu by lra. congruence.
Qed.

Lemma Y2Z_clamps_outside_witness :
  (-2 < -1)%R /\ (1 < 2)%R /\ (-1 <= 2)%R /\
  exists Zh,
    Y2Z [-3; 3]%R [1; 2]%R 0%R (-2)%R 1%R (-1)%R 3%R 1%R 4%R 2%R 1%R = Ok Zh /\
    len Zh = 2.
Proof.
  repeat (split; [lra|]).
  destruct (Y2Z_clamps_outside [-3; 3]%R [1; 2]%R
              0%R (-2)%R 1%R (-1)%R 3%R 1%R 4%R 2%R 1%R
              ltac:(cbn; lia) ltac:(lra) ltac:(lra) ltac:(lra))
    as (Zh & Hrun & Hlen & _).
  exists Zh. split; assumption.
Defined.

(** C9 as stated fails when [ypmin] lies above [yamax]: an element above
    [yamax] can still be at or below [ypmin], and then the lower
    interpolation is applied.  Here [yamin = 0 < ypmin = 10] and
    [ypmax = 1 < yamax = 2]; [y = [5]] is above [yamax] and comes back as
    [5], not as [zamax = 100]. *)
Lemma Y2Z_crossed_bounds_counterexample :
  (0 < 10)%R /\ (1 < 2)%R /\ (2 < item [5]%R 0)%R /\
  exists Zh,
    Y2Z [5]%R [0; 0]%R 0%R 0%R 10%R 10%R 50%R 1%R 100%R 2%R 1%R = Ok Zh /\
    item Zh 0 = 5%R /\ item Zh 0 <> 100%R.
Proof.
  change (item [5%R] 0) with 5%R.
  repeat (split; [lra|]).
  destruct (Y2Z_run [5]%R [0; 0]%R 0%R 0%R 10%R 10%R 50%R 1%R 100%R 2%R 1%R)
    as (H & Zraw & Zh & _ & _ & Hrun & _ & Hel); [cbn; lia|].
  destruct (Hel 0 ltac:(cbn; lia)) as (Hlo & _).
  change (item [5%R] 0) with 5%R in *.
  rewrite np_interp_segment in Hlo by lra.
  assert (Hv : item Zh 0 = 5%R).
  { specialize (Hlo ltac:(lra)). injection Hlo as <-. unfold line. field. }
  exists Zh. split; [exact Hrun|]. split; [exact Hv | rewrite Hv; lra].
Qed.

(** The same call on IEEE doubles. *)
Example Y2Z_crossed_bounds_sample :
  Y2Z [5]%float [0; 0]%float 0%float 0%float 10%float 10%float
    50%float 1%float 100%float 2%float 1%float = Ok [5%float].
Proof. vm_compute. reflexivity. Qed.

(* ================================================================== *)
(** ** The first coefficient of [fit_PCI] *)

Section FitPCI.
Context {D : Type} {A : Arith D} {E : Exponential D}.
Local Open Scope dbl_scope.

Lemma getitem2_Ok (H : matrix D) p i :
  wf_matrix H -> (0 <= p < nrows H)%Z -> (0 <= i < ncols H)%Z ->
  getitem2 H p i = Ok (item2 H p i).
Proof.
  intros Hwf Hp Hi. unfold getitem2.
  rewrite getrow_row by assumption. cbn [bind].
  rewrite getitem_item by (rewrite len_row_wf; assumption).
  reflexivity.
Qed.

(** Whatever [meanz] is, [fit_PCI] returns, and the first coefficient is
    the mean computed from [z]. *)
Lemma fit_PCI_run (z y : list D) (H : matrix D) (meanz : D) :
  wf_matrix H -> len y = len z -> len z = ncols H -> (1 <= nrows H)%Z ->
  exists PCI g,
    fit_PCI z y H meanz = Ok (PCI, g) /\
    len PCI = nrows H /\ len g = ncols H /\
    item PCI 0 = np_mean z.
Proof.
  intros Hwf Hy Hz Hn. unfold fit_PCI.
  replace ((len y =? len z)%Z && (len z =? ncols H)%Z) with true
    by (symmetry; apply andb_true_intro; split; lia).
  cbn [assert bind].
  pose proof (proj1 Hwf) as Hm.
  rewrite setitem_Ok by (rewrite len_full; lia). cbn [bind].
  set (PCI0 := replace_nth (Z.to_nat 0) (np_mean z) (full (nrows H) #0)).
  set (inner := fun (p i : Z) (st : list D * list D) =>
                  let '(PCI, g) := st in
                  yi <- getitem y i ;;
                  g <- setitem g i (stnormpdf yi) ;;
                  c <- getitem PCI p ;;
                  zl <- getitem z (i - 1)%Z ;;
                  zi <- getitem z i ;;
                  h <- getitem2 H (p - 1)%Z i ;;
                  gi <- getitem g i ;;
                  PCI <- setitem PCI p
                           (c + (zl - zi) * #1 / dsqrt #p * h * gi) ;;
                  Ok (PCI, g)).
  set (Inv := fun (st : list D * list D) =>
                len (fst st) = nrows H /\ len (snd st) = ncols H /\
                item (fst st) 0 = np_mean z).
  assert (Hinner : forall p st, (1 <= p < nrows H)%Z -> Inv st ->
            exists st', for_each (range_up 1 (ncols H)) (inner p) st = Ok st'
                        /\ Inv st').
  { intros p st Hp Hst.
    destruct (Z_le_gt_dec (ncols H) 1) as [Hsmall|Hbig].
    { rewrite range_up_nil by lia. exists st. split; [reflexivity|assumption]. }
    destruct (@for_each_invariant (list D * list D) (fun _ st => Inv st)
                (inner p) (Z.to_nat (ncols H - 1)) 1 (ncols H) st eq_refl)
      as (st' & Hrun & Hst'); [lia | assumption | | eauto].
    intros i [PCI g] Hi (HP & Hg & H0). cbn [fst snd] in *.
    unfold inner.
    rewrite (getitem_item y) by lia. cbn [bind].
    rewrite setitem_Ok by lia. cbn [bind].
    rewrite (getitem_item PCI) by lia. cbn [bind].
    rewrite !(getitem_item z) by lia. cbn [bind].
    rewrite getitem2_Ok by (assumption || lia). cbn [bind].
    rewrite getitem_item by (rewrite len_replace_nth; lia). cbn [bind].
    rewrite setitem_Ok by lia. cbn [bind].
    eexists. split; [reflexivity|]. unfold Inv. cbn [fst snd].
    rewrite !len_replace_nth. repeat split; try assumption.
    rewrite item_replace_other by lia. assumption. }
  destruct (@for_each_invariant (list D * list D) (fun _ st => Inv st)
              (fun p st => for_each (range_up 1 (ncols H)) (inner p) st)
              (Z.to_nat (nrows H - 1)) 1 (nrows H)
              (PCI0, full (ncols H) #0) eq_refl)
    as ([PCI g] & Hrun & HP & Hg & H0).
  - lia.
  - unfold Inv, PCI0. cbn [fst snd]. rewrite len_replace_nth.
    rewrite !len_full by lia. repeat split.
    apply (item_replace_same (full (nrows H) #0) 0).
    rewrite len_full; lia.
  - intros p st Hp Hst. apply Hinner; assumption.
  - exists PCI, g. cbn [fst snd] in *. repeat split; assumption.
Qed.

End FitPCI.

(** C2 (defect of the code).  The docstring of [fit_PCI] and the
    specification promise that a supplied [meanz] that is not NaN becomes
    [PCI[0]].  The code replaces a NaN [meanz] by the computed mean and then
    never uses [meanz]: for every [meanz], NaN or not, the call returns and
    [PCI[0]] is [np.mean(z)].  This holds in every arithmetic of doubles. *)
Theorem fit_PCI_first_coefficient :
  forall (D : Type) (A : Arith D) (E : Exponential D)
         (z y : list D) (H : matrix D) (meanz : D),
    wf_matrix H -> len y = len z -> len z = ncols H -> 1 <= nrows H ->
    exists PCI g,
      fit_PCI z y H meanz = Ok (PCI, g) /\
      len PCI = nrows H /\
      item PCI 0 = np_mean z.
Proof.
  intros D A E z y H meanz Hwf Hy Hz Hn.
  destruct (fit_PCI_run z y H meanz Hwf Hy Hz Hn)
    as (PCI & g & Hrun & HP & _ & H0).
  exists PCI, g. repeat split; assumption.
Qed.

(** The failing input: [meanz = 5.0] is supplied, [PCI[0]] comes back as
    [np.mean([1, 3]) = 2.0]. *)
Lemma fit_PCI_first_coefficient_witness :
  exists PCI g,
    fit_PCI fit_z fit_y fit_H 5%R = Ok (PCI, g) /\
    disnan 5%R = false /\
    item PCI 0 = 2%R /\ item PCI 0 <> 5%R.
Proof.
  assert (Hwf : wf_matrix fit_H).
  { split; [cbn; lia | repeat constructor]. }
  destruct (fit_PCI_first_coefficient R ideal ideal_exp fit_z fit_y fit_H 5%R
              Hwf eq_refl eq_refl ltac:(cbn; lia))
    as (PCI & g & Hrun & _ & H0).
  assert (Hmean : np_mean fit_z = 2%R).
  { cbv -[Rplus Rminus Rmult Rdiv Rinv Ropp IZR]. lra. }
  exists PCI, g. split; [exact Hrun|]. split; [reflexivity|].
  rewrite H0, Hmean. split; [reflexivity | lra].
Defined.

(* ================================================================== *)
(** ** The support-effect equation *)

Lemma range_up_snoc a b : a <= b -> range_up a (b + 1) = range_up a b ++ [b].
Proof.
  intros H. unfold range_up.
  replace (Z.to_nat (b + 1 - a)) with (S (Z.to_nat (b - a))) by lia.
  rewrite seq_S, map_app. cbn [map]. do 2 f_equal. lia.
Qed.

Lemma sum_1_to_ext K f g :
  (forall p, (1 <= p <= K)%nat -> f p = g p) -> sum_1_to K f = sum_1_to K g.
Proof.
  induction K as [|K IH]; intros Hfg; cbn; [reflexivity|].
  rewrite IH by (intros p Hp; apply Hfg; lia).
  rewrite Hfg by lia. reflexivity.
Qed.

(** In exact arithmetic (the accumulator not rounded) the loop of [f_var_Zv]
    computes [sum_{p=1..K} PCI[p]^2 * r^(2p) - Var_Zv]. *)
Lemma f_var_Zv_real (r : R) (PCI : list R) (V : R) :
  f_var_Zv r PCI V =
  (sum_1_to (Z.to_nat (len PCI - 1))
     (fun p => item PCI (Z.of_nat p) ^ 2 * r ^ (2 * p)) - V)%R.
Proof.
  unfold f_var_Zv. cbn [dsingle dsub dadd dmul dpow dof_Z ideal].
  f_equal.
  assert (Hgen : forall K : nat,
    fold_left
      (fun a i => (a + item PCI i ^ Z.to_nat 2 * r ^ Z.to_nat (2 * i))%R)
      (range_up 1 (Z.of_nat K + 1)) 0%R
    = sum_1_to K (fun p => (item PCI (Z.of_nat p) ^ 2 * r ^ (2 * p))%R)).
  { induction K as [|K IH].
    - reflexivity.
    - replace (Z.of_nat (S K) + 1) with (Z.of_nat K + 1 + 1) by lia.
      rewrite range_up_snoc by lia. rewrite fold_left_app, IH.
      cbn [fold_left sum_1_to].
      replace (Z.of_nat K + 1) with (Z.of_nat (S K)) by lia.
      replace (Z.to_nat (2 * Z.of_nat (S K))) with (2 * S K)%nat by lia.
      reflexivity. }
  destruct (Z_le_gt_dec (len PCI) 0) as [Hz|Hpos].
  - rewrite range_up_nil by lia.
    replace (Z.to_nat (len PCI - 1)) with O by lia. reflexivity.
  - specialize (Hgen (Z.to_nat (len PCI - 1))).
    replace (Z.of_nat (Z.to_nat (len PCI - 1)) + 1) with (len PCI) in Hgen
      by lia.
    exact Hgen.
Qed.

Lemma fold_left_Rplus_acc (l : list R) (a : R) :
  fold_left Rplus l a = (a + fold_left Rplus l 0)%R.
Proof.
  revert a. induction l as [|x l IH]; intros a; cbn [fold_left]; [lra|].
  rewrite (IH (a + x)%R), (IH (0 + x)%R). lra.
Qed.

(** In real arithmetic [var_PCI] is [sum_{p=1..K} PCI[p]^2]. *)
Lemma var_PCI_real (PCI : list R) :
  var_PCI PCI =
  sum_1_to (Z.to_nat (len PCI - 1)) (fun p => (item PCI (Z.of_nat p) ^ 2)%R).
Proof.
  unfold var_PCI, np_sum. cbn [dadd dpow dof_Z ideal].
  destruct PCI as [|c0 t]; [reflexivity|].
  cbn [tl]. unfold len. cbn [length].
  replace (Z.to_nat (Z.of_nat (S (length t)) - 1)) with (length t) by lia.
  induction t as [|x t IH] using rev_ind; [reflexivity|].
  rewrite map_app, fold_left_app, length_app. cbn [map fold_left length].
  replace (length t + 1)%nat with (S (length t)) by lia.
  cbn [sum_1_to]. rewrite IH. f_equal.
  - apply sum_1_to_ext. intros p Hp. unfold item.
    rewrite !Nat2Z.id. destruct p as [|p]; [lia|]. cbn [nth].
    rewrite app_nth1 by lia. reflexivity.
  - unfold item. rewrite Nat2Z.id. cbn [nth].
    rewrite app_nth2 by lia. replace (length t - length t)%nat with O by lia.
    reflexivity.
Qed.

Section SolverFacts.
Variable brent_iterate : (R -> R) -> R -> R -> R.

(** Exact arithmetic, target [Var_Zv = sum PCI[1:]^2 > 0]: the residual
    vanishes at [1], and [get_r] returns [1]. *)
Lemma get_r_real_one (PCI : list R) :
  (0 < var_PCI PCI)%R -> get_r brent_iterate (var_PCI PCI) PCI = Ok 1%R.
Proof.
  intros Hpos. unfold get_r, brentq.
  assert (H0 : f_var_Zv (#0)%D PCI (var_PCI PCI) = (- var_PCI PCI)%R).
  { rewrite f_var_Zv_real. rewrite sum_1_to_zero; [lra|].
    intros p Hp. cbn [dof_Z ideal]. rewrite (pow_i (2 * p)%nat) by lia. ring. }
  assert (H1 : f_var_Zv (#1)%D PCI (var_PCI PCI) = 0%R).
  { rewrite f_var_Zv_real, var_PCI_real.
    rewrite (sum_1_to_ext _
               (fun p => (item PCI (Z.of_nat p) ^ 2 * (#1)%D ^ (2 * p))%R)
               (fun p => (item PCI (Z.of_nat p) ^ 2)%R)); [lra|].
    intros p Hp. cbn [dof_Z ideal]. rewrite pow1. ring. }
  rewrite H0, H1. cbn [dltb deqb dmul dof_Z ideal].
  real_tests. reflexivity.
Qed.

(** Exact arithmetic, target [Var_Zv = 0]: the residual vanishes at [0], and
    [get_r] returns [0]. *)
Lemma get_r_real_zero (PCI : list R) :
  get_r brent_iterate 0%R PCI = Ok 0%R.
Proof.
  unfold get_r, brentq.
  assert (H0 : f_var_Zv (#0)%D PCI 0%R = 0%R).
  { rewrite f_var_Zv_real. rewrite sum_1_to_zero; [lra|].
    intros p Hp. cbn [dof_Z ideal]. rewrite (pow_i (2 * p)%nat) by lia. ring. }
  rewrite H0. cbn [dltb deqb dmul dof_Z ideal].
  real_tests. reflexivity.
Qed.

End SolverFacts.

(** Whatever the arithmetic, a residual with one strict sign at both ends of
    the bracket stops [get_r] with the root-finder's [ValueError]. *)
Lemma get_r_same_sign (D : Type) (A : Arith D)
    (brent_iterate : (D -> D) -> D -> D -> D) (Var_Zv : D) (PCI : list D) :
  (f_var_Zv #0 PCI Var_Zv * f_var_Zv #1 PCI Var_Zv >? #0)%D = true ->
  get_r brent_iterate Var_Zv PCI = Raise ValueError.
Proof. intros H. unfold get_r, brentq. now rewrite H. Qed.

(* ================================================================== *)
(** ** [get_r] on IEEE doubles *)

(** C6 (defect of the code).  The specification asks that [get_r] called
    with [Var_Zv = sum PCI[1:]^2] return [r] close to [1].  The accumulator
    of [f_var_Zv] is a [cdef float]: at [r = 1] it holds the sum rounded to
    single precision, here [1 + 2^-12], so the residual is [-2^-26] instead
    of [0]; at [r = 0] the residual is [-Var_Zv].  Both are negative, and
    the root-finder stops with [ValueError] whatever its iteration is. *)
Theorem get_r_single_precision_bracket :
  forall brent_iterate : (float -> float) -> float -> float -> float,
    var_PCI block_PCI = 0x1.0010004p0%float /\
    f_var_Zv 0%float block_PCI (var_PCI block_PCI) = (-0x1.0010004p0)%float /\
    f_var_Zv 1%float block_PCI (var_PCI block_PCI) = (-0x1p-26)%float /\
    get_r brent_iterate (var_PCI block_PCI) block_PCI = Raise ValueError.
Proof.
  intros brent_iterate. repeat split; vm_compute; reflexivity.
Qed.

(** The same with [PCI = [0, 0.1]]: the residual at [1] is about [-2.2e-10]. *)
Example get_r_one_tenth :
  forall brent_iterate : (float -> float) -> float -> float -> float,
    let PCI := [0; 0x1.999999999999ap-4]%float in
    (f_var_Zv 1%float PCI (var_PCI PCI) <? 0)%float = true /\
    (f_var_Zv 0%float PCI (var_PCI PCI) <? 0)%float = true /\
    get_r brent_iterate (var_PCI PCI) PCI = Raise ValueError.
Proof.
  intros brent_iterate. repeat split; vm_compute; reflexivity.
Qed.

(** When the sum of squares is a single-precision number the call returns
    [1]; with [Var_Zv = 0] it returns [0]. *)
Example get_r_exact_cases :
  forall brent_iterate : (float -> float) -> float -> float -> float,
    get_r brent_iterate (var_PCI [0; 0.5; 0.25]%float) [0; 0.5; 0.25]%float
    = Ok 1%float /\
    get_r brent_iterate 0%float block_PCI = Ok 0%float.
Proof.
  intros brent_iterate. repeat split; vm_compute; reflexivity.
Qed.

(* ================================================================== *)
(** * Further properties *)

(* ================================================================== *)
(** ** The columns of [recurrentH] *)

Lemma hermite_step_eq {D} {A : Arith D} (y : D) (k : Z) :
  1 <= k ->
  hermite y (Z.to_nat (k + 1)) =
  (#(-1) / dsqrt #(k + 1) * y * hermite y (Z.to_nat k)
   - dsqrt (#k / #(k + 1)) * hermite y (Z.to_nat (k - 1)))%D.
Proof.
  intros Hk.
  replace (Z.to_nat (k + 1)) with (S (S (Z.to_nat (k - 1)))) by lia.
  replace (Z.to_nat k) with (S (Z.to_nat (k - 1))) by lia.
  cbn [hermite].
  replace (Z.of_nat (S (Z.to_nat (k - 1)))) with k by lia.
  reflexivity.
Qed.

Lemma recurrentH_columns_run {D} {A : Arith D} (y : list D) (K : Z) :
  1 <= K ->
  exists H,
    recurrentH y K = Ok H /\ nrows H = K + 1 /\ ncols H = len y /\
    wf_matrix H /\
    forall k n, 0 <= k <= K -> 0 <= n < len y ->
      item2 H k n = hermite (item y n) (Z.to_nat k).
Proof.
  intros HK. unfold recurrentH.
  replace (1 <=? K) with true by lia. cbn [assert bind].
  pose proof (len_nonneg y) as HN.
  set (ones := repeat (full (len y) (#1)%D) (Z.to_nat (K + 1))).
  assert (Hn0 : nrows (Matrix (len y) ones) = K + 1).
  { unfold nrows, ones. cbn. rewrite repeat_length. lia. }
  rewrite setrow_Ok by lia. cbn [bind ncols rows].
  destruct (@for_each_invariant (matrix D)
              (fun k H =>
                 ncols H = len y /\ nrows H = K + 1 /\
                 (forall p, 0 <= p < K + 1 -> len (row H p) = len y) /\
                 forall m n, 0 <= m <= k -> 0 <= n < len y ->
                   item2 H m n = hermite (item y n) (Z.to_nat m))
              (fun k H =>
                 Hk <- getrow H k ;;
                 Hk1 <- getrow H (k - 1) ;;
                 setrow H (k + 1)
                   (zip_with dsub
                      (zip_with dmul
                         (map (fun v => (#(-1) / dsqrt #(k + 1) * v)%D) y) Hk)
                      (map (fun h => (dsqrt (#k / #(k + 1)) * h)%D) Hk1)))
              (Z.to_nat (K - 1)) 1 K
              (Matrix (len y) (replace_nth (Z.to_nat 1) (map dopp y) ones))
              eq_refl)
    as (H & Hrun & Hc & Hr & Hrows & Hrec).
  - lia.
  - cbn beta. split; [reflexivity|]. split.
    { rewrite nrows_replace. exact Hn0. }
    split.
    { intros p Hp. destruct (Z.eq_dec p 1) as [->|Hne].
      - rewrite row_replace_same by (unfold nrows in Hn0; cbn in Hn0; lia).
        apply len_map.
      - rewrite row_replace_other by lia. unfold ones.
        rewrite row_ones by lia. apply len_full. lia. }
    intros m n Hm Hn. rewrite item2_row.
    destruct (Z.eq_dec m 1) as [->|Hne].
    + rewrite row_replace_same by (unfold nrows in Hn0; cbn in Hn0; lia).
      rewrite item_map by lia. reflexivity.
    + assert (m = 0) by lia. subst m.
      rewrite row_replace_other by lia. unfold ones.
      rewrite row_ones by lia. rewrite item_full by lia. reflexivity.
  - cbn beta. intros k H Hk (Hc & Hr & Hrows & Hrec).
    rewrite !getrow_row by lia. cbn [bind].
    rewrite setrow_Ok by lia.
    eexists. split; [reflexivity|].
    destruct H as [c rs]. cbn [ncols rows] in *.
    assert (Hlen : 0 <= k + 1 < Z.of_nat (length rs))
      by (unfold nrows in Hr; cbn in Hr; lia).
    assert (Lk : len (row (Matrix c rs) k) = len y) by (apply Hrows; lia).
    assert (Lk1 : len (row (Matrix c rs) (k - 1)) = len y)
      by (apply Hrows; lia).
    assert (Lm : len (zip_with dmul
                        (map (fun v => (#(-1) / dsqrt #(k + 1) * v)%D) y)
                        (row (Matrix c rs) k)) = len y).
    { rewrite len_zip_with; rewrite len_map; congruence. }
    split; [assumption|]. split; [now rewrite nrows_replace|]. split.
    { intros p Hp. destruct (Z.eq_dec p (k + 1)) as [->|Hne].
      - rewrite row_replace_same by lia.
        rewrite len_zip_with; rewrite ?len_map; lia.
      - rewrite row_replace_other by lia. now apply Hrows. }
    intros m n Hm Hn. rewrite item2_row.
    destruct (Z.eq_dec m (k + 1)) as [->|Hne].
    + rewrite row_replace_same by lia.
      rewrite item_zip_with by (rewrite ?len_map; lia).
      rewrite item_zip_with by (rewrite len_map; lia).
      rewrite !item_map by lia.
      rewrite <- !item2_row. rewrite !Hrec by lia.
      symmetry. apply hermite_step_eq. lia.
    + rewrite row_replace_other by lia. rewrite <- item2_row.
      apply Hrec; lia.
  - exists H. split; [assumption|]. split; [assumption|].
    split; [assumption|]. split.
    + apply wf_matrix_rows; [lia|]. intros p Hp. rewrite Hc. apply Hrows. lia.
    + intros k n Hk Hn. apply Hrec; lia.
Qed.

Lemma hermite_SS {D} {A : Arith D} (y : D) (k : nat) :
  hermite y (S (S k)) =
  (#(-1) / dsqrt #(Z.of_nat (S k) + 1) * y * hermite y (S k)
   - dsqrt (#(Z.of_nat (S k)) / #(Z.of_nat (S k) + 1)) * hermite y k)%D.
Proof. reflexivity. Qed.

Lemma He_SS (y : R) (k : nat) :
  He y (S (S k)) = (y * He y (S k) - INR (S k) * He y k)%R.
Proof. reflexivity. Qed.

Lemma hermite_parity (y : R) (k : nat) :
  hermite (- y)%R k = ((-1) ^ k * hermite y k)%R.
Proof.
  assert (H : forall k,
             hermite (- y)%R k = ((-1) ^ k * hermite y k)%R /\
             hermite (- y)%R (S k) = ((-1) ^ S k * hermite y (S k))%R).
  { clear k. induction k as [|k [IH0 IH1]].
    - split; cbn; ring.
    - split; [exact IH1|].
      rewrite !hermite_SS, IH0, IH1.
      cbn [dsub dmul ddiv dsqrt dof_Z dopp ideal pow]. unfold Rdiv. ring. }
  apply H.
Qed.

Lemma sqrt_fact_pos (k : nat) : (0 < R_sqrt.sqrt (INR (fact k)))%R.
Proof. apply sqrt_lt_R0. apply lt_0_INR. apply lt_O_fact. Qed.

Lemma hermite_He (y : R) (k : nat) :
  hermite y k = ((-1) ^ k * He y k / R_sqrt.sqrt (INR (fact k)))%R.
Proof.
  assert (H : forall k,
             hermite y k = ((-1) ^ k * He y k / R_sqrt.sqrt (INR (fact k)))%R /\
             hermite y (S k)
             = ((-1) ^ S k * He y (S k) / R_sqrt.sqrt (INR (fact (S k))))%R).
  { clear k. induction k as [|k [IH0 IH1]].
    - split; cbn; rewrite ?Rmult_1_r, ?sqrt_1; field.
    - split; [exact IH1|].
      rewrite hermite_SS, He_SS, IH0, IH1.
      cbn [dsub dmul ddiv dsqrt dof_Z ideal].
      replace (IZR (Z.of_nat (S k) + 1)) with (INR (S (S k)))
        by (rewrite INR_IZR_INZ; f_equal; lia).
      replace (IZR (Z.of_nat (S k))) with (INR (S k))
        by (rewrite INR_IZR_INZ; reflexivity).
      assert (Pa : (0 < INR (S k))%R) by (apply lt_0_INR; lia).
      assert (Pb : (0 < INR (S (S k)))%R) by (apply lt_0_INR; lia).
      rewrite (sqrt_div (INR (S k)) (INR (S (S k)))) by lra.
      replace (fact (S (S k))) with (S (S k) * fact (S k))%nat by reflexivity.
      replace (fact (S k)) with (S k * fact k)%nat by reflexivity.
      rewrite !mult_INR.
      rewrite !sqrt_mult by
        (try apply Rmult_le_pos; apply pos_INR).
      pose proof (sqrt_fact_pos k) as PF.
      pose proof (sqrt_lt_R0 _ Pa) as PA.
      pose proof (sqrt_lt_R0 _ Pb) as PB.
      set (a := R_sqrt.sqrt (INR (S k))) in *.
      set (b := R_sqrt.sqrt (INR (S (S k)))) in *.
      set (f := R_sqrt.sqrt (INR (fact k))) in *.
      replace (INR (S k)) with (a * a)%R by (apply sqrt_sqrt; lra).
      cbn [pow]. field. repeat split; lra. }
  apply H.
Qed.

(** X1.  In every arithmetic of doubles and for [K >= 1], [recurrentH(y, K)]
    returns a [(K+1) x len(y)] matrix whose column [n] is the scalar
    recurrence [hermite] run on [y[n]] alone: [H[k, n] = hermite(y[n], k)]
    for every [k <= K]. *)
Theorem recurrentH_columnwise :
  forall (D : Type) (A : Arith D) (y : list D) (K : Z),
    1 <= K ->
    exists H,
      recurrentH y K = Ok H /\ nrows H = K + 1 /\ ncols H = len y /\
      forall k n, 0 <= k <= K -> 0 <= n < len y ->
        item2 H k n = hermite (item y n) (Z.to_nat k).
Proof.
  intros D A y K HK.
  destruct (recurrentH_columns_run y K HK) as (H & Hrun & Hr & Hc & _ & Hcol).
  exists H. repeat (split; [assumption|]). exact Hcol.
Qed.

Lemma recurrentH_columnwise_witness :
  exists H, recurrentH [0.5; 2]%float 3 = Ok H /\ nrows H = 3 + 1.
Proof.
  destruct (recurrentH_columnwise float binary64 [0.5; 2]%float 3 ltac:(lia))
    as (H & Hrun & Hr & _).
  exists H. split; assumption.
Defined.

(** X2.  The columns of [recurrentH] do not interact: column [n] of
    [recurrentH(y, K)] is the single column of [recurrentH([y[n]], K)], in
    every arithmetic of doubles. *)
Theorem recurrentH_column_independent :
  forall (D : Type) (A : Arith D) (y : list D) (K n : Z),
    1 <= K -> 0 <= n < len y ->
    exists H Hn,
      recurrentH y K = Ok H /\ recurrentH [item y n] K = Ok Hn /\
      forall k, 0 <= k <= K -> item2 H k n = item2 Hn k 0.
Proof.
  intros D A y K n HK Hn.
  destruct (recurrentH_columns_run y K HK) as (H & Hrun & _ & _ & _ & Hcol).
  destruct (recurrentH_columns_run [item y n] K HK)
    as (H1 & Hrun1 & _ & _ & _ & Hcol1).
  exists H, H1. repeat (split; [assumption|]).
  intros k Hk. rewrite Hcol by assumption.
  rewrite Hcol1 by (cbn; lia). reflexivity.
Qed.

Lemma recurrentH_column_independent_witness :
  exists H Hn,
    recurrentH [0.5; 2]%float 3 = Ok H /\
    recurrentH [item [0.5; 2]%float 1] 3 = Ok Hn /\
    item2 H 3 1 = item2 Hn 3 0.
Proof.
  destruct (recurrentH_column_independent float binary64 [0.5; 2]%float 3 1
              ltac:(lia) ltac:(cbn; lia)) as (H & Hn & Hrun & Hrun1 & Hcol).
  exists H, Hn. repeat (split; [assumption|]). apply Hcol. lia.
Defined.

(** X3.  Parity of the Hermite rows (real arithmetic): negating the input
    vector multiplies row [k] of [recurrentH] by [(-1)^k]. *)
Theorem recurrentH_parity :
  forall (y : list R) (K : Z),
    1 <= K ->
    exists H Hneg,
      recurrentH y K = Ok H /\ recurrentH (map Ropp y) K = Ok Hneg /\
      forall k n, 0 <= k <= K -> 0 <= n < len y ->
        item2 Hneg k n = ((-1) ^ Z.to_nat k * item2 H k n)%R.
Proof.
  intros y K HK.
  destruct (recurrentH_columns_run y K HK) as (H & Hrun & _ & _ & _ & Hcol).
  destruct (recurrentH_columns_run (map Ropp y) K HK)
    as (H1 & Hrun1 & _ & _ & _ & Hcol1).
  exists H, H1. repeat (split; [assumption|]).
  intros k n Hk Hn. rewrite Hcol by assumption.
  rewrite Hcol1 by (rewrite ?len_map; assumption).
  rewrite item_map by assumption. apply hermite_parity.
Qed.

Lemma recurrentH_parity_witness :
  exists H Hneg,
    recurrentH [0; 1]%R 3 = Ok H /\ recurrentH (map Ropp [0; 1]%R) 3 = Ok Hneg /\
    item2 Hneg 3 1 = ((-1) ^ 3 * item2 H 3 1)%R.
Proof.
  destruct (recurrentH_parity [0; 1]%R 3 ltac:(lia))
    as (H & Hneg & Hrun & Hrun1 & Hcol).
  exists H, Hneg. repeat (split; [assumption|]).
  apply (Hcol 3 1); cbn; lia.
Defined.

(** X4.  [recurrentH] computes the normalised Hermite polynomials (real
    arithmetic): [H[k, n] = (-1)^k * He_k(y[n]) / sqrt(k!)], where
    [He_0 = 1], [He_1 = y], [He_(k+1) = y * He_k - k * He_(k-1)]. *)
Theorem recurrentH_normalised_hermite :
  forall (y : list R) (K : Z),
    1 <= K ->
    exists H,
      recurrentH y K = Ok H /\
      forall k n, 0 <= k <= K -> 0 <= n < len y ->
        item2 H k n =
        ((-1) ^ Z.to_nat k * He (item y n) (Z.to_nat k)
         / R_sqrt.sqrt (INR (fact (Z.to_nat k))))%R.
Proof.
  intros y K HK.
  destruct (recurrentH_columns_run y K HK) as (H & Hrun & _ & _ & _ & Hcol).
  exists H. split; [assumption|].
  intros k n Hk Hn. rewrite Hcol by assumption. apply hermite_He.
Qed.

Lemma recurrentH_normalised_hermite_witness :
  exists H,
    recurrentH [0; 1]%R 3 = Ok H /\
    item2 H 2 1 =
    ((-1) ^ 2 * He (item [0; 1]%R 1) 2 / R_sqrt.sqrt (INR (fact 2)))%R.
Proof.
  destruct (recurrentH_normalised_hermite [0; 1]%R 3 ltac:(lia))
    as (H & Hrun & Hcol).
  exists H. split; [assumption|]. apply (Hcol 2 1); cbn; lia.
Defined.

(* ================================================================== *)
(** ** The fit of [fit_PCI] *)

Section FitPCIFacts.
Context {D : Type} {A : Arith D} {E : Exponential D}.
Local Open Scope dbl_scope.

Lemma fit_PCI_full_run (z y : list D) (H : matrix D) (meanz : D) :
  wf_matrix H -> len y = len z -> len z = ncols H -> (1 <= nrows H)%Z ->
  exists PCI g,
    fit_PCI z y H meanz = Ok (PCI, g) /\
    len PCI = nrows H /\ len g = ncols H /\
    item PCI 0 = np_mean z /\
    (forall p, (1 <= p < nrows H)%Z ->
       item PCI p = fit_sum z y H p (ncols H)) /\
    (forall i, (0 <= i < ncols H)%Z ->
       item g i = if (1 <=? i)%Z && (2 <=? nrows H)%Z
                  then stnormpdf (item y i) else #0).
Proof.
  intros Hwf Hy Hz Hn. unfold fit_PCI.
  replace ((len y =? len z)%Z && (len z =? ncols H)%Z) with true
    by (symmetry; apply andb_true_intro; split; lia).
  cbn [assert bind].
  pose proof (proj1 Hwf) as Hm.
  rewrite setitem_Ok by (rewrite len_full; lia). cbn [bind].
  set (PCI0 := replace_nth (Z.to_nat 0) (np_mean z) (full (nrows H) #0)).
  set (inner := fun (p i : Z) (st : list D * list D) =>
                  let '(PCI, g) := st in
                  yi <- getitem y i ;;
                  g <- setitem g i (stnormpdf yi) ;;
                  c <- getitem PCI p ;;
                  zl <- getitem z (i - 1)%Z ;;
                  zi <- getitem z i ;;
                  h <- getitem2 H (p - 1)%Z i ;;
                  gi <- getitem g i ;;
                  PCI <- setitem PCI p
                           (c + (zl - zi) * #1 / dsqrt #p * h * gi) ;;
                  Ok (PCI, g)).
  set (Inv := fun (p : Z) (st : list D * list D) =>
                len (fst st) = nrows H /\ len (snd st) = ncols H /\
                item (fst st) 0 = np_mean z /\
                (forall q, (1 <= q < p)%Z ->
                   item (fst st) q = fit_sum z y H q (ncols H)) /\
                (forall q, (p <= q < nrows H)%Z -> item (fst st) q = #0) /\
                (forall i, (0 <= i < ncols H)%Z ->
                   item (snd st) i = if (1 <=? i)%Z && (2 <=? p)%Z
                                     then stnormpdf (item y i) else #0)).
  assert (Hinner : forall p st, (1 <= p < nrows H)%Z -> Inv p st ->
            exists st', for_each (range_up 1 (ncols H)) (inner p) st = Ok st'
                        /\ Inv (p + 1)%Z st').
  { intros p [PCI g] Hp (HP & Hg & H0 & Hdone & Htodo & Hpdf).
    cbn [fst snd] in *.
    destruct (Z_le_gt_dec (ncols H) 1) as [Hsmall|Hbig].
    { rewrite range_up_nil by lia. exists (PCI, g).
      split; [reflexivity|]. unfold Inv. cbn [fst snd].
      repeat (split; [assumption|]). split; [|split].
      - intros q Hq. destruct (Z.eq_dec q p) as [->|Hne].
        + rewrite Htodo by lia. unfold fit_sum.
          rewrite range_up_nil by lia. reflexivity.
        + apply Hdone. lia.
      - intros q Hq. apply Htodo. lia.
      - intros i Hi. rewrite Hpdf by assumption.
        replace (1 <=? i)%Z with false by lia. reflexivity. }
    destruct (@for_each_invariant (list D * list D)
                (fun i st =>
                   len (fst st) = nrows H /\ len (snd st) = ncols H /\
                   (forall q, (0 <= q < nrows H)%Z -> q <> p ->
                      item (fst st) q = item PCI q) /\
                   item (fst st) p = fit_sum z y H p i /\
                   (forall k, (1 <= k < i)%Z ->
                      item (snd st) k = stnormpdf (item y k)) /\
                   (forall k, (0 <= k < ncols H)%Z -> (k < 1 \/ i <= k)%Z ->
                      item (snd st) k = item g k))
                (inner p) (Z.to_nat (ncols H - 1)) 1 (ncols H) (PCI, g) eq_refl)
      as ([PCI' g'] & Hrun & HP' & Hg' & Hoth & Hsum & Hnew & Hold).
    - lia.
    - cbn [fst snd]. repeat (split; [assumption|]).
      split; [intros; reflexivity|]. split.
      + rewrite Htodo by lia. unfold fit_sum. rewrite range_up_nil by lia.
        reflexivity.
      + split; [intros k Hk; lia | intros; reflexivity].
    - intros i [P1 g1] Hi (HP1 & Hg1 & Hoth & Hsum & Hnew & Hold).
      cbn [fst snd] in *. unfold inner.
      rewrite (getitem_item y) by lia. cbn [bind].
      rewrite setitem_Ok by lia. cbn [bind].
      rewrite (getitem_item P1) by lia. cbn [bind].
      rewrite !(getitem_item z) by lia. cbn [bind].
      rewrite getitem2_Ok by (assumption || lia). cbn [bind].
      rewrite getitem_item by (rewrite len_replace_nth; lia). cbn [bind].
      rewrite setitem_Ok by lia. cbn [bind].
      eexists. split; [reflexivity|]. cbn [fst snd].
      rewrite !len_replace_nth. repeat (split; [assumption|]).
      split; [|split; [|split]].
      + intros q Hq Hne. rewrite item_replace_other by lia. now apply Hoth.
      + rewrite item_replace_same by lia.
        rewrite item_replace_same by lia.
        unfold fit_sum. rewrite range_up_snoc by lia.
        rewrite fold_left_app. cbn [fold_left].
        unfold fit_sum in Hsum. rewrite <- Hsum. reflexivity.
      + intros k Hk. destruct (Z.eq_dec k i) as [->|Hne].
        * apply item_replace_same. lia.
        * rewrite item_replace_other by lia. apply Hnew. lia.
      + intros k Hk Hout. rewrite item_replace_other by lia.
        apply Hold; lia.
    - cbn [fst snd] in *. exists (PCI', g'). split; [exact Hrun|].
      unfold Inv. cbn [fst snd]. repeat (split; [assumption|]).
      split; [|split; [|split]].
      + rewrite Hoth by lia. assumption.
      + intros q Hq. destruct (Z.eq_dec q p) as [->|Hne].
        * assumption.
        * rewrite Hoth by lia. apply Hdone. lia.
      + intros q Hq. rewrite Hoth by lia. apply Htodo. lia.
      + intros i Hi. replace (2 <=? p + 1)%Z with true by lia.
        rewrite andb_true_r.
        destruct (1 <=? i)%Z eqn:Ei.
        * apply Hnew. lia.
        * rewrite Hold by lia. rewrite Hpdf by assumption.
          rewrite Ei. reflexivity. }
  destruct (@for_each_invariant (list D * list D) Inv
              (fun p st => for_each (range_up 1 (ncols H)) (inner p) st)
              (Z.to_nat (nrows H - 1)) 1 (nrows H)
              (PCI0, full (ncols H) #0) eq_refl)
    as ([PCI g] & Hrun & HP & Hg & H0 & Hdone & _ & Hpdf).
  - lia.
  - unfold Inv, PCI0. cbn [fst snd]. rewrite len_replace_nth.
    rewrite !len_full by lia. repeat split.
    + apply (item_replace_same (full (nrows H) #0) 0).
      rewrite len_full; lia.
    + intros q Hq. lia.
    + intros q Hq. rewrite item_replace_other by lia.
      apply item_full. lia.
    + intros i Hi. rewrite andb_false_r. apply item_full. lia.
  - intros p st Hp Hst. apply Hinner; assumption.
  - exists PCI, g. cbn [fst snd] in *. repeat (split; [assumption|]).
    exact Hpdf.
Qed.

End FitPCIFacts.

(* ================================================================== *)
(** ** Sums over the reals *)

(** A loop [for i in range(1, K+1): a += f(i)] over the reals is a sum. *)
Lemma fold_range_sum (f : Z -> R) (K : nat) :
  fold_left (fun a i => (a + f i)%R) (range_up 1 (Z.of_nat K + 1)) 0%R
  = sum_1_to K (fun p => f (Z.of_nat p)).
Proof.
  induction K as [|K IH].
  - reflexivity.
  - replace (Z.of_nat (S K) + 1) with (Z.of_nat K + 1 + 1) by lia.
    rewrite range_up_snoc by lia. rewrite fold_left_app, IH.
    cbn [fold_left sum_1_to].
    replace (Z.of_nat K + 1) with (Z.of_nat (S K)) by lia.
    reflexivity.
Qed.

Lemma fold_range_sum_len (f : Z -> R) (n : Z) :
  fold_left (fun a i => (a + f i)%R) (range_up 1 n) 0%R
  = sum_1_to (Z.to_nat (n - 1)) (fun p => f (Z.of_nat p)).
Proof.
  destruct (Z_le_gt_dec n 1) as [Hs|Hb].
  - rewrite range_up_nil by lia.
    replace (Z.to_nat (n - 1)) with O by lia. reflexivity.
  - rewrite <- fold_range_sum. f_equal. f_equal. lia.
Qed.

Lemma sum_1_to_nonneg K f :
  (forall p, (1 <= p <= K)%nat -> (0 <= f p)%R) -> (0 <= sum_1_to K f)%R.
Proof.
  induction K as [|K IH]; intros Hf; cbn; [lra|].
  assert (0 <= sum_1_to K f)%R by (apply IH; intros; apply Hf; lia).
  assert (0 <= f (S K))%R by (apply Hf; lia). lra.
Qed.

Lemma sum_1_to_zero_inv K f :
  (forall p, (1 <= p <= K)%nat -> (0 <= f p)%R) ->
  sum_1_to K f = 0%R -> forall p, (1 <= p <= K)%nat -> f p = 0%R.
Proof.
  induction K as [|K IH]; intros Hf Hs p Hp; [lia|].
  cbn in Hs.
  assert (0 <= sum_1_to K f)%R by (apply sum_1_to_nonneg; intros; apply Hf; lia).
  assert (0 <= f (S K))%R by (apply Hf; lia).
  destruct (Nat.eq_dec p (S K)) as [->|Hne]; [lra|].
  apply IH; [intros; apply Hf; lia | lra | lia].
Qed.

Lemma var_PCI_nonneg (PCI : list R) : (0 <= var_PCI PCI)%R.
Proof.
  rewrite var_PCI_real. apply sum_1_to_nonneg. intros p _.
  apply pow2_ge_0.
Qed.

(* ================================================================== *)
(** ** Rounding to single precision *)

Lemma flush_small x : (Rabs x < 1 / 2)%R -> flush x = 0%R.
Proof.
  intros H. unfold flush.
  replace (Rltb (Rabs x) (1 / 2)) with true
    by (symmetry; now apply Rltb_true).
  reflexivity.
Qed.

Lemma flush_large x : (1 / 2 <= Rabs x)%R -> flush x = x.
Proof.
  intros H. unfold flush.
  replace (Rltb (Rabs x) (1 / 2)) with false
    by (symmetry; now apply Rltb_false).
  reflexivity.
Qed.

Lemma flush_0 : flush 0%R = 0%R.
Proof. apply flush_small. rewrite Rabs_R0. lra. Qed.



Lemma flush_monotone : monotone_rounding flush.
Proof.
  intros x y Hxy. unfold flush.
  destruct (Rltb (Rabs x) (1 / 2)) eqn:Ex;
    destruct (Rltb (Rabs y) (1 / 2)) eqn:Ey;
    try apply Rltb_true in Ex; try apply Rltb_false in Ex;
    try apply Rltb_true in Ey; try apply Rltb_false in Ey;
    unfold Rabs in *;
    destruct (Rcase_abs x); destruct (Rcase_abs y); lra.
Qed.

Lemma accumulate_ext rnd t u n :
  (forall i, 1 <= i < n -> t i = u i) -> accumulate rnd t n = accumulate rnd u n.
Proof.
  intros Htu. unfold accumulate.
  assert (H : forall l a, (forall i, In i l -> t i = u i) ->
            fold_left (fun a i => rnd (a + t i)%R) l a
            = fold_left (fun a i => rnd (a + u i)%R) l a).
  { induction l as [|k l IH]; intros a Hl; cbn [fold_left]; [reflexivity|].
    rewrite (Hl k (or_introl eq_refl)). apply IH.
    intros i Hi. apply Hl. now right. }
  apply H. intros i Hi. apply in_range_up in Hi. now apply Htu.
Qed.

Lemma accumulate_zero rnd t n :
  rnd 0%R = 0%R -> (forall i, 1 <= i < n -> t i = 0%R) ->
  accumulate rnd t n = 0%R.
Proof.
  intros H0 Ht. unfold accumulate. rewrite H0.
  assert (H : forall l, (forall i, In i l -> t i = 0%R) ->
            fold_left (fun a i => rnd (a + t i)%R) l 0%R = 0%R).
  { induction l as [|k l IH]; intros Hl; cbn [fold_left]; [reflexivity|].
    rewrite (Hl k (or_introl eq_refl)), Rplus_0_r, H0. apply IH.
    intros i Hi. apply Hl. now right. }
  apply H. intros i Hi. apply in_range_up in Hi. now apply Ht.
Qed.

Lemma accumulate_le rnd t u n :
  monotone_rounding rnd ->
  (forall i, 1 <= i < n -> (t i <= u i)%R) ->
  (accumulate rnd t n <= accumulate rnd u n)%R.
Proof.
  intros Hm Htu. unfold accumulate.
  assert (H : forall l a b, (a <= b)%R ->
            (forall i, In i l -> (t i <= u i)%R) ->
            (fold_left (fun a i => rnd (a + t i)%R) l a
             <= fold_left (fun a i => rnd (a + u i)%R) l b)%R).
  { induction l as [|k l IH]; intros a b Hab Hl; cbn [fold_left];
      [assumption|].
    apply IH.
    - apply Hm. pose proof (Hl k (or_introl eq_refl)). lra.
    - intros i Hi. apply Hl. now right. }
  apply H; [lra|]. intros i Hi. apply in_range_up in Hi. now apply Htu.
Qed.

Lemma accumulate_nonneg rnd t n :
  monotone_rounding rnd -> rnd 0%R = 0%R ->
  (forall i, 1 <= i < n -> (0 <= t i)%R) ->
  (0 <= accumulate rnd t n)%R.
Proof.
  intros Hm H0 Ht.
  rewrite <- (accumulate_zero rnd (fun _ => 0%R) n H0) at 1
    by (intros; reflexivity).
  now apply accumulate_le.
Qed.

(** The two residuals as accumulators. *)
Lemma f_var_Zv_rounded rnd (r : R) (PCI : list R) (V : R) :
  @f_var_Zv R (rounded rnd) r PCI V =
  (accumulate rnd (fun i => item PCI i ^ 2 * r ^ Z.to_nat (2 * i)) (len PCI)
   - V)%R.
Proof. reflexivity. Qed.

Lemma f_covar_ZvZv_rounded rnd (ro s r : R) (PCI : list R) (C : R) :
  @f_covar_ZvZv R (rounded rnd) ro s r PCI C =
  (accumulate rnd
     (fun i => item PCI i ^ 2 * r ^ Z.to_nat i * s ^ Z.to_nat i
               * ro ^ Z.to_nat i) (len PCI)
   - C)%R.
Proof. reflexivity. Qed.

(* ================================================================== *)
(** ** Coefficients, second output and failures of [fit_PCI] *)

(** X5.  The coefficients fitted by [fit_PCI] (real arithmetic): for
    [1 <= p < H.shape[0]],
    [PCI[p] = sum_{i=1..m-1} (z[i-1] - z[i]) * (1/sqrt p) * H[p-1, i]
              * stnormpdf(y[i])], with [m = H.shape[1]].  Coefficient [p] is
    built from row [p-1] of [H]. *)
Theorem fit_PCI_coefficients :
  forall (z y : list R) (H : matrix R) (meanz : R),
    wf_matrix H -> len y = len z -> len z = ncols H -> 1 <= nrows H ->
    exists PCI g,
      fit_PCI z y H meanz = Ok (PCI, g) /\
      forall p, 1 <= p < nrows H ->
        item PCI p =
        sum_1_to (Z.to_nat (ncols H - 1))
          (fun i => ((item z (Z.of_nat i - 1) - item z (Z.of_nat i))
                     * (1 / R_sqrt.sqrt (IZR p))
                     * item2 H (p - 1) (Z.of_nat i)
                     * stnormpdf (item y (Z.of_nat i)))%R).
Proof.
  intros z y H meanz Hwf Hy Hz Hn.
  destruct (fit_PCI_full_run z y H meanz Hwf Hy Hz Hn)
    as (PCI & g & Hrun & _ & _ & _ & Hsum & _).
  exists PCI, g. split; [assumption|]. intros p Hp.
  rewrite (Hsum p Hp). unfold fit_sum.
  etransitivity; [apply (fold_range_sum_len (fit_term z y H p))|].
  apply sum_1_to_ext. intros i Hi. unfold fit_term.
  cbn [dsub dmul ddiv dsqrt dof_Z ideal]. unfold Rdiv. ring.
Qed.

Lemma fit_PCI_coefficients_witness :
  exists PCI g,
    fit_PCI fit_z fit_y fit_H 5%R = Ok (PCI, g) /\
    item PCI 1 =
    sum_1_to (Z.to_nat (ncols fit_H - 1))
      (fun i => ((item fit_z (Z.of_nat i - 1) - item fit_z (Z.of_nat i))
                 * (1 / R_sqrt.sqrt (IZR 1))
                 * item2 fit_H (1 - 1) (Z.of_nat i)
                 * stnormpdf (item fit_y (Z.of_nat i)))%R).
Proof.
  assert (Hwf : wf_matrix fit_H).
  { split; [cbn; lia | repeat constructor]. }
  destruct (fit_PCI_coefficients fit_z fit_y fit_H 5%R
              Hwf eq_refl eq_refl ltac:(cbn; lia)) as (PCI & g & Hrun & Hsum).
  exists PCI, g. split; [exact Hrun|]. apply Hsum. cbn. lia.
Defined.

(** X6.  The second output of [fit_PCI], in every arithmetic of doubles:
    [g] has one entry per column of [H]; [g[0]] is never written and stays
    [0.0]; for [i >= 1], [g[i] = stnormpdf(y[i])] when [H] has two rows or
    more, and with a single row the loops do not run and [g] is all zeros. *)
Theorem fit_PCI_density_output :
  forall (D : Type) (A : Arith D) (E : Exponential D)
         (z y : list D) (H : matrix D) (meanz : D),
    wf_matrix H -> len y = len z -> len z = ncols H -> 1 <= nrows H ->
    exists PCI g,
      fit_PCI z y H meanz = Ok (PCI, g) /\
      len g = ncols H /\
      forall i, 0 <= i < ncols H ->
        item g i = if (1 <=? i) && (2 <=? nrows H)
                   then stnormpdf (item y i) else (#0)%D.
Proof.
  intros D A E z y H meanz Hwf Hy Hz Hn.
  destruct (fit_PCI_full_run z y H meanz Hwf Hy Hz Hn)
    as (PCI & g & Hrun & _ & Hg & _ & _ & Hpdf).
  exists PCI, g. repeat (split; [assumption|]). exact Hpdf.
Qed.

Lemma fit_PCI_density_output_witness :
  exists PCI g,
    fit_PCI fit_z fit_y fit_H 5%R = Ok (PCI, g) /\
    item g 0 = 0%R /\ item g 1 = stnormpdf (item fit_y 1).
Proof.
  assert (Hwf : wf_matrix fit_H).
  { split; [cbn; lia | repeat constructor]. }
  destruct (fit_PCI_density_output R ideal ideal_exp fit_z fit_y fit_H 5%R
              Hwf eq_refl eq_refl ltac:(cbn; lia))
    as (PCI & g & Hrun & _ & Hpdf).
  exists PCI, g. split; [exact Hrun|]. split.
  - apply (Hpdf 0). cbn. lia.
  - apply (Hpdf 1). cbn. lia.
Defined.

(** X7.  Failures of [fit_PCI], in every arithmetic of doubles: arrays whose
    lengths differ from one another or from the number of columns of [H]
    stop on the assertion; with matching lengths and an [H] of zero rows the
    assignment [PCI[0] = np.mean(z)] is out of bounds. *)
Theorem fit_PCI_rejects :
  forall (D : Type) (A : Arith D) (E : Exponential D)
         (z y : list D) (H : matrix D) (meanz : D),
    (len y <> len z \/ len z <> ncols H ->
     fit_PCI z y H meanz = Raise AssertionError) /\
    (len y = len z -> len z = ncols H -> nrows H = 0 ->
     fit_PCI z y H meanz = Raise IndexError).
Proof.
  intros D A E z y H meanz. split.
  - intros Hbad. unfold fit_PCI.
    replace ((len y =? len z) && (len z =? ncols H)) with false; [reflexivity|].
    symmetry. apply andb_false_iff. lia.
  - intros Hy Hz Hn. unfold fit_PCI.
    replace ((len y =? len z) && (len z =? ncols H)) with true
      by (symmetry; apply andb_true_intro; split; lia).
    cbn [assert bind]. rewrite Hn. reflexivity.
Qed.

Lemma fit_PCI_rejects_witness :
  fit_PCI [1; 2]%R [0]%R fit_H 5%R = Raise AssertionError /\
  fit_PCI []%R []%R (Matrix 0 []) 5%R = Raise IndexError.
Proof.
  split.
  - apply (proj1 (fit_PCI_rejects R ideal ideal_exp [1; 2]%R [0]%R fit_H 5%R)).
    left. cbn. lia.
  - apply (proj2 (fit_PCI_rejects R ideal ideal_exp []%R []%R (Matrix 0 []) 5%R));
      reflexivity.
Defined.




(** With the sample rounding the exponential underflows at [x = 3]: the
    density is exactly [0] there, so it is not positive everywhere. *)
Example stnormpdf_underflow :
  @stnormpdf R (rounded flush) ideal_exp 3%R = 0%R.
Proof.
  unfold stnormpdf.
  cbn [dsingle dsqrt dmul ddiv dopp dpow dof_Z dexp rounded ideal_exp].
  change (Z.to_nat 2) with 2%nat.
  rewrite (flush_large 3) by (rewrite Rabs_right; lra).
  replace (3 ^ 2)%R with 9%R by ring.
  rewrite (flush_large 9) by (rewrite Rabs_right; lra).
  rewrite (flush_large (Ropp 9 / 2)) by (rewrite Rabs_left; lra).
  assert (He : (0 < exp (Ropp 9 / 2) < 1 / 2)%R).
  { split; [apply exp_pos|].
    replace (Ropp 9 / 2)%R with (- (9 / 2))%R by lra. rewrite exp_Ropp.
    pose proof (exp_ineq1 (9 / 2) ltac:(lra)) as Hx.
    apply Rlt_trans with (/ (1 + 9 / 2))%R; [|lra].
    apply Rinv_lt_contravar; [|assumption].
    apply Rmult_lt_0_compat; lra. }
  rewrite (flush_small (exp (Ropp 9 / 2))) by (rewrite Rabs_right; lra).
  unfold Rdiv at 1. rewrite Rmult_0_l. apply flush_0.
Qed.

(* ================================================================== *)
(** ** The variance of the coefficients *)

(** X9.  [var_PCI] (real arithmetic) is never negative, and it is zero
    exactly when every coefficient after [PCI[0]] is zero. *)
Theorem var_PCI_nonnegative :
  forall PCI : list R,
    (0 <= var_PCI PCI)%R /\
    (var_PCI PCI = 0%R <->
     forall p, 1 <= p < len PCI -> item PCI p = 0%R).
Proof.
  intros PCI. split; [apply var_PCI_nonneg|].
  rewrite var_PCI_real. split.
  - intros Hs p Hp.
    assert (Hq : (item PCI (Z.of_nat (Z.to_nat p)) ^ 2 = 0)%R).
    { apply (sum_1_to_zero_inv (Z.to_nat (len PCI - 1))
               (fun q => (item PCI (Z.of_nat q) ^ 2)%R)).
      - intros q _. apply pow2_ge_0.
      - exact Hs.
      - lia. }
    replace (Z.of_nat (Z.to_nat p)) with p in Hq by lia.
    apply Rsqr_0_uniq. unfold Rsqr. lra.
  - intros Hz. apply sum_1_to_zero. intros p Hp.
    rewrite Hz by lia. ring.
Qed.

(* ================================================================== *)
(** ** The residuals of the effect coefficients *)

(** X10.  The residual of [f_var_Zv] with its [float] accumulator rounded by
    any rounding that keeps [0]: at [r = 0] the accumulator stays [0] and
    the residual is [-Var_Zv]; and the residual is an even function of
    [r]. *)
Theorem f_var_Zv_zero_even :
  forall (rnd : R -> R) (PCI : list R) (Var_Zv r : R),
    rnd 0%R = 0%R ->
    @f_var_Zv R (rounded rnd) 0%R PCI Var_Zv = (- Var_Zv)%R /\
    @f_var_Zv R (rounded rnd) (- r)%R PCI Var_Zv
    = @f_var_Zv R (rounded rnd) r PCI Var_Zv.
Proof.
  intros rnd PCI V r H0. rewrite !f_var_Zv_rounded. split.
  - rewrite accumulate_zero; [lra | assumption |].
    intros i Hi. rewrite pow_i by lia. ring.
  - f_equal. apply accumulate_ext. intros i Hi.
    replace (Z.to_nat (2 * i)) with (2 * Z.to_nat i)%nat by lia.
    rewrite !pow_mult. replace ((- r) ^ 2)%R with (r ^ 2)%R by ring.
    reflexivity.
Qed.

Lemma f_var_Zv_zero_even_witness :
  @f_var_Zv R (rounded flush) 0%R [1; 2; 3]%R 1%R = (- 1)%R /\
  @f_var_Zv R (rounded flush) (- (1 / 2))%R [1; 2; 3]%R 1%R
  = @f_var_Zv R (rounded flush) (1 / 2)%R [1; 2; 3]%R 1%R.
Proof. apply (f_var_Zv_zero_even flush [1; 2; 3]%R 1%R (1 / 2)%R flush_0). Defined.

(** X11.  The residual of [f_var_Zv], with its [float] accumulator rounded
    by any rounding that keeps the order, does not decrease on [r >= 0]:
    [0 <= r1 <= r2] gives [f_var_Zv(r1) <= f_var_Zv(r2)]. *)
Theorem f_var_Zv_monotone :
  forall (rnd : R -> R) (PCI : list R) (Var_Zv r1 r2 : R),
    monotone_rounding rnd -> (0 <= r1 <= r2)%R ->
    (@f_var_Zv R (rounded rnd) r1 PCI Var_Zv
     <= @f_var_Zv R (rounded rnd) r2 PCI Var_Zv)%R.
Proof.
  intros rnd PCI V r1 r2 Hm Hr. rewrite !f_var_Zv_rounded.
  apply Rplus_le_compat_r. apply accumulate_le; [assumption|].
  intros i Hi. apply Rmult_le_compat_l; [apply pow2_ge_0|].
  apply pow_incr. exact Hr.
Qed.

Lemma f_var_Zv_monotone_witness :
  (@f_var_Zv R (rounded flush) (1 / 2)%R [1; 2; 3]%R 1%R
   <= @f_var_Zv R (rounded flush) 1%R [1; 2; 3]%R 1%R)%R.
Proof. apply (f_var_Zv_monotone flush); [exact flush_monotone | lra]. Defined.

(** The accumulator of [f_var_Zv] at [r = 1]: the squares summed in single
    precision. *)
Lemma f_var_Zv_ends rnd (PCI : list R) (V : R) :
  monotone_rounding rnd -> rnd 0%R = 0%R ->
  @f_var_Zv R (rounded rnd) 0%R PCI V = (- V)%R /\
  @f_var_Zv R (rounded rnd) 1%R PCI V
  = (@f_var_Zv R (rounded rnd) 1%R PCI 0%R - V)%R /\
  (0 <= @f_var_Zv R (rounded rnd) 1%R PCI 0%R)%R.
Proof.
  intros Hm H0. rewrite !f_var_Zv_rounded. split; [|split].
  - rewrite accumulate_zero; [lra | assumption |].
    intros i Hi. rewrite pow_i by lia. ring.
  - lra.
  - rewrite Rminus_0_r. apply accumulate_nonneg; try assumption.
    intros i Hi. apply Rmult_le_pos; [apply pow2_ge_0|].
    rewrite pow1. lra.
Qed.

Lemma ends_sign (S V : R) :
  (0 <= S)%R -> (0 < - V * (S - V))%R <-> (V < 0)%R \/ (S < V)%R.
Proof.
  intros Hs. split.
  - intros Hp. destruct (Rlt_dec V 0) as [|Hv]; [now left|]. right.
    destruct (Rlt_dec S V) as [|Hn]; [assumption|]. exfalso.
    assert (0 <= V * (S - V))%R by (apply Rmult_le_pos; lra).
    lra.
  - intros [Hv|Hv].
    + replace (- V * (S - V))%R with ((- V) * (S - V))%R by ring.
      apply Rmult_lt_0_compat; lra.
    + replace (- V * (S - V))%R with (V * (V - S))%R by ring.
      apply Rmult_lt_0_compat; lra.
Qed.




(** X13.  The outcomes of [get_r], with the [float] accumulator of
    [f_var_Zv] rounded by any rounding that keeps the order and [0], for
    every iteration of the root finder.  Let [S = f_var_Zv(1, PCI, 0)], the
    squares [PCI[1:]^2] summed in single precision.  A target below [0] or
    above [S] stops with the root finder's [ValueError]; the target [0]
    returns [0]; the target [S > 0] returns [1]; a target strictly between
    [0] and [S] is handed to the iteration on the bracket [[0, 1]]. *)
Theorem get_r_outcomes :
  forall (rnd : R -> R) (brent_iterate : (R -> R) -> R -> R -> R)
         (PCI : list R) (Var_Zv : R),
    monotone_rounding rnd -> rnd 0%R = 0%R ->
    ((Var_Zv < 0)%R \/ (@f_var_Zv R (rounded rnd) 1%R PCI 0%R < Var_Zv)%R ->
     @get_r R (rounded rnd) brent_iterate Var_Zv PCI = Raise ValueError) /\
    (Var_Zv = 0%R ->
     @get_r R (rounded rnd) brent_iterate Var_Zv PCI = Ok 0%R) /\
    ((0 < Var_Zv)%R -> Var_Zv = @f_var_Zv R (rounded rnd) 1%R PCI 0%R ->
     @get_r R (rounded rnd) brent_iterate Var_Zv PCI = Ok 1%R) /\
    ((0 < Var_Zv < @f_var_Zv R (rounded rnd) 1%R PCI 0%R)%R ->
     @get_r R (rounded rnd) brent_iterate Var_Zv PCI
     = Ok (brent_iterate
             (fun r => @f_var_Zv R (rounded rnd) r PCI Var_Zv) 0%R 1%R)).
Proof.
  intros rnd brent_iterate PCI V Hm H0.
  destruct (f_var_Zv_ends rnd PCI V Hm H0) as (E0 & E1 & Hs).
  unfold get_r, brentq. cbn [dof_Z dmul dltb deqb rounded].
  rewrite E0, E1.
  set (S := @f_var_Zv R (rounded rnd) 1%R PCI 0%R) in *.
  repeat split.
  - intros Hbad. apply (ends_sign S V Hs) in Hbad.
    replace (Rltb 0 (- V * (S - V))) with true
      by (symmetry; now apply Rltb_true).
    reflexivity.
  - intros ->. real_tests. reflexivity.
  - intros Hpos Heq. rewrite <- Heq. real_tests. reflexivity.
  - intros Hin.
    assert (- V * (S - V) < 0)%R.
    { replace (- V * (S - V))%R with (- (V * (S - V)))%R by ring.
      assert (0 < V * (S - V))%R by (apply Rmult_lt_0_compat; lra).
      lra. }
    real_tests. reflexivity.
Qed.

Lemma get_r_outcomes_witness :
  @get_r R (rounded flush) (fun _ a _ => a) (-1)%R [1; 2]%R = Raise ValueError.
Proof.
  apply (proj1 (get_r_outcomes flush (fun _ a _ => a) [1; 2]%R (-1)%R
                  flush_monotone flush_0)).
  left. lra.
Defined.


(** X15.  Outcomes of [get_ro] that do not depend on the iteration of the
    root finder, with the [float] accumulator of [f_covar_ZvZv] rounded by
    any rounding that keeps [0]: the target covariance [0] returns [0]; a
    target other than [0] with [r * s = 0] makes the residual constant and
    stops with [ValueError]; with [r * s = 1] a target [C > 0] equal to
    [f_var_Zv(1, PCI, 0)], the squares summed in single precision, returns
    [1]. *)
Theorem get_ro_outcomes :
  forall (rnd : R -> R) (brent_iterate : (R -> R) -> R -> R -> R)
         (PCI : list R) (C r s : R),
    rnd 0%R = 0%R ->
    (C = 0%R -> @get_ro R (rounded rnd) brent_iterate C PCI r s = Ok 0%R) /\
    (C <> 0%R -> (r * s)%R = 0%R ->
     @get_ro R (rounded rnd) brent_iterate C PCI r s = Raise ValueError) /\
    ((0 < C)%R -> (r * s)%R = 1%R ->
     C = @f_var_Zv R (rounded rnd) 1%R PCI 0%R ->
     @get_ro R (rounded rnd) brent_iterate C PCI r s = Ok 1%R).
Proof.
  intros rnd brent_iterate PCI C r s H0.
  unfold get_ro, brentq. cbn [dof_Z dmul dltb deqb rounded].
  assert (E0 : @f_covar_ZvZv R (rounded rnd) 0%R s r PCI C = (- C)%R).
  { rewrite f_covar_ZvZv_rounded. rewrite accumulate_zero; [lra|assumption|].
    intros i Hi. rewrite (pow_i (Z.to_nat i)) by lia. ring. }
  rewrite E0. repeat split.
  - intros ->. replace (- 0)%R with 0%R by ring. rewrite Rmult_0_l.
    real_tests. reflexivity.
  - intros Hc Hrs.
    assert (E1 : @f_covar_ZvZv R (rounded rnd) 1%R s r PCI C = (- C)%R).
    { rewrite f_covar_ZvZv_rounded. rewrite accumulate_zero; [lra|assumption|].
      intros i Hi.
      replace (item PCI i ^ 2 * r ^ Z.to_nat i * s ^ Z.to_nat i
               * 1 ^ Z.to_nat i)%R
        with (item PCI i ^ 2 * (r * s) ^ Z.to_nat i * 1 ^ Z.to_nat i)%R
        by (rewrite Rpow_mult_distr; ring).
      rewrite Hrs, (pow_i (Z.to_nat i)) by lia. ring. }
    rewrite E1.
    assert (0 < - C * - C)%R.
    { destruct (Rtotal_order C 0) as [Hn|[Hz|Hp]]; [|contradiction|].
      - apply Rmult_lt_0_compat; lra.
      - replace (- C * - C)%R with (C * C)%R by ring.
        apply Rmult_lt_0_compat; lra. }
    real_tests. reflexivity.
  - intros Hpos Hrs Heq.
    assert (E1 : @f_covar_ZvZv R (rounded rnd) 1%R s r PCI C = 0%R).
    { rewrite f_covar_ZvZv_rounded.
      rewrite Heq. rewrite f_var_Zv_rounded.
      rewrite (accumulate_ext rnd
                 (fun i => (item PCI i ^ 2 * r ^ Z.to_nat i * s ^ Z.to_nat i
                            * 1 ^ Z.to_nat i)%R)
                 (fun i => (item PCI i ^ 2 * 1 ^ Z.to_nat (2 * i))%R));
        [lra|].
      intros i Hi. rewrite !pow1.
      replace (item PCI i ^ 2 * r ^ Z.to_nat i * s ^ Z.to_nat i * 1)%R
        with (item PCI i ^ 2 * (r * s) ^ Z.to_nat i)%R
        by (rewrite Rpow_mult_distr; ring).
      rewrite Hrs, pow1. ring. }
    rewrite E1. rewrite Rmult_0_r. real_tests. reflexivity.
Qed.

Lemma get_ro_outcomes_witness :
  @get_ro R (rounded flush) (fun _ a _ => a) 0%R [1; 2]%R 1%R 1%R = Ok 0%R.
Proof.
  apply (proj1 (get_ro_outcomes flush (fun _ a _ => a) [1; 2]%R 0%R 1%R 1%R
                  flush_0)).
  reflexivity.
Defined.

(* ================================================================== *)
(** ** Outcomes of [expand_anamor] *)

Lemma for_each_app {S : Type} (l1 l2 : list Z) (body : Z -> S -> result S) s :
  for_each (l1 ++ l2) body s = (s' <- for_each l1 body s ;; for_each l2 body s').
Proof.
  revert s. induction l1 as [|k l1 IH]; intros s; cbn [app for_each bind].
  - reflexivity.
  - destruct (body k s); cbn [bind]; [apply IH | reflexivity].
Qed.

Lemma range_up_split a b c :
  a <= b <= c -> range_up a c = range_up a b ++ range_up b c.
Proof.
  intros H. remember (Z.to_nat (b - a)) as n eqn:Hn.
  revert a H Hn. induction n as [|n IH]; intros a H Hn.
  - assert (b = a) by lia. subst b. now rewrite (range_up_nil a a) by lia.
  - rewrite (range_up_cons a c), (range_up_cons a b) by lia.
    cbn [app]. f_equal. apply IH; lia.
Qed.

Section ExpandFacts.
Context {D : Type} {A : Arith D}.
Local Open Scope dbl_scope.

Lemma getrow_outside (H : matrix D) p :
  (0 <= p)%Z -> (nrows H <= p)%Z -> getrow H p = Raise IndexError.
Proof.
  intros H0 Hp. unfold getrow.
  replace (p <? 0)%Z with false by lia.
  replace ((0 <=? p) && (p <? nrows H))%Z with false; [reflexivity|].
  symmetry. apply andb_false_iff. lia.
Qed.

Lemma getitem_empty (a : list D) : len a = 0%Z -> getitem a 0 = Raise IndexError.
Proof.
  intros Ha. unfold getitem. cbn [Z.ltb Z.compare]. rewrite Ha. reflexivity.
Qed.

(** The first [q - 1] rounds of the loop of [expand_anamor] return when
    [PCI] and [H] both reach index [q - 1]. *)
Lemma expand_loop_prefix (PCI : list D) (H : matrix D) (r : D) (q : Z) Z0 :
  wf_matrix H -> (1 <= q)%Z -> (q <= len PCI)%Z -> (q <= Z.max 1 (nrows H))%Z ->
  len Z0 = ncols H ->
  exists Zq,
    for_each (range_up 1 q)
      (fun p Zh =>
         c <- getitem PCI p ;;
         Hp <- getrow H p ;;
         Ok (zip_with dadd Zh (map (fun h => c * h * r ** p) Hp)))
      Z0 = Ok Zq /\ len Zq = ncols H.
Proof.
  intros Hwf Hq HP HH HZ.
  apply (@for_each_invariant (list D) (fun _ Zh => len Zh = ncols H)
           _ (Z.to_nat (q - 1)) 1 q Z0 eq_refl Hq HZ).
  intros p Zh Hp Hlen.
  rewrite getitem_item by lia. rewrite getrow_row by lia. cbn [bind].
  eexists. split; [reflexivity|].
  rewrite len_zip_with; [assumption|].
  rewrite len_map, len_row_wf by (assumption || lia). assumption.
Qed.

Lemma expand_anamor_outcome_run (PCI : list D) (H : matrix D) (r : D) :
  wf_matrix H ->
  (len PCI = 0%Z -> expand_anamor PCI H r = Raise IndexError) /\
  ((1 <= len PCI <= Z.max 1 (nrows H))%Z ->
   exists Zh, expand_anamor PCI H r = Ok Zh /\ len Zh = ncols H) /\
  ((Z.max 1 (nrows H) < len PCI)%Z ->
   expand_anamor PCI H r = Raise IndexError).
Proof.
  intros Hwf. pose proof (proj1 Hwf) as Hc.
  assert (HZ0 : forall c0 : D,
            len (map (fun _ : D => c0) (full (ncols H) #0)) = ncols H).
  { intros c0. now rewrite len_map, len_full. }
  repeat split.
  - intros H0. unfold expand_anamor. now rewrite getitem_empty.
  - intros HP. unfold expand_anamor.
    rewrite getitem_item by lia. cbn [bind].
    apply expand_loop_prefix; try assumption; try lia. apply HZ0.
  - intros HP. unfold expand_anamor.
    rewrite getitem_item by lia. cbn [bind].
    set (q := Z.max 1 (nrows H)) in *.
    rewrite (range_up_split 1 q (len PCI)) by lia.
    rewrite for_each_app.
    destruct (expand_loop_prefix PCI H r q
                (map (fun _ : D => item PCI 0) (full (ncols H) #0)))
      as (Zq & -> & _); try assumption; try lia; [apply HZ0|].
    cbn [bind]. rewrite (range_up_cons q) by lia. cbn [for_each].
    rewrite getitem_item by lia. cbn [bind].
    rewrite getrow_outside by lia. reflexivity.
Qed.

End ExpandFacts.

(** X16.  The outcome of [expand_anamor] by the shapes of its arguments, in
    every arithmetic of doubles: an empty [PCI] is an [IndexError]; a [PCI]
    of one entry, or of no more entries than [H] has rows, gives a vector
    with one entry per column of [H] (rows of [H] beyond [len(PCI)] are not
    read); a longer [PCI] is an [IndexError] on the first missing row. *)
Theorem expand_anamor_outcome :
  forall (D : Type) (A : Arith D) (PCI : list D) (H : matrix D) (r : D),
    wf_matrix H ->
    (len PCI = 0 -> expand_anamor PCI H r = Raise IndexError) /\
    (1 <= len PCI <= Z.max 1 (nrows H) ->
     exists Zh, expand_anamor PCI H r = Ok Zh /\ len Zh = ncols H) /\
    (Z.max 1 (nrows H) < len PCI ->
     expand_anamor PCI H r = Raise IndexError).
Proof. intros D A PCI H r Hwf. now apply expand_anamor_outcome_run. Qed.

Lemma expand_anamor_outcome_witness :
  expand_anamor [1; 2; 3]%float (Matrix 1 [[1]; [3]]%float) 5%float
  = Raise IndexError.
Proof.
  assert (Hwf : wf_matrix (Matrix 1 [[1]; [3]]%float)).
  { split; [cbn; lia | repeat constructor]. }
  apply (proj2 (proj2 (expand_anamor_outcome float binary64 [1; 2; 3]%float
                         (Matrix 1 [[1]; [3]]%float) 5%float Hwf))).
  cbn. lia.
Defined.

(** X17.  The support coefficient can be moved into the coefficients (real
    arithmetic): [expand_anamor(PCI, H, r)] equals
    [expand_anamor(PCI', H, 1)] entry by entry whenever
    [PCI'[p] = PCI[p] * r^p] for every [p]. *)
Theorem expand_anamor_support_scaling :
  forall (PCI PCI' : list R) (H : matrix R) (r : R) (K : Z),
    wf_matrix H -> 0 <= K -> len PCI = K + 1 -> len PCI' = K + 1 ->
    nrows H = K + 1 ->
    (forall p, 0 <= p <= K ->
       item PCI' p = (item PCI p * r ^ Z.to_nat p)%R) ->
    exists Zh Zh',
      expand_anamor PCI H r = Ok Zh /\
      expand_anamor PCI' H 1%R = Ok Zh' /\
      len Zh = len Zh' /\
      forall n, 0 <= n < ncols H -> item Zh n = item Zh' n.
Proof.
  intros PCI PCI' H r K Hwf HK HP HP' HH Hscale.
  destruct (expand_anamor_run PCI H r K Hwf HP HH HK) as (Zh & Hrun & Hlen & HZ).
  destruct (expand_anamor_run PCI' H 1%R K Hwf HP' HH HK)
    as (Zh' & Hrun' & Hlen' & HZ').
  exists Zh, Zh'. repeat (split; [assumption|]).
  split; [congruence|]. intros n Hn.
  rewrite HZ, HZ' by assumption.
  rewrite (Hscale 0) by lia. cbn [Z.to_nat pow]. rewrite Rmult_1_r.
  f_equal. apply sum_1_to_ext. intros p Hp.
  rewrite Hscale by lia. rewrite Nat2Z.id, pow1. ring.
Qed.

Lemma expand_anamor_support_scaling_witness :
  exists Zh Zh',
    expand_anamor series_PCI series_H 5%R = Ok Zh /\
    expand_anamor [1; 10]%R series_H 1%R = Ok Zh' /\
    item Zh 0 = item Zh' 0.
Proof.
  assert (Hwf : wf_matrix series_H).
  { split; [cbn; lia | repeat constructor]. }
  destruct (expand_anamor_support_scaling series_PCI [1; 10]%R series_H 5%R 1
              Hwf ltac:(lia) eq_refl eq_refl eq_refl)
    as (Zh & Zh' & Hrun & Hrun' & _ & Heq).
  - intros p Hp. assert (Hc : p = 0 \/ p = 1) by lia.
    destruct Hc as [-> | ->]; cbv -[Rplus Rmult IZR]; lra.
  - exists Zh, Zh'. repeat (split; [assumption|]). apply Heq. cbn. lia.
Defined.

(* ================================================================== *)
(** ** Locators on regular tables *)

Lemma first_down_none hi lo P k :
  first_down hi lo P k -> (forall m, lo <= m <= hi -> P m = false) -> k = lo.
Proof.
  intros (Hb & _ & [Hk|Hk]) Hnone; [|assumption].
  rewrite Hnone in Hk by lia. discriminate.
Qed.

Lemma first_up_none lo hi P k :
  first_up lo hi P k -> (forall m, lo <= m <= hi -> P m = false) -> k = hi.
Proof.
  intros (Hb & _ & [Hk|Hk]) Hnone; [|assumption].
  rewrite Hnone in Hk by lia. discriminate.
Qed.

Lemma first_down_at hi lo P k m :
  first_down hi lo P k -> lo <= m <= hi -> P m = true ->
  (forall q, m < q <= hi -> P q = false) -> k = m.
Proof.
  intros (Hb & Hbefore & Hk) Hm Pm Hafter.
  destruct (Z_lt_le_dec k m) as [Hlt|Hge].
  - rewrite Hbefore in Pm by lia. discriminate.
  - destruct (Z.eq_dec k m) as [|Hne]; [assumption|].
    destruct Hk as [Hk|Hk]; [|lia].
    rewrite Hafter in Hk by lia. discriminate.
Qed.

Lemma first_up_at lo hi P k m :
  first_up lo hi P k -> lo <= m <= hi -> P m = true ->
  (forall q, lo <= q < m -> P q = false) -> k = m.
Proof.
  intros (Hb & Hbefore & Hk) Hm Pm Hafter.
  destruct (Z_lt_le_dec m k) as [Hlt|Hge].
  - rewrite Hbefore in Pm by lia. discriminate.
  - destruct (Z.eq_dec k m) as [|Hne]; [assumption|].
    destruct Hk as [Hk|Hk]; [|lia].
    rewrite Hafter in Hk by lia. discriminate.
Qed.

Lemma half_bounds N : 4 <= N -> 2 <= N / 2 <= N - 2.
Proof.
  intros HN. split; [apply Z.div_le_lower_bound; lia|].
  apply Z.lt_succ_r. apply Z.div_lt_upper_bound; lia.
Qed.

(** X18.  On a regular table [calautorized_blk] keeps everything but the two
    points at each end (real arithmetic): when [zana] does not decrease, all
    its values lie in [[zpmin, zpmax]] and [gauss[0]], [gauss[N-1]] are the
    extremes of [gauss], no stopping test fires and the call returns
    [(2, N-2, 0, N-1)]. *)
Theorem calautorized_blk_regular_table :
  forall (zana gauss : list R) (zpmin zpmax : R) (N : Z),
    len zana = N -> len gauss = N -> 4 <= N ->
    (forall k, 0 <= k < N - 1 -> (item zana k <= item zana (k + 1))%R) ->
    (forall k, 0 <= k < N -> (zpmin <= item zana k <= zpmax)%R) ->
    (forall k, 0 <= k < N ->
       (item gauss 0 <= item gauss k <= item gauss (N - 1))%R) ->
    calautorized_blk zana gauss zpmin zpmax = Ok (2, N - 2, 0, N - 1).
Proof.
  intros zana gauss zpmin zpmax N Ha Hg HN Hmono Hin Hgauss.
  pose proof (half_bounds N HN) as Hhalf.
  destruct (calautorized_blk_run zana gauss zpmin zpmax N Ha Hg HN)
    as (i & j & Hrun & Fi & Fj).
  assert (Ei : i = 2).
  { apply (first_down_none _ _ _ _ Fi). intros m Hm.
    cbn [dltb ideal].
    pose proof (Hin (m - 1) ltac:(lia)).
    pose proof (Hmono (m - 1) ltac:(lia)) as Hmm.
    replace (m - 1 + 1) with m in Hmm by lia.
    pose proof (Hgauss (m - 1) ltac:(lia)).
    real_tests; try reflexivity. }
  assert (Ej : j = N - 2).
  { apply (first_up_none _ _ _ _ Fj). intros m Hm.
    cbn [dltb ideal].
    pose proof (Hin (m + 1) ltac:(lia)).
    pose proof (Hmono m ltac:(lia)).
    pose proof (Hgauss (m + 1) ltac:(lia)).
    real_tests; try reflexivity. }
  subst i j. exact Hrun.
Qed.

Lemma calautorized_blk_regular_table_witness :
  calautorized_blk [1; 2; 3; 4; 5]%R [-2; -1; 0; 1; 2]%R 0%R 9%R
  = Ok (2, 5 - 2, 0, 5 - 1).
Proof.
  apply (calautorized_blk_regular_table [1; 2; 3; 4; 5]%R [-2; -1; 0; 1; 2]%R
           0%R 9%R 5 eq_refl eq_refl ltac:(lia)).
  - intros k Hk.
    assert (Hc : k = 0 \/ k = 1 \/ k = 2 \/ k = 3) by lia.
    destruct Hc as [->|[->|[->| ->]]]; cbv -[Rle Rlt Rplus Rmult Rminus Ropp IZR]; lra.
  - intros k Hk.
    assert (Hc : k = 0 \/ k = 1 \/ k = 2 \/ k = 3 \/ k = 4) by lia.
    destruct Hc as [->|[->|[->|[->| ->]]]]; cbv -[Rle Rlt Rplus Rmult Rminus Ropp IZR]; lra.
  - intros k Hk.
    assert (Hc : k = 0 \/ k = 1 \/ k = 2 \/ k = 3 \/ k = 4) by lia.
    destruct Hc as [->|[->|[->|[->| ->]]]]; cbv -[Rle Rlt Rplus Rmult Rminus Ropp IZR]; lra.
Defined.

Lemma item_cons {D} {A : Arith D} (x : D) (l : list D) k :
  0 <= k -> item (x :: l) (k + 1) = item l k.
Proof.
  intros Hk. unfold item.
  replace (Z.to_nat (k + 1)) with (S (Z.to_nat k)) by lia. reflexivity.
Qed.

Lemma len_cons {D} {A : Arith D} (x : D) (l : list D) :
  len (x :: l) = len l + 1.
Proof. unfold len. cbn [length]. lia. Qed.

(** In a strictly increasing array every later entry is larger. *)
Lemma increasing_lt (a : list R) :
  (forall k, 0 <= k < len a - 1 -> (item a k < item a (k + 1))%R) ->
  forall (n : nat) (k : Z), 0 <= k -> k + 1 + Z.of_nat n < len a ->
    (item a k < item a (k + 1 + Z.of_nat n))%R.
Proof.
  intros Hinc. induction n as [|n IH]; intros k Hk Hn.
  - replace (k + 1 + Z.of_nat 0) with (k + 1) by lia. apply Hinc. lia.
  - apply Rlt_trans with (item a (k + 1 + Z.of_nat n)).
    + apply IH; lia.
    + replace (k + 1 + Z.of_nat (S n)) with (k + 1 + Z.of_nat n + 1) by lia.
      apply Hinc. lia.
Qed.

Lemma py_min_increasing (a : list R) :
  0 < len a ->
  (forall k, 0 <= k < len a - 1 -> (item a k < item a (k + 1))%R) ->
  py_min a = Ok (item a 0).
Proof.
  intros Hlen Hinc. destruct a as [|x t]; [cbn in Hlen; lia|].
  unfold py_min. f_equal. change (item (x :: t) 0) with x.
  assert (Hall : forall v, In v t -> (x < v)%R).
  { intros v Hv. destruct (In_nth _ _ 0%R Hv) as (n & Hn & <-).
    pose proof (increasing_lt (x :: t) Hinc n 0 ltac:(lia)) as Hlt.
    rewrite len_cons in Hlt. unfold len in Hlt.
    specialize (Hlt ltac:(lia)).
    replace (0 + 1 + Z.of_nat n) with (Z.of_nat n + 1) in Hlt by lia.
    rewrite item_cons in Hlt by lia. unfold item in Hlt.
    rewrite Nat2Z.id in Hlt. exact Hlt. }
  clear Hinc Hlen. induction t as [|y t IH]; [reflexivity|].
  cbn [fold_left]. cbn [dltb ideal].
  assert (x < y)%R by (apply Hall; now left).
  replace (Rltb y x) with false by (symmetry; apply Rltb_false; lra).
  apply IH. intros v Hv. apply Hall. now right.
Qed.

Lemma py_max_increasing (a : list R) :
  0 < len a ->
  (forall k, 0 <= k < len a - 1 -> (item a k < item a (k + 1))%R) ->
  py_max a = Ok (item a (len a - 1)).
Proof.
  intros Hlen Hinc. destruct a as [|x t]; [cbn in Hlen; lia|].
  unfold py_max. f_equal. clear Hlen.
  revert x Hinc. induction t as [|y t IH]; intros x Hinc.
  - reflexivity.
  - cbn [fold_left]. cbn [dltb ideal].
    assert (Hxy : (x < y)%R).
    { specialize (Hinc 0). rewrite !len_cons in Hinc.
      pose proof (len_nonneg t). apply Hinc. lia. }
    replace (Rltb x y) with true by (symmetry; now apply Rltb_true).
    rewrite IH.
    + rewrite (len_cons x (y :: t)).
      replace (len (y :: t) + 1 - 1) with (len (y :: t) - 1 + 1) by lia.
      rewrite item_cons; [reflexivity|].
      rewrite len_cons. pose proof (len_nonneg t). lia.
    + intros k Hk. specialize (Hinc (k + 1)).
      rewrite (len_cons x (y :: t)) in Hinc.
      rewrite (item_cons x (y :: t) k), (item_cons x (y :: t) (k + 1))
        in Hinc by lia.
      apply Hinc. lia.
Qed.

(** X19.  With the default bounds, on a strictly increasing [zraw] (real
    arithmetic), the practical indices returned by [calautorized] are [1]
    and [N-2]: the tests [zraw[ii] > min(zraw)] and [zraw[jj] < max(zraw)]
    are strict, so the two extreme points are never selected. *)
Theorem calautorized_default_bounds :
  forall (zana zraw gauss : list R) (N : Z),
    len zana = N -> len zraw = N -> len gauss = N -> 4 <= N ->
    (forall k, 0 <= k < N - 1 -> (item zraw k < item zraw (k + 1))%R) ->
    exists i j,
      calautorized zana zraw gauss None None = Ok (i, j, 1, N - 2).
Proof.
  intros zana zraw gauss N Ha Hr Hg HN Hinc.
  destruct (calautorized_run zana zraw gauss None None N Ha Hr Hg HN)
    as (lo & hi & i & j & ii & jj & Hlo & Hhi & Hrun & Fjj & Fii & _).
  cbn [or_default] in Hlo, Hhi.
  rewrite py_min_increasing in Hlo by (rewrite ?Hr; assumption || lia).
  rewrite py_max_increasing in Hhi by (rewrite ?Hr; assumption || lia).
  injection Hlo as <-. injection Hhi as <-. rewrite Hr in Fjj.
  assert (Eii : ii = 1).
  { apply (first_up_at _ _ _ _ 1 Fii); [lia| |].
    - cbn [dltb ideal]. apply Rltb_true. apply (Hinc 0). lia.
    - intros q Hq. assert (q = 0) by lia. subst q.
      cbn [dltb ideal]. apply Rltb_false. lra. }
  assert (Ejj : jj = N - 2).
  { apply (first_down_at _ _ _ _ (N - 2) Fjj); [lia| |].
    - cbn [dltb ideal]. apply Rltb_true.
      pose proof (Hinc (N - 2) ltac:(lia)) as Hlt.
      replace (N - 2 + 1) with (N - 1) in Hlt by lia. exact Hlt.
    - intros q Hq. assert (q = N - 1) by lia. subst q.
      cbn [dltb ideal]. apply Rltb_false. lra. }
  subst ii jj. exists i, j. exact Hrun.
Qed.

Lemma calautorized_default_bounds_witness :
  exists i j,
    calautorized [1; 2; 3; 4; 5]%R [1; 2; 3; 4; 5]%R [-2; -1; 0; 1; 2]%R
      None None = Ok (i, j, 1, 5 - 2).
Proof.
  apply (calautorized_default_bounds [1; 2; 3; 4; 5]%R [1; 2; 3; 4; 5]%R
           [-2; -1; 0; 1; 2]%R 5 eq_refl eq_refl eq_refl ltac:(lia)).
  intros k Hk.
  assert (Hc : k = 0 \/ k = 1 \/ k = 2 \/ k = 3) by lia.
  destruct Hc as [->|[->|[->| ->]]];
    cbv -[Rle Rlt Rplus Rmult Rminus Ropp IZR]; lra.
Defined.

Lemma findcontrolpoints_flat_real :
  findcontrolpoints flat_real flat_real flat_real 1%R (-1)%R 2%R (-2)%R
  = Ok (2, 2, 2, 1).
Proof.
  cbv -[Rltb Rleb Rle Rlt Rplus Rmult Rminus Ropp IZR].
  real_tests; try reflexivity.
Qed.

(** X20.  What a returning call of [findcontrolpoints] implies (real
    arithmetic, tables of [N >= 4] points): the bounds passed the entry
    assertions, so [zamax <= zpmax < zpmin <= zamin]; the indices lie in
    [2 <= i <= N/2 <= j <= N-2], [0 <= ii <= N-2], [1 <= jj <= N-1]; and when
    both practical points meet their thresholds ([zraw[jj] <= zpmax] and
    [zraw[ii] >= zpmin]) the analytic curve is lower at [j] than at [i]:
    [zana[j] < zana[i]]. *)
Theorem findcontrolpoints_inverted_bounds :
  forall (zana zraw gauss : list R) (zpmin zpmax zamin zamax : R)
         (N i j ii jj : Z),
    len zana = N -> len zraw = N -> len gauss = N -> 4 <= N ->
    findcontrolpoints zana zraw gauss zpmin zpmax zamin zamax
    = Ok (i, j, ii, jj) ->
    (zamax <= zpmax < zpmin /\ zpmin <= zamin)%R /\
    2 <= i <= N / 2 /\ N / 2 <= j <= N - 2 /\
    0 <= ii <= N - 2 /\ 1 <= jj <= N - 1 /\
    ((item zraw jj <= zpmax)%R -> (zpmin <= item zraw ii)%R ->
     (item zana j < item zana i)%R).
Proof.
  intros zana zraw gauss zpmin zpmax zamin zamax N i j ii jj Ha Hr Hg HN Hrun.
  destruct (findcontrolpoints_returns _ _ _ _ _ _ _ _ _ _ _ Hrun)
    as ((P1 & P2 & P3 & P4) & (Q1 & Q2 & _ & _)).
  destruct (findcontrolpoints_run zana zraw gauss zpmin zpmax zamin zamax N
              Ha Hr Hg HN P1 P2 P3 P4)
    as (i' & j' & ii' & jj' & Fjj & Fii & Fi & Fj & Heq).
  rewrite Hrun in Heq.
  destruct (ordered_control_points _ _ _ _ _ _ _); [|discriminate].
  injection Heq as -> -> -> ->.
  cbn [dltb dleb ideal] in P1, P2, P3, P4, Q1, Q2.
  apply Rltb_true in P1, P2. apply Rleb_true in P3, P4, Q1, Q2.
  destruct Fjj as (Bjj & _), Fii as (Bii & _), Fi as (Bi & _), Fj as (Bj & _).
  repeat split; lia || lra.
Qed.

Lemma findcontrolpoints_inverted_bounds_witness :
  (-2 <= -1 < 1 /\ 1 <= 2)%R /\
  2 <= 2 <= 4 / 2 /\ 4 / 2 <= 2 <= 4 - 2 /\
  0 <= 2 <= 4 - 2 /\ 1 <= 1 <= 4 - 1 /\
  ((item flat_real 1 <= -1)%R -> (1 <= item flat_real 2)%R ->
   (item flat_real 2 < item flat_real 2)%R).
Proof.
  apply (findcontrolpoints_inverted_bounds flat_real flat_real flat_real
           1%R (-1)%R 2%R (-2)%R 4 2 2 2 1 eq_refl eq_refl eq_refl
           ltac:(lia) findcontrolpoints_flat_real).
Defined.

(* ================================================================== *)
(** ** [Y2Z] away from the control points *)

Lemma rewrite_each_none {D} {A : Arith D} (src : list D) f (out : list D) :
  (forall i, 0 <= i < len src -> f (item src i) = Ok None) ->
  rewrite_each src f out = Ok out.
Proof.
  intros Hf. unfold rewrite_each.
  pose proof (len_nonneg src) as Hn.
  destruct (@for_each_invariant (list D) (fun _ t => t = out)
              (fun i out =>
                 x <- getitem src i ;;
                 o <- f x ;;
                 match o with
                 | Some v => setitem out i v
                 | None => Ok out
                 end)
              (Z.to_nat (len src - 0)) 0 (len src) out eq_refl Hn eq_refl)
    as (t & Hrun & ->); [|exact Hrun].
  intros k t Hk ->. rewrite getitem_item by lia. cbn [bind].
  rewrite Hf by lia. cbn [bind]. eauto.
Qed.

(** X21.  [Y2Z] needs two coefficients, in every arithmetic of doubles: with
    an empty [PCI] or a single coefficient the order [K = len(PCI) - 1] is
    below [1] and the call stops on the assertion of [recurrentH]. *)
Theorem Y2Z_needs_two_coefficients :
  forall (D : Type) (A : Arith D) (y PCI : list D)
         (zamin yamin zpmin ypmin zpmax ypmax zamax yamax r : D),
    len PCI <= 1 ->
    Y2Z y PCI zamin yamin zpmin ypmin zpmax ypmax zamax yamax r
    = Raise AssertionError.
Proof.
  intros D A y PCI zamin yamin zpmin ypmin zpmax ypmax zamax yamax r HP.
  unfold Y2Z, recurrentH.
  replace (1 <=? len PCI - 1) with false by lia. reflexivity.
Qed.

Lemma Y2Z_needs_two_coefficients_witness :
  Y2Z [0; 1]%float [3]%float 0%float (-2)%float 1%float (-1)%float
    3%float 1%float 4%float 2%float 1%float = Raise AssertionError.
Proof. apply Y2Z_needs_two_coefficients. cbn. lia. Defined.

(** X22.  When no element of [y] reaches a practical bound (both tests
    [y[i] <= ypmin] and [y[i] >= ypmax] fail for every [i]), [Y2Z] returns
    the expansion [expand_anamor(PCI, recurrentH(y, K), r)] itself, in every
    arithmetic of doubles and whatever the eight control values are. *)
Theorem Y2Z_inside_is_expansion :
  forall (D : Type) (A : Arith D) (y PCI : list D)
         (zamin yamin zpmin ypmin zpmax ypmax zamax yamax r : D),
    2 <= len PCI ->
    (forall i, 0 <= i < len y ->
       (item y i <=? ypmin)%D = false /\ (item y i >=? ypmax)%D = false) ->
    exists H Zraw,
      recurrentH y (len PCI - 1) = Ok H /\
      expand_anamor PCI H r = Ok Zraw /\
      Y2Z y PCI zamin yamin zpmin ypmin zpmax ypmax zamax yamax r = Ok Zraw.
Proof.
  intros D A y PCI zamin yamin zpmin ypmin zpmax ypmax zamax yamax r HP Hin.
  destruct (recurrentH_columns_run y (len PCI - 1) ltac:(lia))
    as (H & HH & Hr & Hc & Hwf & _).
  destruct (proj1 (proj2 (expand_anamor_outcome_run PCI H r Hwf)))
    as (Zraw & HZ & Hlen); [lia|].
  exists H, Zraw. repeat (split; [assumption|]).
  rewrite Y2Z_pointwise, HH. cbn [bind]. rewrite HZ. cbn [bind].
  apply rewrite_each_none. intros i Hi.
  destruct (Hin i Hi) as (H1 & H2). unfold Y2Z_point.
  rewrite H1, H2. reflexivity.
Qed.

Lemma Y2Z_inside_is_expansion_witness :
  exists H Zraw,
    recurrentH [0; 0.5]%float (len [1; 2]%float - 1) = Ok H /\
    expand_anamor [1; 2]%float H 1%float = Ok Zraw /\
    Y2Z [0; 0.5]%float [1; 2]%float 0%float (-2)%float 1%float (-1)%float
      3%float 1%float 4%float 2%float 1%float = Ok Zraw.
Proof.
  apply (Y2Z_inside_is_expansion float binary64 [0; 0.5]%float [1; 2]%float
           0%float (-2)%float 1%float (-1)%float
           3%float 1%float 4%float 2%float 1%float).
  - cbn. lia.
  - intros i Hi. change (len [0; 0.5]%float) with 2 in Hi.
    assert (Hc : i = 0 \/ i = 1) by lia.
    destruct Hc as [-> | ->]; vm_compute; split; reflexivity.
Defined.
